(** * Screen element grounding service: a shallow embedding and its properties

    The development follows the Python sources of the grounding service:

    - [coordinates.py]: the two answer patterns, the extractors built on
      them and the scaling of normalised coordinates to pixels;
    - [vision_internvl.py]: the tiling of an image into square tiles, the
      parsing step of the synchronous prediction, and the lock that
      serialises the predictions;
    - [server.py]: the fuzzy text resolver, the text detector, the
      per-session cache, the ingestion of a screenshot with its detached
      detection task, the resolution entry point, and the JSON-RPC
      protocol with the main loop.

    Part I gives the definitions, Part II the lemmas and theorems.

    Conventions of the embedding.
    - A Python [float] is a binary64 number: [spec_float] with precision 53
      and maximal exponent 1024, with the operations of the Standard
      Library's [SpecFloat], which round to nearest, ties to even.
    - A Python [int] is a [Z]; [//] and [%] are [Z.div] and [Z.modulo], which
      round towards minus infinity as Python does.
    - A Python [str] is a [string]; the characters are restricted to ASCII,
      so [\d] is [0-9] and [\s] is the ASCII white space of Python's
      [str.isspace].
    - A raised exception is a value of an error type; [None] is [None].
    - The body of a coroutine between two [await]s runs without
      interruption under asyncio, so it is one atomic step on the state of
      the service. *)

From Stdlib Require Import ZArith Lia Bool Ascii String List Sorted.
From Stdlib Require Import Floats.SpecFloat.
From stdpp Require Import base option list gmap strings pretty.

Open Scope Z_scope.

(* ################################################################# *)
(** * Part I: definitions *)

(* ================================================================= *)
(** ** Binary64 floating point numbers *)

Module Float64.

Definition prec : Z := 53.
Definition emax : Z := 1024.

Abbreviation float := spec_float.

Definition fadd : float -> float -> float := SFadd prec emax.
Definition fsub : float -> float -> float := SFsub prec emax.
Definition fmul : float -> float -> float := SFmul prec emax.
Definition fdiv : float -> float -> float := SFdiv prec emax.
Definition fabs : float -> float := SFabs.
Definition flt : float -> float -> bool := SFltb.
Definition fle : float -> float -> bool := SFleb.
Definition feq : float -> float -> bool := SFeqb.

Definition is_nan (x : float) : bool :=
  match x with S754_nan => true | _ => false end.

Definition is_finite (x : float) : bool :=
  match x with S754_zero _ | S754_finite _ _ _ => true | _ => false end.

Definition pos_infinity : float := S754_infinity false.

(** The integer [n] as a fraction with exponent 0, before any rounding. *)
Definition exact_int (n : Z) : float :=
  match n with
  | Z0 => S754_zero false
  | Zpos p => S754_finite false p 0
  | Zneg p => S754_finite true p 0
  end.

(** [float(n)] for an [int], as in mixed arithmetic: correctly rounded, and
    [OverflowError] (here [None]) when [n] is too large. *)
Definition float_of_int (n : Z) : option float :=
  let x := binary_normalize prec emax n 0 false in
  if is_finite x then Some x else None.

(** [a / b] on two [int]s: the correctly rounded quotient;
    [ZeroDivisionError] and [OverflowError] are [None]. *)
Definition int_truediv (a b : Z) : option float :=
  if b =? 0 then None
  else
    let x := fdiv (exact_int a) (exact_int b) in
    if is_finite x then Some x else None.

(** [float(s)] for a string [s] of the shape [\d+] or [\d+\.\d+], given as
    the number [n] spelt by all its digits and the count [k] of digits
    after the point: the binary64 number nearest to [n / 10^k]. *)
Definition float_of_decimal (n : N) (k : nat) : float :=
  match n with
  | N0 => S754_zero false
  | Npos p => fdiv (S754_finite false p 0) (S754_finite false (Z.to_pos (10 ^ Z.of_nat k)) 0)
  end.

(** [math.floor(x)]: [ValueError] on a NaN and [OverflowError] on an
    infinity are [None]. *)
Definition floor (x : float) : option Z :=
  match x with
  | S754_zero _ => Some 0
  | S754_finite s m e =>
      let v := if s then Zneg m else Zpos m in
      Some (if 0 <=? e then v * 2 ^ e else v / 2 ^ (- e))
  | _ => None
  end.

(** [n > x] for an [int] [n] and a [float] [x]; Python compares the two
    exactly, without converting [n]. *)
Definition int_gt_float (n : Z) (x : float) : bool :=
  match x with
  | S754_nan => false
  | S754_infinity s => s
  | S754_zero _ => 0 <? n
  | S754_finite s m e =>
      let v := if s then Zneg m else Zpos m in
      if 0 <=? e then v * 2 ^ e <? n else v <? n * 2 ^ (- e)
  end.

(** The literals of the sources. *)
Definition f0_0 : float := S754_zero false.
Definition f0_5 : float := float_of_decimal 5 1.
Definition f2_0 : float := float_of_decimal 2 0.
Definition f1000_0 : float := float_of_decimal 1000 0.

End Float64.

(* ================================================================= *)
(** ** Python strings *)

Module PyStr.

Definition code (c : ascii) : N := N_of_ascii c.

(** [c.isspace()] on ASCII: tab, line feed, vertical tab, form feed,
    carriage return, the four separators 28 to 31 and the space. *)
Definition is_space (c : ascii) : bool :=
  let n := code c in
  (((9 <=? n) && (n <=? 13)) || ((28 <=? n) && (n <=? 32)))%N.

Definition is_digit (c : ascii) : bool :=
  let n := code c in ((48 <=? n) && (n <=? 57))%N.

Definition lower_char (c : ascii) : ascii :=
  let n := code c in
  if ((65 <=? n) && (n <=? 90))%N then ascii_of_N (n + 32) else c.

(** [s.lower()] *)
Definition lower (s : list ascii) : list ascii := map lower_char s.

(** The longest prefix of [s] whose characters satisfy [p], and the rest. *)
Fixpoint take_while (p : ascii -> bool) (s : list ascii) : list ascii :=
  match s with
  | c :: s' => if p c then c :: take_while p s' else []
  | [] => []
  end.

Fixpoint drop_while (p : ascii -> bool) (s : list ascii) : list ascii :=
  match s with
  | c :: s' => if p c then drop_while p s' else s
  | [] => []
  end.

(** [s.strip()] *)
Definition strip (s : list ascii) : list ascii :=
  rev (drop_while is_space (rev (drop_while is_space s))).

Definition chars (s : string) : list ascii := list_ascii_of_string s.

(** The truth value of a [str]: false exactly for the empty string. *)
Definition truthy (s : string) : bool :=
  match s with EmptyString => false | _ => true end.

(** The truth value of an [Optional[str]]. *)
Definition truthy_opt (s : option string) : bool :=
  match s with Some s => truthy s | None => false end.

(** [s[:n]] for [0 <= n]. *)
Fixpoint prefix (n : nat) (s : string) : string :=
  match n, s with
  | S n', String c s' => String c (prefix n' s')
  | _, _ => EmptyString
  end.

End PyStr.

(* ================================================================= *)
(** ** Regular expressions with Python's backtracking semantics

    The fragment used by [coordinates.py]: literal characters, classes,
    greedy [*] and [+] on a class, a greedy optional group, concatenation
    and numbered capturing groups. *)

Module Regex.

Inductive regex : Type :=
| Chr (c : ascii)
| Star (p : ascii -> bool)
| Plus (p : ascii -> bool)
| Opt (r : regex)
| Seq (r1 r2 : regex)
| Group (n : nat) (r : regex).

Infix ">>>" := Seq (at level 62, right associativity).

(** The captured groups, the most recent first. *)
Definition captures : Type := list (nat * list ascii).

Fixpoint group (n : nat) (caps : captures) : option (list ascii) :=
  match caps with
  | (m, u) :: caps' => if Nat.eqb n m then Some u else group n caps'
  | [] => None
  end.

(** The part of [s] consumed when [s1] is what is left of it. *)
Definition consumed (s s1 : list ascii) : list ascii :=
  take (length s - length s1)%nat s.

Section Matcher.
Context {R : Type}.

(** [p*]: the longest run first, then giving characters back one by one. *)
Fixpoint star_greedy (p : ascii -> bool) (s : list ascii)
    (k : list ascii -> option R) : option R :=
  match s with
  | c :: s' =>
      if p c then
        match star_greedy p s' k with
        | Some res => Some res
        | None => k s
        end
      else k s
  | [] => k []
  end.

(** [rmatch r s caps k]: match [r] at the head of [s], then continue with
    [k] on what is left; the first alternative that lets [k] succeed wins. *)
Fixpoint rmatch (r : regex) (s : list ascii) (caps : captures)
    (k : list ascii -> captures -> option R) : option R :=
  match r with
  | Chr c =>
      match s with
      | c' :: s' => if Ascii.eqb c c' then k s' caps else None
      | [] => None
      end
  | Star p => star_greedy p s (fun s' => k s' caps)
  | Plus p =>
      match s with
      | c :: s' => if p c then star_greedy p s' (fun s'' => k s'' caps) else None
      | [] => None
      end
  | Opt r1 =>
      match rmatch r1 s caps k with
      | Some res => Some res
      | None => k s caps
      end
  | Seq r1 r2 => rmatch r1 s caps (fun s1 caps1 => rmatch r2 s1 caps1 k)
  | Group n r1 =>
      rmatch r1 s caps (fun s1 caps1 => k s1 ((n, consumed s s1) :: caps1))
  end.

End Matcher.

(** A match: its groups and the text after it. *)
Definition rmatch_result : Type := captures * list ascii.

(** [pattern.match(text, pos)] on the text from [pos] on. *)
Definition match_at (r : regex) (s : list ascii) : option rmatch_result :=
  rmatch r s [] (fun s' caps => Some (caps, s')).

(** [pattern.search(text)]: the match at the leftmost position that has
    one, with that position. *)
Fixpoint search (r : regex) (s : list ascii) : option (nat * rmatch_result) :=
  match match_at r s with
  | Some m => Some (O, m)
  | None =>
      match s with
      | _ :: s' =>
          match search r s' with
          | Some (i, m) => Some (S i, m)
          | None => None
          end
      | [] => None
      end
  end.

(** [pattern.finditer(text)]: the matches from left to right, each search
    resuming where the previous match ended. [skip] counts the positions
    still inside the previous match. The patterns of this development
    match no empty string. *)
Fixpoint finditer_from (r : regex) (skip : nat) (s : list ascii)
    : list rmatch_result :=
  match skip with
  | S n =>
      match s with
      | _ :: s' => finditer_from r n s'
      | [] => []
      end
  | O =>
      match match_at r s with
      | Some m =>
          m :: match s with
               | _ :: s' =>
                   finditer_from r (length s - length (snd m) - 1)%nat s'
               | [] => []
               end
      | None =>
          match s with
          | _ :: s' => finditer_from r O s'
          | [] => []
          end
      end
  end.

Definition finditer (r : regex) (s : list ascii) : list rmatch_result :=
  finditer_from r O s.

(** What a regular expression matches, and the groups it sets: the
    declarative reading of the patterns. *)
Inductive matches : regex -> list ascii -> captures -> captures -> Prop :=
| M_chr c caps : matches (Chr c) [c] caps caps
| M_star p u caps : forallb p u = true -> matches (Star p) u caps caps
| M_plus p c u caps :
    p c = true -> forallb p u = true -> matches (Plus p) (c :: u) caps caps
| M_opt_some r u caps caps' :
    matches r u caps caps' -> matches (Opt r) u caps caps'
| M_opt_none r caps : matches (Opt r) [] caps caps
| M_seq r1 r2 u1 u2 caps caps1 caps2 :
    matches r1 u1 caps caps1 -> matches r2 u2 caps1 caps2 ->
    matches (Seq r1 r2) (u1 ++ u2) caps caps2
| M_group n r u caps caps' :
    matches r u caps caps' -> matches (Group n r) u caps ((n, u) :: caps').

(** The matches of [r] at the positions of [s], from left to right, each
    position being tried. *)
Fixpoint all_from (r : regex) (s : list ascii) : list rmatch_result :=
  match match_at r s with Some m => [m] | None => [] end
  ++ match s with
     | _ :: s' => all_from r s'
     | [] => []
     end.

(** No match of [r] is empty. *)
Definition nonempty_matches (r : regex) : Prop :=
  forall s m, match_at r s = Some m -> (length (snd m) < length s)%nat.

(** No match of [r] starts inside another one. *)
Definition no_overlap (r : regex) : Prop :=
  forall s m, match_at r s = Some m ->
    forall j, (0 < j < length s - length (snd m))%nat ->
      match_at r (drop j s) = None.

(** The pattern [r] occurs in [s] at position [i]. *)
Definition occurs_at (r : regex) (s : list ascii) (i : nat) : Prop :=
  exists u caps, matches r u [] caps /\ u `prefix_of` drop i s.

End Regex.

(* ================================================================= *)
(** ** coordinates.py *)

Module Coordinates.
Import Float64 PyStr Regex.

(** [_NUM = r"(\d+(?:\.\d+)?)"], as the [n]-th group of its pattern. *)
Definition _NUM (n : nat) : regex :=
  Group n (Plus is_digit >>> Opt (Chr "." >>> Plus is_digit)).

Definition POINT_PATTERN : regex :=
  Chr "[" >>> Chr "[" >>> Star is_space >>> _NUM 1 >>> Star is_space >>> Chr "," >>>
  Star is_space >>> _NUM 2 >>> Star is_space >>> Chr "]" >>> Chr "]".

Definition BBOX_PATTERN : regex :=
  Chr "[" >>> Chr "[" >>> Star is_space >>> _NUM 1 >>> Star is_space >>> Chr "," >>>
  Star is_space >>> _NUM 2 >>> Star is_space >>> Chr "," >>>
  Star is_space >>> _NUM 3 >>> Star is_space >>> Chr "," >>>
  Star is_space >>> _NUM 4 >>> Star is_space >>> Chr "]" >>> Chr "]".

(** The shape of the texts the patterns match. *)

(** White space, possibly none: [\s*]. *)
Definition is_ws (w : list ascii) : Prop := forallb is_space w = true.

(** A number: [\d+(?:\.\d+)?]. *)
Definition is_num (u : list ascii) : Prop :=
  exists a ds frac,
    u = a :: ds ++ frac /\ is_digit a = true /\ forallb is_digit ds = true
    /\ (frac = [] \/ exists b fs, frac = "."%char :: b :: fs
                       /\ is_digit b = true /\ forallb is_digit fs = true).

(** A number [n] with white space around it: [\s*(\d+(?:\.\d+)?)\s*]. *)
Definition field_of (n f : list ascii) : Prop :=
  exists w w', is_ws w /\ is_ws w' /\ is_num n /\ f = w ++ n ++ w'.

(** The characters that may follow a field in the two patterns. *)
Definition is_sep (c : ascii) : Prop := c = ","%char \/ c = "]"%char.

(** The text of a point [[[x,y]]] with the fields [f1] and [f2]. *)
Definition point_text (f1 f2 : list ascii) : list ascii :=
  "["%char :: "["%char :: f1 ++ ","%char :: f2 ++ ["]"%char; "]"%char].

(** The text of a box [[[x1,y1,x2,y2]]]. *)
Definition bbox_text (f1 f2 f3 f4 : list ascii) : list ascii :=
  "["%char :: "["%char :: f1 ++ ","%char :: f2 ++ ","%char :: f3 ++ ","%char :: f4
    ++ ["]"%char; "]"%char].

Definition digit_value (c : ascii) : N := (code c - 48)%N.

(** The digits of [s] read as one number. *)
Definition digits_value (s : list ascii) : N :=
  fold_left (fun n c => (10 * n + digit_value c)%N) s 0%N.

(** [float(s)] on the spellings [\d+] and [\d+\.\d+], the only ones a group
    of the two patterns can hold; [ValueError] is [None]. *)
Definition float_of_str (s : list ascii) : option float :=
  let ip := take_while is_digit s in
  let rest := drop_while is_digit s in
  match ip, rest with
  | [], _ => None
  | _, [] => Some (float_of_decimal (digits_value ip) 0)
  | _, c :: fp =>
      if Ascii.eqb c "." && forallb is_digit fp && negb (Nat.eqb (length fp) 0)
      then Some (float_of_decimal (digits_value (ip ++ fp)) (length fp))
      else None
  end.

(** [float(match.group(n))]; an exception is [None]. *)
Definition float_group (n : nat) (caps : captures) : option float :=
  match group n caps with
  | Some u => float_of_str u
  | None => None
  end.

Definition extract_first_point (text : string) : option (float * float) :=
  match search POINT_PATTERN (chars text) with
  | None => None
  | Some (_, (caps, _)) =>
      match float_group 1 caps, float_group 2 caps with
      | Some x, Some y => Some (x, y)
      | _, _ => None
      end
  end.

Definition extract_last_bbox (text : string)
    : option (float * float * float * float) :=
  match last (finditer BBOX_PATTERN (chars text)) with
  | None => None
  | Some (caps, _) =>
      match float_group 1 caps, float_group 2 caps,
            float_group 3 caps, float_group 4 caps with
      | Some x1, Some y1, Some x2, Some y2 => Some (x1, y1, x2, y2)
      | _, _, _, _ => None
      end
  end.

(** The text [s] starts with two opening brackets. *)
Definition starts_double_bracket (s : list ascii) : bool :=
  match s with
  | a :: b :: _ => Ascii.eqb a "[" && Ascii.eqb b "["
  | _ => false
  end.

(** Every double opening bracket of [s] starts a bounding box. *)
Definition bbox_only (s : list ascii) : Prop :=
  forall i, starts_double_bracket (drop i s) = true -> occurs_at BBOX_PATTERN s i.

(** The same, as a test. *)
Definition bbox_onlyb (s : list ascii) : bool :=
  forallb (fun i => implb (starts_double_bracket (drop i s))
                          (match match_at BBOX_PATTERN (drop i s) with
                           | Some _ => true
                           | None => false
                           end))
          (seq 0 (S (length s))).

(** One axis of [scale_norm_to_pixels]:
    [max(0, min(dim - 1, int(math.floor((norm / 1000.0) * dim))))]. *)
Definition scale_axis (norm : float) (dim : Z) : option Z :=
  match float_of_int dim with
  | None => None
  | Some d =>
      match floor (fmul (fdiv norm f1000_0) d) with
      | None => None
      | Some px => Some (Z.max 0 (Z.min (dim - 1) px))
      end
  end.

(** [scale_norm_to_pixels]; an exception of the arithmetic is [None]. *)
Definition scale_norm_to_pixels (x_norm y_norm : float) (width height : Z)
    : option (Z * Z) :=
  match scale_axis x_norm width, scale_axis y_norm height with
  | Some x_px, Some y_px => Some (x_px, y_px)
  | _, _ => None
  end.

End Coordinates.

(* ================================================================= *)
(** ** server.py: the fuzzy text resolver *)

Module OcrText.
Import Float64 PyStr.

(** The ["bbox"] entry of a detected region, with its keys ["x"], ["y"],
    ["width"] and ["height"]. *)
Record BBox : Type := { bbox_x : Z; bbox_y : Z; bbox_width : Z; bbox_height : Z }.

(** One detected region, as [OcrEngine._analyze_sync] builds it. *)
Record OcrItem : Type :=
  { item_id : string; item_text : string; item_confidence : float; item_bbox : BBox }.

(** The two [ValueError]s of [resolve_ocr_text]; the second carries the
    best score of its message. *)
Inductive ocr_error : Type :=
| TextRequired
| CouldNotFind (best_score : float).

Section Resolver.
(** [SequenceMatcher(None, a, b).ratio()] of the Python library. *)
Variable ratio : list ascii -> list ascii -> float.

Definition normalize (s : string) : list ascii := strip (lower (chars s)).

(** One turn of the loop over [ocr_results], on [(best, best_score)]. *)
Definition best_step (target : list ascii) (acc : option OcrItem * float)
    (item : OcrItem) : option OcrItem * float :=
  let current := normalize (item_text item) in
  let score := ratio target current in
  if flt (snd acc) score then (Some item, score) else acc.

Definition best_match (target : list ascii) (ocr_results : list OcrItem)
    : option OcrItem * float :=
  fold_left (best_step target) ocr_results (None, f0_0).

Definition bbox_center (b : BBox) : Z * Z :=
  (bbox_x b + bbox_width b / 2, bbox_y b + bbox_height b / 2).

Definition resolve_ocr_text (text : string) (ocr_results : list OcrItem)
    (threshold : float) : ocr_error + (Z * Z) :=
  if negb (truthy text) then inl TextRequired
  else
    let target := normalize text in
    let '(best, best_score) := best_match target ocr_results in
    match best with
    | Some item =>
        if fle threshold best_score then inr (bbox_center (item_bbox item))
        else inl (CouldNotFind best_score)
    | None => inl (CouldNotFind best_score)
    end.

(** The score of a region against the normalised target. *)
Definition score (target : list ascii) (item : OcrItem) : float :=
  ratio target (normalize (item_text item)).

(** What the loop has established after the regions [l]. *)
Definition best_inv (target : list ascii) (l : list OcrItem)
    (acc : option OcrItem * float) : Prop :=
  is_nan (snd acc) = false
  /\ (forall item, item ∈ l -> flt (snd acc) (score target item) = false)
  /\ match fst acc with
     | None => snd acc = f0_0
     | Some b =>
         exists i, l !! i = Some b /\ snd acc = score target b
           /\ flt f0_0 (snd acc) = true
           /\ forall j item, (j < i)%nat -> l !! j = Some item ->
                flt (score target item) (snd acc) = true
     end.

End Resolver.
End OcrText.

(* ================================================================= *)
(** ** vision_internvl.py: tiling *)

Module Tiling.
Import Float64.

(** An image as far as the tiling looks at it: [image.size]. *)
Record Image : Type := { img_width : Z; img_height : Z }.

(** A crop box [(left, upper, right, lower)]. *)
Record Box : Type := { box_left : Z; box_upper : Z; box_right : Z; box_lower : Z }.

(** An element of [processed_images]: a crop of the resized image, or the
    whole image resized to a square. *)
Inductive Tile : Type :=
| Crop (resized : Z * Z) (box : Box)
| Thumbnail (size : Z * Z).

Definition tile_size (t : Tile) : Z * Z :=
  match t with
  | Crop _ b => (box_right b - box_left b, box_lower b - box_upper b)
  | Thumbnail sz => sz
  end.

(** The pairs produced by the generator expression, in its order and with
    its repetitions. *)
Definition ratio_generator (min_num max_num : Z) : list (Z * Z) :=
  n ← seqZ min_num (max_num + 1 - min_num);
  i ← seqZ 1 n;
  j ← seqZ 1 n;
  if (i * j <=? max_num) && (min_num <=? i * j) then [(i, j)] else [].

(** [enum] lists the elements of [set(gen)] in the order the set is
    iterated, which the sources do not fix. *)
Definition enumerates (enum gen : list (Z * Z)) : Prop :=
  NoDup enum /\ forall x, x ∈ enum <-> x ∈ gen.

Definition area_key (x : Z * Z) : Z := fst x * snd x.

(** [sorted(l, key=...)]: an insertion sort that keeps the order of the
    elements of equal key. *)
Fixpoint insert_by (key : Z * Z -> Z) (x : Z * Z) (l : list (Z * Z))
    : list (Z * Z) :=
  match l with
  | y :: l' => if key x <=? key y then x :: l else y :: insert_by key x l'
  | [] => [x]
  end.

Definition sorted_by (key : Z * Z -> Z) (l : list (Z * Z)) : list (Z * Z) :=
  foldr (insert_by key) [] l.

(** The order a sort by [key] establishes. *)
Definition key_le (key : Z * Z -> Z) (a b : Z * Z) : Prop := key a <= key b.

(** [x * n] for a [float] [x] and an [int] [n]. *)
Definition fmul_int (x : float) (n : Z) : option float :=
  match float_of_int n with
  | Some d => Some (fmul x d)
  | None => None
  end.

(** [0.5 * image_size * image_size * ratio[0] * ratio[1]] *)
Definition half_tile_area (image_size : Z) (ratio : Z * Z) : option float :=
  a ← fmul_int f0_5 image_size;
  b ← fmul_int a image_size;
  c ← fmul_int b (fst ratio);
  fmul_int c (snd ratio).

(** One turn of the loop over [target_ratios], on
    [(best_ratio_diff, best_ratio)]; an exception is [None]. *)
Definition ratio_step (aspect_ratio : float) (area image_size : Z)
    (st : float * (Z * Z)) (ratio : Z * Z) : option (float * (Z * Z)) :=
  target_aspect_ratio ← int_truediv (fst ratio) (snd ratio);
  let ratio_diff := fabs (fsub aspect_ratio target_aspect_ratio) in
  if flt ratio_diff (fst st) then Some (ratio_diff, ratio)
  else if feq ratio_diff (fst st) then
    bound ← half_tile_area image_size ratio;
    if int_gt_float area bound then Some (fst st, ratio) else Some st
  else Some st.

Fixpoint ratio_loop (aspect_ratio : float) (area image_size : Z)
    (target_ratios : list (Z * Z)) (st : float * (Z * Z))
    : option (float * (Z * Z)) :=
  match target_ratios with
  | [] => Some st
  | ratio :: rest =>
      st' ← ratio_step aspect_ratio area image_size st ratio;
      ratio_loop aspect_ratio area image_size rest st'
  end.

(** The deviation [abs(aspect_ratio - ratio[0] / ratio[1])] of a grid. *)
Definition ratio_diff (aspect_ratio : float) (ratio : Z * Z) : option float :=
  target_aspect_ratio ← int_truediv (fst ratio) (snd ratio);
  Some (fabs (fsub aspect_ratio target_aspect_ratio)).

(** The test of the tie branch:
    [area > 0.5 * image_size * image_size * ratio[0] * ratio[1]]. *)
Definition exceeds_half (area image_size : Z) (ratio : Z * Z) : option bool :=
  bound ← half_tile_area image_size ratio;
  Some (int_gt_float area bound).

(** The turn of the loop when neither operation raises: [dev] gives the
    deviation of a grid and [test] the outcome of the tie test. *)
Definition pick_step (dev : Z * Z -> float) (test : Z * Z -> bool)
    (st : float * (Z * Z)) (x : Z * Z) : float * (Z * Z) :=
  if flt (dev x) (fst st) then (dev x, x)
  else if feq (dev x) (fst st) then (if test x then (fst st, x) else st)
  else st.

(** What the loop has established after the grids [l], starting from the
    grid [d0] and an infinite deviation. *)
Definition pick_inv (dev : Z * Z -> float) (test : Z * Z -> bool)
    (d0 : Z * Z) (l : list (Z * Z)) (st : float * (Z * Z)) : Prop :=
  (forall x, x ∈ l -> flt (dev x) (fst st) = false)
  /\ ((fst st = pos_infinity /\ snd st = d0
       /\ forall x, x ∈ l -> feq (dev x) (fst st) = true -> test x = false)
      \/ (exists p1 p2, l = p1 ++ snd st :: p2
           /\ feq (dev (snd st)) (fst st) = true
           /\ (forall x, x ∈ p2 -> feq (dev x) (fst st) = true -> test x = false)
           /\ ((forall x, x ∈ p1 -> feq (dev x) (fst st) = false)
               \/ test (snd st) = true))).

(** The deviation and the tie test as total functions; the default values
    stand for an operation that raised. *)
Definition dev_of (aspect_ratio : float) (ratio : Z * Z) : float :=
  default S754_nan (ratio_diff aspect_ratio ratio).

Definition test_of (area image_size : Z) (ratio : Z * Z) : bool :=
  default false (exceeds_half area image_size ratio).

(** The grids of at least one and at most twelve tiles. *)
Definition grids : list (Z * Z) :=
  [(1, 1); (1, 2); (2, 1); (1, 3); (3, 1); (1, 4); (2, 2); (4, 1); (1, 5);
   (5, 1); (1, 6); (2, 3); (3, 2); (6, 1); (1, 7); (7, 1); (1, 8); (2, 4);
   (4, 2); (8, 1); (1, 9); (3, 3); (9, 1); (1, 10); (2, 5); (5, 2); (10, 1);
   (1, 11); (11, 1); (1, 12); (2, 6); (3, 4); (4, 3); (6, 2); (12, 1)].

(** The first half of [_dynamic_preprocess]: the choice of [best_ratio]. *)
Definition best_ratio_of (enum : list (Z * Z)) (image : Image)
    (image_size : Z) : option (Z * Z) :=
  let orig_width := img_width image in
  let orig_height := img_height image in
  aspect_ratio ← int_truediv orig_width orig_height;
  let target_ratios := sorted_by area_key enum in
  let area := orig_width * orig_height in
  st ← ratio_loop aspect_ratio area image_size target_ratios (pos_infinity, (1, 1));
  Some (snd st).

(** The crop box of the [i]-th block. *)
Definition block_box (target_width image_size i : Z) : Box :=
  {| box_left := (i mod (target_width / image_size)) * image_size;
     box_upper := (i / (target_width / image_size)) * image_size;
     box_right := ((i mod (target_width / image_size)) + 1) * image_size;
     box_lower := ((i / (target_width / image_size)) + 1) * image_size |}.

(** [_dynamic_preprocess]. The image library refuses to resize to a side
    that is not positive, and a division by zero raises: both are [None]. *)
Definition _dynamic_preprocess (enum : list (Z * Z)) (image : Image)
    (image_size : Z) (use_thumbnail : bool) : option (list Tile) :=
  best_ratio ← best_ratio_of enum image image_size;
  let target_width := image_size * fst best_ratio in
  let target_height := image_size * snd best_ratio in
  let blocks := fst best_ratio * snd best_ratio in
  if negb ((0 <? target_width) && (0 <? target_height)) then None
  else
    let processed_images :=
      map (fun i => Crop (target_width, target_height)
                         (block_box target_width image_size i))
          (seqZ 0 blocks) in
    if use_thumbnail && negb (Nat.eqb (length processed_images) 1)
    then Some (processed_images ++ [Thumbnail (image_size, image_size)])
    else Some processed_images.

(** The crops of a grid of [cols] by [rows] tiles of side [image_size]. *)
Definition grid_crops (image_size cols rows : Z) : list Tile :=
  map (fun k => Crop (image_size * cols, image_size * rows)
                     (block_box (image_size * cols) image_size k))
      (seqZ 0 (cols * rows)).

(** The image of the tiling example. *)
Definition image_1448_448 : Image := {| img_width := 1448; img_height := 448 |}.

End Tiling.

(* ================================================================= *)
(** ** vision_internvl.py: the synchronous prediction *)

Module Vision.
Import Float64 PyStr Coordinates Tiling.

(** Lines 210 to 220 of [_predict_sync]: the point the answer designates,
    in normalised coordinates. *)
Definition answer_point (output_text : string) : option (float * float) :=
  if negb (truthy output_text) then None
  else
    match extract_first_point output_text with
    | Some point => Some point
    | None =>
        match extract_last_bbox output_text with
        | None => None
        | Some (x1, y1, x2, y2) =>
            Some (fdiv (fadd x1 x2) f2_0, fdiv (fadd y1 y2) f2_0)
        end
    end.

Definition grounding_prompt (instruction : string) : string :=
  ("Please provide the bounding box coordinate of the UI element this user instruction describes: <ref>"
   +:+ instruction +:+ "</ref>. " +:+ "Answer in the format of [[x1, y1, x2, y2]]")%string.

Definition question (instruction : string) : string :=
  (String "<" "image>" +:+ String (ascii_of_N 10) (grounding_prompt instruction))%string.

Section Predict.
(** The order in which the set of grids is iterated. *)
Variable enum : list (Z * Z).
(** [Image.open(BytesIO(base64.b64decode(image_b64)))], [None] when it
    raises. *)
Variable image_open : string -> option Image.
(** [self.model.chat] on the tiles and the question: the answer, [None]
    when it raises or answers [None]. *)
Variable model_chat : list Tile -> string -> option string.

(** [_predict_sync]; every exception is caught and gives [None]. *)
Definition _predict_sync (image_b64 instruction : string) : option (Z * Z) :=
  image ← image_open image_b64;
  tiles ← _dynamic_preprocess enum image 448 true;
  output_text ← model_chat tiles (question instruction);
  point ← answer_point output_text;
  scale_norm_to_pixels (fst point) (snd point) (img_width image) (img_height image).

End Predict.
End Vision.

(* ================================================================= *)
(** ** server.py: the session cache and the service *)

Module Service.
Import Float64 PyStr OcrText Coordinates Tiling Vision.

(** [SessionCache]; [ocr_event] is the flag of the [asyncio.Event]. *)
Record SessionCache : Type :=
  { screenshot_id : option string;
    screenshot_b64 : option string;
    ocr_results : option (list OcrItem);
    ocr_event : bool }.

(** [SessionCache()] *)
Definition new_cache : SessionCache :=
  {| screenshot_id := None; screenshot_b64 := None;
     ocr_results := None; ocr_event := false |}.

Definition set_ocr_results (r : option (list OcrItem)) (c : SessionCache)
    : SessionCache :=
  {| screenshot_id := screenshot_id c; screenshot_b64 := screenshot_b64 c;
     ocr_results := r; ocr_event := ocr_event c |}.

Definition set_ocr_event (b : bool) (c : SessionCache) : SessionCache :=
  {| screenshot_id := screenshot_id c; screenshot_b64 := screenshot_b64 c;
     ocr_results := ocr_results c; ocr_event := b |}.

(** A [run_ocr] task that has been created and has not finished. The
    [cache] object it captured is the entry of [task_key]: an entry is
    created once for its key and mutated in place ever after. *)
Record OcrTask : Type :=
  { task_key : string; task_current_id : string; task_screenshot : string }.

(** [GroundingService], with the detection tasks in flight. *)
Record GroundingService : Type :=
  { _sessions : gmap string SessionCache;
    ocr_tasks : list OcrTask;
    _vision_model : option string }.

Definition with_sessions (m : gmap string SessionCache) (svc : GroundingService)
    : GroundingService :=
  {| _sessions := m; ocr_tasks := ocr_tasks svc; _vision_model := _vision_model svc |}.

Definition with_tasks (ts : list OcrTask) (svc : GroundingService)
    : GroundingService :=
  {| _sessions := _sessions svc; ocr_tasks := ts; _vision_model := _vision_model svc |}.

Definition with_vision_model (v : option string) (svc : GroundingService)
    : GroundingService :=
  {| _sessions := _sessions svc; ocr_tasks := ocr_tasks svc; _vision_model := v |}.

(** [GroundingService()] *)
Definition new_service : GroundingService :=
  {| _sessions := ∅; ocr_tasks := []; _vision_model := None |}.

(** The entry of [session_key] as a reader sees it. *)
Definition cache_of (session_key : string) (svc : GroundingService) : SessionCache :=
  default new_cache (_sessions svc !! session_key).

(** [_get_session]: the entry is created when the key is new. *)
Definition _get_session (session_key : string) (svc : GroundingService)
    : GroundingService :=
  match _sessions svc !! session_key with
  | Some _ => svc
  | None => with_sessions (<[session_key := new_cache]> (_sessions svc)) svc
  end.

(** The result of [resolve]. *)
Record GroundingResult : Type :=
  { screenshotId : string; result_x : Z; result_y : Z }.

(** The exceptions that leave [resolve]. *)
Inductive resolve_error : Type :=
| NoScreenshot
| OcrUnavailable
| OcrError (e : ocr_error)
| DescriptionRequired
| VisionUnavailable
| VisionNotFound
| UnknownMethod.

Section Server.
(** [hashlib.sha256(s.encode("utf-8")).hexdigest()] *)
Variable sha256_hexdigest : string -> string.
(** The module constant [OCR_AVAILABLE]. *)
Variable OCR_AVAILABLE : bool.
(** [SequenceMatcher(None, a, b).ratio()] *)
Variable ratio : list ascii -> list ascii -> float.
(** Whether [InternVLModel(model_name, ...)] can be constructed. *)
Variable model_loads : string -> bool.
(** The collaborators of [_predict_sync]. *)
Variable enum : list (Z * Z).
Variable image_open : string -> option Image.
Variable model_chat : list Tile -> string -> option string.

(** The identifier derived from the image when the caller gives none. *)
Definition fingerprint (screenshot_b64 : string) : string :=
  let sample :=
    if (1024 <? String.length screenshot_b64)%nat
    then prefix 1024 screenshot_b64 else screenshot_b64 in
  prefix 16 (sha256_hexdigest sample).

Definition ingest_id (screenshot_b64 : string) (screenshot_id : option string)
    : string :=
  match screenshot_id with
  | Some sid => if truthy sid then sid else fingerprint screenshot_b64
  | None => fingerprint screenshot_b64
  end.

(** [ingest_screenshot] up to and including [asyncio.create_task]; what
    follows only waits and returns the identifier. *)
Definition ingest_screenshot (session_key screenshot_b64 : string)
    (screenshot_id : option string) (svc : GroundingService)
    : GroundingService * string :=
  let svc1 := _get_session session_key svc in
  let sid := ingest_id screenshot_b64 screenshot_id in
  let cache := {| screenshot_id := Some sid; screenshot_b64 := Some screenshot_b64;
                  ocr_results := None; ocr_event := false |} in
  let task := {| task_key := session_key; task_current_id := sid;
                 task_screenshot := screenshot_b64 |} in
  (with_tasks (ocr_tasks svc1 ++ [task])
     (with_sessions (<[session_key := cache]> (_sessions svc1)) svc1),
   sid).

(** What a [run_ocr] task does to its cache entry from the moment its
    [await] returns: [outcome] is the value of [self._ocr.analyze], [None]
    when it raised. Without [OCR_AVAILABLE] nothing is awaited. *)
Definition run_ocr_cache (t : OcrTask) (outcome : option (list OcrItem))
    (cache : SessionCache) : SessionCache :=
  let cache1 :=
    if OCR_AVAILABLE then
      match outcome with
      | Some results =>
          if decide (screenshot_id cache = Some (task_current_id t))
          then set_ocr_results (Some results) cache
          else cache
      | None => cache
      end
    else cache in
  set_ocr_event true cache1.

Definition run_ocr (t : OcrTask) (outcome : option (list OcrItem))
    (svc : GroundingService) : GroundingService :=
  with_sessions (alter (run_ocr_cache t outcome) (task_key t) (_sessions svc)) svc.

(** The [i]-th task in flight finishes with [outcome]. *)
Definition finish_task (i : nat) (outcome : option (list OcrItem))
    (svc : GroundingService) : GroundingService :=
  match ocr_tasks svc !! i with
  | Some t => run_ocr t outcome (with_tasks (delete i (ocr_tasks svc)) svc)
  | None => svc
  end.

(** [_ensure_vision] *)
Definition _ensure_vision (model_name : option string) (svc : GroundingService)
    : option (GroundingService * string) :=
  match _vision_model svc with
  | Some m => Some (svc, m)
  | None =>
      let resolved :=
        if truthy_opt model_name then default EmptyString model_name
        else "OpenGVLab/InternVL3_5-4B"%string in
      if model_loads resolved
      then Some (with_vision_model (Some resolved) svc, resolved)
      else None
  end.

(** ** The atomic steps of [resolve] *)

(** Lines 239 to 243: the entry is fetched and must hold a screenshot. *)
Definition resolve_enter (session_key : string) (svc : GroundingService)
    : GroundingService * (resolve_error + SessionCache) :=
  let svc1 := _get_session session_key svc in
  let cache := cache_of session_key svc1 in
  if negb (truthy_opt (screenshot_b64 cache)) || negb (truthy_opt (screenshot_id cache))
  then (svc1, inl NoScreenshot)
  else (svc1, inr cache).

(** Line 251, after its [await]: the on-demand result is stored. *)
Definition resolve_store (session_key : string) (results : list OcrItem)
    (svc : GroundingService) : GroundingService :=
  with_sessions (alter (set_ocr_results (Some results)) session_key (_sessions svc)) svc.

(** Lines 252 to 254. *)
Definition resolve_ocr_finish (session_key : string) (ocr_text : option string)
    (ocr_match_threshold : option float) (svc : GroundingService)
    : resolve_error + GroundingResult :=
  let cache := cache_of session_key svc in
  let threshold := default (float_of_decimal 8 1) ocr_match_threshold in
  match resolve_ocr_text ratio (default EmptyString
                                  (if truthy_opt ocr_text then ocr_text else None))
          (default [] (ocr_results cache)) threshold with
  | inl e => inl (OcrError e)
  | inr (x, y) =>
      inr {| screenshotId := default EmptyString (screenshot_id cache);
             result_x := x; result_y := y |}
  end.

(** The text branch from line 250 on, when no other coroutine runs during
    the [await] of line 251; [analyze] is the detector at that moment. *)
Definition resolve_ocr (analyze : string -> option (list OcrItem))
    (session_key : string) (ocr_text : option string)
    (ocr_match_threshold : option float) (svc : GroundingService)
    : GroundingService * (resolve_error + GroundingResult) :=
  let cache := cache_of session_key svc in
  match ocr_results cache with
  | Some _ => (svc, resolve_ocr_finish session_key ocr_text ocr_match_threshold svc)
  | None =>
      match analyze (default EmptyString (screenshot_b64 cache)) with
      | None => (svc, inl OcrUnavailable)
      | Some results =>
          let svc1 := resolve_store session_key results svc in
          (svc1, resolve_ocr_finish session_key ocr_text ocr_match_threshold svc1)
      end
  end.

(** The vision branch, lines 256 to 263. *)
Definition resolve_prediction (session_key : string) (description : option string)
    (model_name : option string) (svc : GroundingService)
    : GroundingService * (resolve_error + GroundingResult) :=
  if negb (truthy_opt description) then (svc, inl DescriptionRequired)
  else
    match _ensure_vision model_name svc with
    | None => (svc, inl VisionUnavailable)
    | Some (svc1, _) =>
        let cache := cache_of session_key svc1 in
        match _predict_sync enum image_open model_chat
                (default EmptyString (screenshot_b64 cache))
                (default EmptyString description) with
        | None => (svc1, inl VisionNotFound)
        | Some (x, y) =>
            (svc1, inr {| screenshotId := default EmptyString (screenshot_id cache);
                          result_x := x; result_y := y |})
        end
    end.

(** [resolve] run from its call to its return with no other coroutine in
    between. The waits on the readiness event change nothing, and an
    identifier [hint] that differs from the cached one only logs a
    warning. *)
Definition resolve (analyze : string -> option (list OcrItem))
    (session_key method : string) (ocr_text description hint : option string)
    (ocr_match_threshold : option float) (model_name : option string)
    (svc : GroundingService)
    : GroundingService * (resolve_error + GroundingResult) :=
  match resolve_enter session_key svc with
  | (svc1, inl e) => (svc1, inl e)
  | (svc1, inr _) =>
      if String.eqb method "ocr"
      then resolve_ocr analyze session_key ocr_text ocr_match_threshold svc1
      else if String.eqb method "prediction"
      then resolve_prediction session_key description model_name svc1
      else (svc1, inl UnknownMethod)
  end.

(** ** Schedules *)

(** What can happen to a service between two observations. *)
Inductive event : Type :=
| Ingest (session_key screenshot_b64 : string) (screenshot_id : option string)
| OcrDone (i : nat) (outcome : option (list OcrItem))
| Resolve (analyze : string -> option (list OcrItem))
    (session_key method : string) (ocr_text description hint : option string)
    (ocr_match_threshold : option float) (model_name : option string).

Definition step (svc : GroundingService) (e : event) : GroundingService :=
  match e with
  | Ingest k b sid => fst (ingest_screenshot k b sid svc)
  | OcrDone i outcome => finish_task i outcome svc
  | Resolve an k m t d h th mn => fst (resolve an k m t d h th mn svc)
  end.

Definition run (es : list event) (svc : GroundingService) : GroundingService :=
  fold_left step es svc.

(** ** Vocabulary of the properties *)

(** What a step of [resolve] on [session_key] may change between [svc] and
    [svc']: nothing but the detected regions of that session, and the
    creation of its blank entry. *)
Definition resolve_frame (session_key : string) (svc svc' : GroundingService)
    : Prop :=
  ocr_tasks svc' = ocr_tasks svc
  /\ (forall k, screenshot_id (cache_of k svc') = screenshot_id (cache_of k svc)
              /\ screenshot_b64 (cache_of k svc') = screenshot_b64 (cache_of k svc)
              /\ ocr_event (cache_of k svc') = ocr_event (cache_of k svc))
  /\ (forall k, k <> session_key -> _sessions svc' !! k = _sessions svc !! k)
  /\ (forall k, is_Some (_sessions svc !! k) -> is_Some (_sessions svc' !! k)).

(** A task in flight finishes, the detector being the function [analyze]. *)
Definition finish_det (analyze : string -> option (list OcrItem)) (i : nat)
    (svc : GroundingService) : GroundingService :=
  match ocr_tasks svc !! i with
  | Some t => finish_task i (analyze (task_screenshot t)) svc
  | None => svc
  end.

(** What may happen around the repeated ingestion of one image under one
    identifier: the image is ingested again, a task finishes, or a text
    is resolved. *)
Inductive idem_op : Type :=
| ReIngest
| Finish (i : nat)
| ResolveText (ocr_text : option string) (ocr_match_threshold : option float).

Definition idem_step (analyze : string -> option (list OcrItem))
    (session_key screenshot_b64 : string) (screenshot_id : option string)
    (svc : GroundingService) (op : idem_op) : GroundingService :=
  match op with
  | ReIngest => fst (ingest_screenshot session_key screenshot_b64 screenshot_id svc)
  | Finish i => finish_det analyze i svc
  | ResolveText t th =>
      fst (resolve analyze session_key "ocr" t None None th None svc)
  end.

(** The entry of [session_key] holds the image [img] under the identifier
    [sid], its regions, if any, are those of [img], and so will be the
    regions any task in flight can publish there. *)
Definition settled (analyze : string -> option (list OcrItem))
    (session_key img sid : string) (svc : GroundingService) : Prop :=
  is_Some (_sessions svc !! session_key)
  /\ screenshot_id (cache_of session_key svc) = Some sid
  /\ screenshot_b64 (cache_of session_key svc) = Some img
  /\ (ocr_results (cache_of session_key svc) = None
      \/ (is_Some (analyze img)
          /\ ocr_results (cache_of session_key svc) = analyze img))
  /\ (forall t, t ∈ ocr_tasks svc -> task_key t = session_key ->
         task_current_id t = sid -> task_screenshot t = img).

(** What a text resolution returns on the image [img] held under [sid]. *)
Definition expected_text_result (analyze : string -> option (list OcrItem))
    (img sid : string) (ocr_text : option string)
    (ocr_match_threshold : option float) : resolve_error + GroundingResult :=
  if negb (truthy img) || negb (truthy sid) then inl NoScreenshot
  else
    match analyze img with
    | None => inl OcrUnavailable
    | Some results =>
        match resolve_ocr_text ratio (default EmptyString ocr_text) results
                (default (float_of_decimal 8 1) ocr_match_threshold) with
        | inl e => inl (OcrError e)
        | inr (x, y) => inr {| screenshotId := sid; result_x := x; result_y := y |}
        end
    end.

End Server.
End Service.

(* ================================================================= *)
(** ** Stand-ins for the collaborators, for the examples *)

Module Examples.
Import Float64 PyStr OcrText.

Definition f1_0 : float := float_of_decimal 1 0.
Definition f0_8 : float := float_of_decimal 8 1.
Definition f0_79 : float := float_of_decimal 79 2.
Definition f0_81 : float := float_of_decimal 81 2.

(** A similarity that tells equal strings from different ones: 1.0 on two
    equal strings, as the library's ratio, and 0.0 otherwise. *)
Definition exact_ratio (a b : list ascii) : float :=
  if decide (a = b) then f1_0 else f0_0.

Definition submit_bbox : BBox :=
  {| bbox_x := 10; bbox_y := 20; bbox_width := 40; bbox_height := 10 |}.

Definition region (id text : string) (b : BBox) : OcrItem :=
  {| item_id := id; item_text := text;
     item_confidence := float_of_decimal 9 1; item_bbox := b |}.

Definition submit_region : OcrItem := region "0" "Submit" submit_bbox.

(** A region whose text is empty. *)
Definition blank_region : OcrItem := region "0" "" submit_bbox.

(** Stand-ins for the collaborators of the service. *)
Definition zeros64 : string :=
  "0000000000000000000000000000000000000000000000000000000000000000".
(** A digest of 64 characters: the text, cut or filled up with zeros. *)
Definition stub_sha256 (s : string) : string := prefix 64 (s +:+ zeros64).
Definition no_model (name : string) : bool := false.
Definition no_image (b64 : string) : option Tiling.Image := None.
Definition no_chat (tiles : list Tiling.Tile) (q : string) : option string := None.

Definition other_bbox : BBox :=
  {| bbox_x := 200; bbox_y := 300; bbox_width := 60; bbox_height := 20 |}.

(** The regions of the screenshot ["A"] and of the screenshot ["B"]: the
    same button at two places. *)
Definition regions_A : list OcrItem := [region "0" "Submit" submit_bbox].
Definition regions_B : list OcrItem := [region "0" "Submit" other_bbox].

(** A detector that knows the two screenshots. *)
Definition stub_analyze (b64 : string) : option (list OcrItem) :=
  if String.eqb b64 "A" then Some regions_A
  else if String.eqb b64 "B" then Some regions_B
  else Some [].

End Examples.

(* ================================================================= *)
(** ** Answers for the examples *)

Module AnswerExamples.

(** A box first, then two points. *)
Definition box_then_points : string := "[[1,2,3,4]] [[5,6]] [[7,8]]".

(** Two boxes and no point. *)
Definition two_boxes : string := "a [[10, 20, 30, 40]] b [[100,200,300,400.5]]".

End AnswerExamples.

(* ================================================================= *)
(** ** server.py: the detection engine

    The detector gives the corner points of its boxes as numbers of its
    own (floating point numbers of an array library). The embedding takes
    their type, their [<] and their [int()] as parameters. *)

Module OcrEngine.
Import Float64 PyStr OcrText.

Section Analyze.
Variable num : Type.
(** [a < b] *)
Variable num_lt : num -> num -> bool.
(** [int(a)]; [None] when it raises, as on a number that is not finite. *)
Variable to_int : num -> option Z.

(** What the engine returns, as far as [_analyze_sync] reads it: the
    attributes [txts], [scores] and [boxes], each [None] when the attribute
    is missing or is [None]. A box is [None] or a sequence of points. *)
Record RawResult : Type :=
  { txts : option (list string);
    scores : option (list (option float));
    boxes : option (list (option (list (num * num)))) }.

(** [min(xs)] and [max(xs)]: the first of the smallest, respectively of the
    largest, elements; [ValueError] on an empty sequence is [None]. *)
Definition py_min (xs : list num) : option num :=
  match xs with
  | [] => None
  | x :: rest => Some (fold_left (fun m y => if num_lt y m then y else m) rest x)
  end.

Definition py_max (xs : list num) : option num :=
  match xs with
  | [] => None
  | x :: rest => Some (fold_left (fun m y => if num_lt m y then y else m) rest x)
  end.

(** [(x1, y1, x2, y2)] of one box. *)
Definition box_bbox (box : list (num * num)) : option (Z * Z * Z * Z) :=
  let xs := map fst box in
  let ys := map snd box in
  x1 ← py_min xs ≫= to_int;
  y1 ← py_min ys ≫= to_int;
  x2 ← py_max xs ≫= to_int;
  y2 ← py_max ys ≫= to_int;
  Some (x1, y1, x2, y2).

(** The loop that fills [bbox_list]: a box that is [None] or has fewer than
    four points is passed over. *)
Fixpoint bbox_list (boxes : list (option (list (num * num))))
    : option (list (Z * Z * Z * Z)) :=
  match boxes with
  | [] => Some []
  | None :: rest => bbox_list rest
  | Some box :: rest =>
      if (length box <? 4)%nat then bbox_list rest
      else
        bb ← box_bbox box;
        l ← bbox_list rest;
        Some (bb :: l)
  end.

(** The boxes the loop keeps. *)
Definition kept_boxes (boxes : list (option (list (num * num))))
    : list (list (num * num)) :=
  omap (fun b => match b with
                 | Some box => if (length box <? 4)%nat then None else Some box
                 | None => None
                 end) boxes.

Definition f0_9 : float := float_of_decimal 9 1.

(** The dictionary appended for the [i]-th pair of [zip(texts, bbox_list)]. *)
Definition make_item (scores : list (option float)) (i : nat)
    (p : string * (Z * Z * Z * Z)) : OcrItem :=
  let '(text, (x1, y1, x2, y2)) := p in
  {| item_id := pretty i;
     item_text := string_of_list_ascii (strip (chars text));
     item_confidence :=
       match scores !! i with
       | Some (Some s) => s
       | _ => f0_9
       end;
     item_bbox := {| bbox_x := x1; bbox_y := y1;
                     bbox_width := x2 - x1; bbox_height := y2 - y1 |} |}.

(** [_analyze_sync] from the result of the engine on; [result] is [None]
    when the engine returned [None] or an object without [txts]. An
    exception is [None]. *)
Definition _analyze_sync (result : option RawResult) : option (list OcrItem) :=
  match result with
  | None => Some []
  | Some r =>
      let texts := default [] (txts r) in
      let scores := default [] (scores r) in
      let boxes := default [] (boxes r) in
      l ← bbox_list boxes;
      Some (imap (make_item scores) (zip texts l))
  end.

(** [OcrEngine.analyze]: [engine] is [self._engine], a function from the
    encoded image to the result of the engine, [None] when the decoding or
    the engine raises. *)
Definition analyze (engine : option (string -> option (option RawResult)))
    (screenshot_b64 : string) : option (list OcrItem) :=
  match engine with
  | None => None
  | Some call => call screenshot_b64 ≫= _analyze_sync
  end.

End Analyze.

(** [OcrEngine._init]: no engine without the dependency; otherwise the
    engine on the graphics processor and, when that raises, the one on the
    central processor. [rapidocr use_cuda] is [None] when the constructor
    raises; the result is [(self._engine, self._use_cuda)]. *)
Definition _init {E : Type} (OCR_AVAILABLE : bool) (rapidocr : bool -> option E)
    : option (option E * bool) :=
  if negb OCR_AVAILABLE then Some (None, false)
  else
    match rapidocr true with
    | Some e => Some (Some e, true)
    | None =>
        match rapidocr false with
        | Some e => Some (Some e, false)
        | None => None
        end
    end.

(** The box [b] encloses the point [(x, y)]. *)
Definition encloses (b : BBox) (x y : Z) : Prop :=
  bbox_x b <= x <= bbox_x b + bbox_width b
  /\ bbox_y b <= y <= bbox_y b + bbox_height b.

End OcrEngine.

(* ================================================================= *)
(** ** server.py: the protocol and the main loop

    A request is a value as [json.loads] builds it. The handlers are
    functions on a state of any type: they take the keyword arguments and
    return a value or raise an exception, given by its message. *)

Module JsonRpc.
Import Float64 PyStr.

#[warnings="-register-all"]
Inductive json : Type :=
| JNull
| JBool (b : bool)
| JInt (n : Z)
| JFloat (x : float)
| JStr (s : string)
| JArr (l : list json)
| JObj (kv : list (string * json)).

(** [d.get(key)] on a dictionary given by its items, whose keys are
    distinct; [None] is [JNull]. *)
Fixpoint dict_get (key : string) (kv : list (string * json)) : json :=
  match kv with
  | [] => JNull
  | (k, v) :: rest => if String.eqb k key then v else dict_get key rest
  end.

(** The truth value of a value. *)
Definition truthy_json (v : json) : bool :=
  match v with
  | JNull => false
  | JBool b => b
  | JInt n => negb (n =? 0)
  | JFloat x => negb (feq x f0_0)
  | JStr s => truthy s
  | JArr l => match l with [] => false | _ => true end
  | JObj kv => match kv with [] => false | _ => true end
  end.

(** [v == "2.0"] *)
Definition is_version_2 (v : json) : bool :=
  match v with
  | JStr s => String.eqb s "2.0"
  | _ => false
  end.

(** The exceptions that leave [handle]. *)
Inductive fault : Type :=
| AttributeError
| TypeError.

Inductive body : Type :=
| Result (result : json)
| Error (code : Z) (message : string).

(** A response: the keys ["jsonrpc"] and ["id"], and ["result"] or
    ["error"]. *)
Record response : Type :=
  { resp_jsonrpc : string; resp_id : json; resp_body : body }.

Definition _error (request_id : json) (code : Z) (message : string) : response :=
  {| resp_jsonrpc := "2.0"; resp_id := request_id; resp_body := Error code message |}.

Section Protocol.
Variable State : Type.
(** [str(x)] for a [float]. *)
Variable float_repr : float -> string.

(** A registered handler, called with the items of [params] as its keyword
    arguments. *)
Definition handler : Type := list (string * json) -> State -> State * (string + json).

Definition register_method (name : string) (h : handler)
    (methods : gmap string handler) : gmap string handler :=
  <[name := h]> methods.

(** [self.methods.get(method)]: a list or a dictionary cannot be hashed,
    and no other value than a string equals a registered name. *)
Definition methods_get (methods : gmap string handler) (method : json)
    : fault + option handler :=
  match method with
  | JArr _ | JObj _ => inl TypeError
  | JStr name => inr (methods !! name)
  | _ => inr None
  end.

(** [f"{method}"] for a value that can be hashed. *)
Definition method_str (method : json) : string :=
  match method with
  | JStr s => s
  | JBool b => if b then "True" else "False"
  | JInt n => pretty n
  | JFloat x => float_repr x
  | _ => "None"
  end.

(** [handle]: the state after the call, and the response, or the exception
    that leaves the method. *)
Definition handle (methods : gmap string handler) (payload : json) (st : State)
    : State * (fault + response) :=
  match payload with
  | JObj kv =>
      let request_id := dict_get "id" kv in
      if negb (is_version_2 (dict_get "jsonrpc" kv))
      then (st, inr (_error request_id (-32600) "Invalid JSON-RPC version"))
      else
        let method := dict_get "method" kv in
        if negb (truthy_json method)
        then (st, inr (_error request_id (-32600) "Method required"))
        else
          match methods_get methods method with
          | inl f => (st, inl f)
          | inr None =>
              (st, inr (_error request_id (-32601)
                          ("Method not found: " +:+ method_str method)))
          | inr (Some h) =>
              let given := dict_get "params" kv in
              let params := if truthy_json given then given else JObj [] in
              match params with
              | JObj args =>
                  match h args st with
                  | (st', inr result) =>
                      (st', inr {| resp_jsonrpc := "2.0"; resp_id := request_id;
                                   resp_body := Result result |})
                  | (st', inl message) =>
                      (st', inr (_error request_id (-32603) message))
                  end
              | _ => (st, inr (_error request_id (-32602) "Params must be an object"))
              end
          end
  | _ => (st, inl AttributeError)
  end.

(** ** The main loop *)

(** What [json.loads] does with a line: it returns a value, raises
    [JSONDecodeError], or raises another exception ([RecursionError] on a
    nesting too deep, [ValueError] on an integer of too many digits). *)
Inductive loaded : Type :=
| Loaded (payload : json)
| JSONDecodeError
| OtherError.

Variable json_loads : string -> loaded.
(** [rpc.send] in the [n]-th turn of the loop: [json.dumps], the encoding
    in UTF-8 and the writing to the standard output; [false] when one of
    them raises (a result that cannot be serialised, a lone surrogate in a
    string, an output that is closed). *)
Variable send : nat -> response -> bool.
(** What the other tasks of the event loop do to the state while the loop
    awaits its [n]-th line. *)
Variable background : nat -> State -> State.

(** How the loop ends: at the end of the input, or by an exception, which
    leaves [readline], [json.loads], [handle] or [send]. *)
Inductive exit : Type :=
| EndOfInput
| ReadlineRaised
| LoadsRaised
| Raised (f : fault)
| SendRaised.

(** The loop of [main] from its [n]-th turn on. [lines] are the results of
    [readline] on the standard input, [None] when it raises (bytes that
    cannot be decoded); after them, and at an empty string, the input is
    at its end. The result is the final state, the responses sent, in
    order, and the way the loop ends. *)
Fixpoint main_loop (methods : gmap string handler) (n : nat)
    (lines : list (option string)) (st : State) : State * list response * exit :=
  match lines with
  | [] => (background n st, [], EndOfInput)
  | None :: _ => (background n st, [], ReadlineRaised)
  | Some line :: rest =>
      let st1 := background n st in
      if negb (truthy line) then (st1, [], EndOfInput)
      else
        match strip (chars line) with
        | [] => main_loop methods (S n) rest st1
        | c :: cs =>
            match json_loads (string_of_list_ascii (c :: cs)) with
            | JSONDecodeError =>
                let r := _error JNull (-32700) "Parse error" in
                if send n r then
                  let '(st2, out, e) := main_loop methods (S n) rest st1 in
                  (st2, r :: out, e)
                else (st1, [], SendRaised)
            | OtherError => (st1, [], LoadsRaised)
            | Loaded payload =>
                match handle methods payload st1 with
                | (st2, inl f) => (st2, [], Raised f)
                | (st2, inr r) =>
                    if send n r then
                      let '(st3, out, e) := main_loop methods (S n) rest st2 in
                      (st3, r :: out, e)
                    else (st2, [], SendRaised)
                end
            end
        end
  end.

(** [main]: the three methods of the service are registered, then the loop
    runs. The handlers are the bound methods of the service. *)
Definition main (status ingest_screenshot resolve : handler)
    (lines : list (option string)) (st : State) : State * list response * exit :=
  main_loop
    (register_method "resolve" resolve
       (register_method "ingest_screenshot" ingest_screenshot
          (register_method "status" status ∅)))
    0 lines st.

(** A line that holds something else than white space. *)
Definition is_request (line : string) : bool :=
  match strip (chars line) with [] => false | _ => true end.

(** The lines read before the end of the input, or before [readline]
    raises. *)
Fixpoint lines_read (lines : list (option string)) : list string :=
  match lines with
  | Some line :: rest => if truthy line then line :: lines_read rest else []
  | _ => []
  end.

(** Whether [readline] raises before the end of the input. *)
Fixpoint readline_raises (lines : list (option string)) : bool :=
  match lines with
  | [] => false
  | None :: _ => true
  | Some line :: rest => if truthy line then readline_raises rest else false
  end.

(** The response the loop owes to a line: the parse error when
    [json.loads] raises [JSONDecodeError], what [handle] returns for the
    request of the line otherwise. *)
Definition answers (methods : gmap string handler) (line : string) (r : response)
    : Prop :=
  match json_loads (string_of_list_ascii (strip (chars line))) with
  | JSONDecodeError => r = _error JNull (-32700) "Parse error"
  | Loaded payload => exists st, snd (handle methods payload st) = inr r
  | OtherError => False
  end.

(** A request that makes [handle] raise: not a dictionary, or with a
    non-empty list or dictionary as its method under version 2.0. *)
Definition raises (payload : json) : bool :=
  match payload with
  | JObj kv =>
      is_version_2 (dict_get "jsonrpc" kv)
      && match dict_get "method" kv with
         | JArr (_ :: _) | JObj (_ :: _) => true
         | _ => false
         end
  | _ => true
  end.

End Protocol.
End JsonRpc.

(* ================================================================= *)
(** ** vision_internvl.py: from the images to the answer of the model *)

Module VisionFull.
Import Float64 PyStr Coordinates Tiling Vision.

Section Predict.
Variable enum : list (Z * Z).
Variable image_open : string -> option Image.
(** [self.model.chat] without and with [num_patches_list]. *)
Variable model_chat : list Tile -> string -> option string.
Variable model_chat_patches : list Tile -> string -> list nat -> option string.

(** [_images_to_pixel_values] for [max_num = 12]: the tiles of all the
    images in one sequence, [None] when there is no image, and the number
    of tiles of each image. The transform acts on each tile by itself and
    is left out. *)
Definition _images_to_pixel_values (images : list Image) (input_size : Z)
    : option (option (list Tile) * list nat) :=
  per_image ← mapM (fun img => _dynamic_preprocess enum img input_size true) images;
  match per_image with
  | [] => Some (None, [])
  | _ => Some (Some (concat per_image), map length per_image)
  end.

(** [_predict_sync] with the two calls of the model it holds. *)
Definition _predict_sync_full (image_b64 instruction : string) : option (Z * Z) :=
  image ← image_open image_b64;
  r ← _images_to_pixel_values [image] 448;
  match fst r with
  | None => None
  | Some pixel_values =>
      output_text ←
        (if (1 <? length (snd r))%nat
         then model_chat_patches pixel_values (question instruction) (snd r)
         else model_chat pixel_values (question instruction));
      point ← answer_point output_text;
      scale_norm_to_pixels (fst point) (snd point) (img_width image) (img_height image)
  end.

End Predict.
End VisionFull.

(* ================================================================= *)
(** ** server.py: the service under a schedule *)

Module Schedules.
Import Float64 PyStr OcrText Coordinates Tiling Vision Service.

(** The dictionary [status] returns. *)
Record Status : Type := { ok : bool; ocr_available : bool; vision_loaded : bool }.

Definition status (OCR_AVAILABLE : bool) (svc : GroundingService) : Status :=
  {| ok := true; ocr_available := OCR_AVAILABLE;
     vision_loaded := match _vision_model svc with Some _ => true | None => false end |}.

(** The image and the identifier given to the last ingestion for
    [session_key] among the events [es]. *)
Definition last_ingest (session_key : string) (es : list event)
    : option (string * option string) :=
  fold_left (fun acc e =>
               match e with
               | Ingest k b sid => if decide (k = session_key) then Some (b, sid) else acc
               | _ => acc
               end) es None.

(** The session an event acts on in the state [svc]; none for the end of a
    task that is not in flight. *)
Definition event_session (svc : GroundingService) (e : event) : option string :=
  match e with
  | Ingest k _ _ => Some k
  | OcrDone i _ => task_key <$> ocr_tasks svc !! i
  | Resolve _ k _ _ _ _ _ _ => Some k
  end.

(** An entry whose readiness flag is down holds no image or has a task in
    flight. *)
Definition ready_or_pending (svc : GroundingService) : Prop :=
  forall k c, _sessions svc !! k = Some c -> ocr_event c = false ->
    screenshot_b64 c = None \/ exists t, t ∈ ocr_tasks svc /\ task_key t = k.

(** Every task in flight belongs to a session of the store. *)
Definition tasks_have_sessions (svc : GroundingService) : Prop :=
  forall t, t ∈ ocr_tasks svc -> is_Some (_sessions svc !! task_key t).

Section Server.
Variable sha256_hexdigest : string -> string.
Variable OCR_AVAILABLE : bool.
Variable ratio : list ascii -> list ascii -> float.
Variable model_loads : string -> bool.
Variable enum : list (Z * Z).
Variable image_open : string -> option Image.
Variable model_chat : list Tile -> string -> option string.

(** The other coroutines run the events [es]. *)
Definition others (es : list event) (svc : GroundingService) : GroundingService :=
  run sha256_hexdigest OCR_AVAILABLE ratio model_loads enum image_open model_chat es svc.

(** The text branch from line 250 on, the other coroutines running
    [detecting] during the [await] of line 251. The image handed to the
    detector is read before the [await], the entry is written after it. *)
Definition resolve_ocr_during (analyze : string -> option (list OcrItem))
    (detecting : list event) (session_key : string) (ocr_text : option string)
    (ocr_match_threshold : option float) (svc : GroundingService)
    : GroundingService * (resolve_error + GroundingResult) :=
  let cache := cache_of session_key svc in
  match ocr_results cache with
  | Some _ => (svc, resolve_ocr_finish ratio session_key ocr_text ocr_match_threshold svc)
  | None =>
      match analyze (default EmptyString (screenshot_b64 cache)) with
      | None => (others detecting svc, inl OcrUnavailable)
      | Some results =>
          let svc1 := resolve_store session_key results (others detecting svc) in
          (svc1, resolve_ocr_finish ratio session_key ocr_text ocr_match_threshold svc1)
      end
  end.

(** The vision branch, the other coroutines running [predicting] during
    the [await] of line 259. *)
Definition resolve_prediction_during (predicting : list event)
    (session_key : string) (description model_name : option string)
    (svc : GroundingService)
    : GroundingService * (resolve_error + GroundingResult) :=
  if negb (truthy_opt description) then (svc, inl DescriptionRequired)
  else
    match _ensure_vision model_loads model_name svc with
    | None => (svc, inl VisionUnavailable)
    | Some (svc1, _) =>
        let image := default EmptyString (screenshot_b64 (cache_of session_key svc1)) in
        let svc2 := others predicting svc1 in
        match _predict_sync enum image_open model_chat image
                (default EmptyString description) with
        | None => (svc2, inl VisionNotFound)
        | Some (x, y) =>
            (svc2, inr {| screenshotId :=
                            default EmptyString (screenshot_id (cache_of session_key svc2));
                          result_x := x; result_y := y |})
        end
    end.

(** [resolve] with what the other coroutines do at its three [await]s:
    [waiting] during the wait for the readiness event of line 247, and
    [working] during the detection or the prediction. *)
Definition resolve_during (analyze : string -> option (list OcrItem))
    (waiting working : list event)
    (session_key method : string) (ocr_text description hint : option string)
    (ocr_match_threshold : option float) (model_name : option string)
    (svc : GroundingService)
    : GroundingService * (resolve_error + GroundingResult) :=
  match resolve_enter session_key svc with
  | (svc1, inl e) => (svc1, inl e)
  | (svc1, inr _) =>
      if String.eqb method "ocr"
      then resolve_ocr_during analyze working session_key ocr_text
             ocr_match_threshold (others waiting svc1)
      else if String.eqb method "prediction"
      then resolve_prediction_during working session_key description model_name svc1
      else (svc1, inl UnknownMethod)
  end.

(** The entry of [k] in [svc] holds what [acc] says: the image and the
    identifier of an ingestion, or, for [None], what it held in [svc0]. *)
Definition entry_holds (k : string) (acc : option (string * option string))
    (svc0 svc : GroundingService) : Prop :=
  match acc with
  | Some (b, sid) =>
      screenshot_b64 (cache_of k svc) = Some b
      /\ screenshot_id (cache_of k svc) = Some (ingest_id sha256_hexdigest b sid)
  | None =>
      screenshot_b64 (cache_of k svc) = screenshot_b64 (cache_of k svc0)
      /\ screenshot_id (cache_of k svc) = screenshot_id (cache_of k svc0)
  end.

End Server.
End Schedules.

(* ================================================================= *)
(** ** Pixels and tiles *)

Module Pixels.
Import Tiling.

(** The pixel [(px, py)] lies in the crop box [b]: the left and the upper
    edge belong to the box, the right and the lower edge do not. *)
Definition inside (b : Box) (px py : Z) : Prop :=
  box_left b <= px < box_right b /\ box_upper b <= py < box_lower b.

Definition is_thumbnail (t : Tile) : bool :=
  match t with
  | Thumbnail _ => true
  | Crop _ _ => false
  end.

End Pixels.

(* ================================================================= *)
(** ** The sign of a number *)

Module Sign.
Import Float64.

(** The number is [0.0], a positive number or the positive infinity: not
    a NaN, not negative and not [-0.0]. *)
Definition is_nonneg (x : float) : bool :=
  match x with
  | S754_zero false | S754_infinity false | S754_finite false _ _ => true
  | _ => false
  end.

End Sign.

(* ================================================================= *)
(** ** Scaling in exact arithmetic *)

Module ScaleExact.
Import Float64 Coordinates.

(** The pixel coordinate of a whole normalised coordinate when the
    quotient and the product are not rounded:
    [floor(norm / 1000 * dimension)], clamped to [[0, dimension - 1]]. *)
Definition floor_clamp (norm dim : Z) : Z :=
  Z.max 0 (Z.min (dim - 1) (norm * dim / 1000)).

(** The normalised coordinate read from the text of the whole number
    [n]. *)
Definition norm_of (n : Z) : float := float_of_decimal (Z.to_N n) 0.

(** The whole numbers from [a] on, [k] of them. *)
Definition zrange (a : Z) (k : nat) : list Z :=
  map (fun i => a + Z.of_nat i) (seq 0 k).

(** Sides of images: those of the examples and of common screens. *)
Definition sides : list Z :=
  [100; 768; 800; 1000; 1080; 1366; 1440; 1920; 2160; 2560; 3840].

(** The pixel computed for [n] on a side [dim] is the one of exact
    arithmetic, or the one below it when [n * dim] is a multiple of 1000. *)
Definition near_exact (dim n : Z) : bool :=
  match scale_axis (norm_of n) dim with
  | Some px =>
      (px =? floor_clamp n dim)
      || ((px =? floor_clamp n dim - 1) && (n * dim mod 1000 =? 0))
  | None => false
  end.

(** The pixel computed for [n] on a side [dim] is not the one of exact
    arithmetic. *)
Definition below_exact (dim n : Z) : bool :=
  match scale_axis (norm_of n) dim with
  | Some px => negb (px =? floor_clamp n dim)
  | None => true
  end.

End ScaleExact.

(* ================================================================= *)
(** ** The tie test in exact arithmetic *)

Module TieRule.
Import Float64 Tiling.

(** The float [x] is exactly [c / 2], for a whole number [c]. *)
Definition is_half_of (c : Z) (x : float) : bool :=
  match x with
  | S754_zero _ => c =? 0
  | S754_finite false m e =>
      if 0 <=? e then 2 * (Zpos m * 2 ^ e) =? c else 2 * Zpos m =? c * 2 ^ (- e)
  | _ => false
  end.

(** The bound of the tie test is computed without rounding. *)
Definition half_exact (image_size : Z) (ratio : Z * Z) : bool :=
  match half_tile_area image_size ratio with
  | Some x => is_half_of (image_size * image_size * fst ratio * snd ratio) x
  | None => false
  end.

(** [area > 0.5 * image_size * image_size * cols * rows] on whole
    numbers. *)
Definition area_exceeds_half (area image_size cols rows : Z) : bool :=
  image_size * image_size * cols * rows <? 2 * area.

(** The tie test read as a test on the grid alone: the total area of its
    tiles, [image_size^2 * cols * rows], exceeds half of
    [image_size^2 * cols * rows]. *)
Definition grid_area_exceeds_half (image_size : Z) (ratio : Z * Z) : bool :=
  area_exceeds_half (image_size * image_size * fst ratio * snd ratio)
    image_size (fst ratio) (snd ratio).

(** Two square images: a large one and a small one. *)
Definition image_2000_2000 : Image := {| img_width := 2000; img_height := 2000 |}.
Definition image_100_100 : Image := {| img_width := 100; img_height := 100 |}.

End TieRule.

(* ================================================================= *)
(** ** The inference lock *)

Module Inference.

(** A call of [predict_click_coordinates], by its number. *)
Definition call : Type := nat.

(** What is observed of a call: it is made, its [_predict_sync] begins in
    the executor and ends there, and the call returns. *)
Inductive obs : Type :=
| Called (c : call)
| Began (c : call)
| Ended (c : call)
| Returned (c : call).

(** [asyncio.Lock]: the flag and the queue of the futures of the calls
    that wait, first come first, each with whether it has its result. *)
Record Lock : Type := { _locked : bool; _waiters : list (call * bool) }.

(** The model of the vision model as far as the lock goes: the wall clock,
    [self._inference_lock], the calls whose [_predict_sync] runs in a
    thread of the executor, those whose [_predict_sync] has returned and
    whose [await] has not yet, and the observations with their times. *)
Record state : Type :=
  { now : Z;
    _inference_lock : Lock;
    executing : list call;
    finished : list call;
    log : list (Z * obs) }.

(** [BaseVisionModel.__init__]: a new lock, free and without waiters. *)
Definition init : state :=
  {| now := 0; _inference_lock := {| _locked := false; _waiters := [] |};
     executing := []; finished := []; log := [] |}.

(** [Lock._wake_up_first]: the first future of the queue gets its
    result. *)
Definition _wake_up_first (l : Lock) : Lock :=
  match _waiters l with
  | [] => l
  | (c, _) :: rest => {| _locked := _locked l; _waiters := (c, true) :: rest |}
  end.

(** [Lock.release], called by the holder at the end of [async with]. *)
Definition release (l : Lock) : Lock :=
  if _locked l
  then _wake_up_first {| _locked := false; _waiters := _waiters l |}
  else l.

(** [Lock.acquire] up to its [await]: the lock is taken at once, [true],
    when it is free and no call waits; otherwise the future of the call
    joins the queue. No future is cancelled. *)
Definition acquire (c : call) (l : Lock) : Lock * bool :=
  if negb (_locked l) && match _waiters l with [] => true | _ => false end
  then ({| _locked := true; _waiters := _waiters l |}, true)
  else ({| _locked := _locked l; _waiters := _waiters l ++ [(c, false)] |}, false).

(** [self._waiters.remove(fut)] *)
Fixpoint remove_waiter (c : call) (ws : list (call * bool)) : list (call * bool) :=
  match ws with
  | [] => []
  | w :: rest => if Nat.eqb (fst w) c then rest else w :: remove_waiter c rest
  end.

(** [Lock.acquire] after its [await]: the call leaves the queue and takes
    the lock. *)
Definition acquire_resume (c : call) (l : Lock) : Lock :=
  {| _locked := true; _waiters := remove_waiter c (_waiters l) |}.

Definition observe (o : obs) (st : state) : state :=
  {| now := now st; _inference_lock := _inference_lock st;
     executing := executing st; finished := finished st;
     log := log st ++ [(now st, o)] |}.

Definition with_lock (l : Lock) (st : state) : state :=
  {| now := now st; _inference_lock := l;
     executing := executing st; finished := finished st; log := log st |}.

(** [loop.run_in_executor(None, self._predict_sync, ...)]: the job is
    handed to a thread of the executor, where it begins. *)
Definition run_in_executor (c : call) (st : state) : state :=
  observe (Began c)
    {| now := now st; _inference_lock := _inference_lock st;
       executing := executing st ++ [c]; finished := finished st; log := log st |}.

(** [predict_click_coordinates] from the call to its first suspension:
    with the lock taken at once the job is submitted, otherwise the call
    waits in [acquire]. *)
Definition predict_enter (c : call) (st : state) : state :=
  let st1 := observe (Called c) st in
  let '(l, taken) := acquire c (_inference_lock st1) in
  if taken then run_in_executor c (with_lock l st1) else with_lock l st1.

(** [predict_click_coordinates] when the future of the call in [acquire]
    has its result: the lock is taken and the job is submitted. *)
Definition predict_resume (c : call) (st : state) : state :=
  run_in_executor c (with_lock (acquire_resume c (_inference_lock st)) st).

(** [_predict_sync] returns in its thread. *)
Definition job_done (c : call) (st : state) : state :=
  observe (Ended c)
    {| now := now st; _inference_lock := _inference_lock st;
       executing := List.filter (fun c' => negb (Nat.eqb c' c)) (executing st);
       finished := finished st ++ [c]; log := log st |}.

(** [predict_click_coordinates] when the [await] of the job returns: the
    block of [async with] ends, the lock is released and the call
    returns. *)
Definition predict_return (c : call) (st : state) : state :=
  observe (Returned c)
    {| now := now st; _inference_lock := release (_inference_lock st);
       executing := executing st;
       finished := List.filter (fun c' => negb (Nat.eqb c' c)) (finished st);
       log := log st |}.

(** What the event loop and the executor may do next. *)
Inductive event : Type :=
| Enter (c : call)
| Resume (c : call)
| JobDone (c : call)
| Return (c : call).

Definition called_of (x : Z * obs) : option call :=
  match snd x with Called c => Some c | _ => None end.

Definition began_of (x : Z * obs) : option call :=
  match snd x with Began c => Some c | _ => None end.

(** The calls made, and the calls whose job began, in the order of time. *)
Definition called (l : list (Z * obs)) : list call := omap called_of l.
Definition begun (l : list (Z * obs)) : list call := omap began_of l.

(** The clock advances by [d]. *)
Definition tick (d : N) (st : state) : state :=
  {| now := now st + Z.of_N d; _inference_lock := _inference_lock st;
     executing := executing st; finished := finished st; log := log st |}.

(** One step, after a time [d]: a call that was not made before is made;
    a call goes on in [acquire] when its future has its result; a job that
    runs ends; a call whose job has ended returns. A step that cannot
    happen in the state leaves it as it is. *)
Definition step (st : state) (ev : N * event) : state :=
  let st := tick (fst ev) st in
  match snd ev with
  | Enter c =>
      if bool_decide (c ∈ called (log st)) then st else predict_enter c st
  | Resume c =>
      if bool_decide ((c, true) ∈ _waiters (_inference_lock st))
      then predict_resume c st else st
  | JobDone c =>
      if bool_decide (c ∈ executing st) then job_done c st else st
  | Return c =>
      if bool_decide (c ∈ finished st) then predict_return c st else st
  end.

Definition run (schedule : list (N * event)) : state :=
  fold_left step schedule init.

(** What every state reached keeps. *)
Definition serial_inv (st : state) : Prop :=
  let lk := _inference_lock st in
  let l := log st in
  length (executing st ++ finished st) = (if _locked lk then 1 else 0)%nat
  /\ (forall c, (c, true) ∈ _waiters lk ->
        _locked lk = false
        /\ exists rest, _waiters lk = (c, true) :: rest
                        /\ forall c', (c', true) ∉ rest)
  /\ NoDup (called l)
  /\ begun l ++ map fst (_waiters lk) = called l
  /\ (forall c, c ∈ executing st ++ finished st -> c ∈ begun l)
  /\ (forall c t, (t, Ended c) ∈ l -> c ∈ begun l /\ c ∉ executing st)
  /\ (forall c t, (t, Returned c) ∈ l ->
        c ∈ begun l /\ c ∉ executing st ++ finished st)
  /\ (forall t o, (t, o) ∈ l -> t <= now st)
  /\ (forall c a b, (a, Called c) ∈ l -> (b, Began c) ∈ l -> a <= b)
  /\ (forall c b e, (b, Began c) ∈ l -> (e, Ended c) ∈ l -> b <= e)
  /\ (forall c e r, (e, Ended c) ∈ l -> (r, Returned c) ∈ l -> e <= r)
  /\ (forall c b c' e', c ∈ executing st ++ finished st ->
        (b, Began c) ∈ l -> (e', Ended c') ∈ l -> c' <> c -> e' <= b)
  /\ (forall c1 c2 b1 e1 b2 e2, c1 <> c2 ->
        (b1, Began c1) ∈ l -> (e1, Ended c1) ∈ l ->
        (b2, Began c2) ∈ l -> (e2, Ended c2) ∈ l ->
        e1 <= b2 \/ e2 <= b1).

(** Two calls made while no job runs, the second while the first holds
    the lock. *)
Definition two_calls : list (N * event) :=
  [(0%N, Enter 1%nat); (1%N, Enter 2%nat); (5%N, JobDone 1%nat);
   (1%N, Return 1%nat); (0%N, Resume 2%nat); (7%N, JobDone 2%nat);
   (1%N, Return 2%nat)].

End Inference.

(* ################################################################# *)
(** * Part II: lemmas and theorems *)

(* ================================================================= *)
(** ** The order of binary64 numbers *)

Module Float64Facts.
Import Float64.

Ltac float_cases :=
  repeat match goal with
         | x : spec_float |- _ => destruct x as [[]|[]| |[] ? ?]
         end.

Ltac cmp_cases :=
  repeat match goal with
         | |- context [Z.compare ?a ?b] => destruct (Z.compare_spec a b)
         | H : context [Z.compare ?a ?b] |- _ => destruct (Z.compare_spec a b)
         | |- context [Pos.compare ?a ?b] => destruct (Pos.compare_spec a b)
         | H : context [Pos.compare ?a ?b] |- _ => destruct (Pos.compare_spec a b)
         end.

Ltac float_order :=
  unfold flt, feq, fle, SFltb, SFeqb, SFleb, SFcompare in *;
  rewrite ?Pos.compare_cont_spec in *; simpl in *;
  cmp_cases; simpl in *; subst; try congruence; try lia.

Lemma flt_trans x y z : flt x y = true -> flt y z = true -> flt x z = true.
Proof. float_cases; float_order. Qed.

Lemma flt_irrefl x : flt x x = false.
Proof. float_cases; float_order. Qed.

Lemma feq_refl x : is_nan x = false -> feq x x = true.
Proof. float_cases; simpl; intros; float_order. Qed.

Lemma feq_sym x y : feq x y = true -> feq y x = true.
Proof. float_cases; float_order. Qed.

Lemma feq_trans x y z : feq x y = true -> feq y z = true -> feq x z = true.
Proof. float_cases; float_order. Qed.

Lemma flt_not_nan_l x y : flt x y = true -> is_nan x = false.
Proof. float_cases; float_order. Qed.

Lemma flt_feq_r x y z : flt x y = true -> feq y z = true -> flt x z = true.
Proof. float_cases; float_order. Qed.

Lemma flt_feq_l x y z : flt x y = true -> feq x z = true -> flt z y = true.
Proof. float_cases; float_order. Qed.

Lemma flt_feq_false x y : feq x y = true -> flt x y = false.
Proof. float_cases; float_order. Qed.

Lemma not_flt_infinity x :
  flt x pos_infinity = false -> x = pos_infinity \/ x = S754_nan.
Proof. unfold pos_infinity. float_cases; float_order; auto. Qed.

Lemma fle_flt_trans x y z : fle x y = true -> flt y z = true -> flt x z = true.
Proof. float_cases; float_order. Qed.

(** On numbers that are not NaN, [<=] is the negation of [>]. *)
Lemma fle_not_flt x y :
  is_nan x = false -> is_nan y = false -> fle x y = negb (flt y x).
Proof. float_cases; simpl; intros; float_order. Qed.

Lemma flt_total x y :
  is_nan x = false -> is_nan y = false ->
  flt x y = true \/ feq x y = true \/ flt y x = true.
Proof. float_cases; simpl; intros; float_order; auto. Qed.

End Float64Facts.

(* ================================================================= *)
(** ** Scaling normalised coordinates to pixels *)

Module ScaleFacts.
Import Float64 Coordinates ScaleExact.

Lemma scale_axis_eq norm dim d fx :
  float_of_int dim = Some d ->
  floor (fmul (fdiv norm f1000_0) d) = Some fx ->
  scale_axis norm dim = Some (Z.max 0 (Z.min (dim - 1) fx)).
Proof. intros Hd Hf. unfold scale_axis. now rewrite Hd, Hf. Qed.

Lemma clamp_range dim v : 0 < dim -> 0 <= Z.max 0 (Z.min (dim - 1) v) <= dim - 1.
Proof. lia. Qed.

Lemma clamp_id dim v : 0 <= v <= dim - 1 -> Z.max 0 (Z.min (dim - 1) v) = v.
Proof. lia. Qed.

(** An axis fails exactly when the conversion of the dimension or the
    floor of the product raises. *)
Lemma scale_axis_none norm dim :
  scale_axis norm dim = None <->
  float_of_int dim = None \/
  exists d, float_of_int dim = Some d /\ floor (fmul (fdiv norm f1000_0) d) = None.
Proof.
  unfold scale_axis. destruct (float_of_int dim) as [d|]; [|intuition].
  destruct (floor _) eqn:Hf.
  - split; [discriminate|]. intros [H|(d' & H & H')]; [discriminate|].
    injection H as <-. congruence.
  - split; [|reflexivity]. intros _. right. exists d. auto.
Qed.

(** An axis returns exactly the clamped floor of the binary64 product. *)
Lemma scale_axis_some norm dim px :
  scale_axis norm dim = Some px <->
  exists d f, float_of_int dim = Some d
              /\ floor (fmul (fdiv norm f1000_0) d) = Some f
              /\ px = Z.max 0 (Z.min (dim - 1) f).
Proof.
  unfold scale_axis. destruct (float_of_int dim) as [d|].
  - destruct (floor _) as [f|] eqn:Hf.
    + split.
      * intros [= <-]. exists d, f. auto.
      * intros (d' & f' & [= <-] & Hf' & ->). rewrite Hf in Hf'.
        now injection Hf' as <-.
    + split; [discriminate|]. intros (d' & f' & [= <-] & Hf' & _). congruence.
  - split; [discriminate|]. intros (d' & f' & H & _). discriminate.
Qed.

Lemma zrange_elem a k n : a <= n < a + Z.of_nat k -> In n (zrange a k).
Proof.
  intros H. unfold zrange. apply in_map_iff. exists (Z.to_nat (n - a)).
  split; [lia|]. apply in_seq. lia.
Qed.

(** *** Whole coordinates on the sides of the table *)

Lemma near_exact_sides :
  forallb (fun d => forallb (near_exact d) (zrange 0 1001)) sides = true.
Proof. vm_compute. reflexivity. Qed.

Lemma scale_axis_near_exact n dim :
  0 <= n <= 1000 -> In dim sides ->
  exists px,
    scale_axis (norm_of n) dim = Some px
    /\ (px = floor_clamp n dim
        \/ (px = floor_clamp n dim - 1 /\ (n * dim) mod 1000 = 0)).
Proof.
  intros Hn Hd. pose proof near_exact_sides as H.
  rewrite forallb_forall in H. specialize (H dim Hd).
  rewrite forallb_forall in H. specialize (H n (zrange_elem 0 1001 n ltac:(lia))).
  unfold near_exact in H.
  destruct (scale_axis (norm_of n) dim) as [px|]; [|discriminate].
  exists px. split; [reflexivity|].
  apply orb_true_iff in H as [H|H].
  - left. now apply Z.eqb_eq in H.
  - right. apply andb_true_iff in H as [H1 H2].
    apply Z.eqb_eq in H1, H2. auto.
Qed.

(** C3, amended. For positive width and height the function returns
    exactly when the width and the height convert to binary64 and the two
    products [(norm / 1000.0) * dimension], the quotient and the product
    each rounded to binary64 as in the source, have a floor; each pixel
    coordinate is then this floor, clamped to [[0, dimension - 1]]
    independently for the two axes. The floor of the rounded product is
    not always the floor of the exact one: for whole coordinates from 0 to
    1000 on the sides listed in [sides], the function returns, and each
    pixel is the one of exact arithmetic or, only when [norm * dimension]
    is a multiple of 1000, the one below it. On a side of 1000 it is
    always the one of exact arithmetic; on a side of 800 it is one below
    for the seven coordinates 145, 285, 290, 565, 570, 575 and 580, and on
    a side of 100 for 290, 570 and 580. [scale(500, 500, 1000, 800)] is
    [(500, 400)], [scale(1000, 1000, 1000, 800)] is [(999, 799)], and
    [scale(570, 570, 100, 800)] is [(56, 455)]. *)
Theorem scale_norm_to_pixels_binary64_floor :
  forall (x_norm y_norm : float) (width height : Z),
    0 < width -> 0 < height ->
    (forall x_px y_px,
       scale_norm_to_pixels x_norm y_norm width height = Some (x_px, y_px) <->
       exists dw dh fx fy,
         float_of_int width = Some dw /\ float_of_int height = Some dh
         /\ floor (fmul (fdiv x_norm f1000_0) dw) = Some fx
         /\ floor (fmul (fdiv y_norm f1000_0) dh) = Some fy
         /\ x_px = Z.max 0 (Z.min (width - 1) fx)
         /\ y_px = Z.max 0 (Z.min (height - 1) fy))
    /\ (forall x_px y_px,
          scale_norm_to_pixels x_norm y_norm width height = Some (x_px, y_px) ->
          0 <= x_px <= width - 1 /\ 0 <= y_px <= height - 1)
    /\ (forall n m, 0 <= n <= 1000 -> 0 <= m <= 1000 ->
          In width sides -> In height sides ->
          exists x_px y_px,
            scale_norm_to_pixels (norm_of n) (norm_of m) width height
            = Some (x_px, y_px)
            /\ (x_px = floor_clamp n width
                \/ (x_px = floor_clamp n width - 1 /\ (n * width) mod 1000 = 0))
            /\ (y_px = floor_clamp m height
                \/ (y_px = floor_clamp m height - 1 /\ (m * height) mod 1000 = 0)))
    /\ List.filter (below_exact 1000) (zrange 0 1001) = []
    /\ List.filter (below_exact 800) (zrange 0 1001)
       = [145; 285; 290; 565; 570; 575; 580]
    /\ List.filter (below_exact 100) (zrange 0 1001) = [290; 570; 580]
    /\ scale_norm_to_pixels (norm_of 500) (norm_of 500) 1000 800 = Some (500, 400)
    /\ scale_norm_to_pixels (norm_of 1000) (norm_of 1000) 1000 800 = Some (999, 799)
    /\ scale_norm_to_pixels (norm_of 570) (norm_of 570) 100 800 = Some (56, 455).
Proof.
  intros x_norm y_norm width height Hw Hh.
  assert (Hiff : forall x_px y_px,
       scale_norm_to_pixels x_norm y_norm width height = Some (x_px, y_px) <->
       exists dw dh fx fy,
         float_of_int width = Some dw /\ float_of_int height = Some dh
         /\ floor (fmul (fdiv x_norm f1000_0) dw) = Some fx
         /\ floor (fmul (fdiv y_norm f1000_0) dh) = Some fy
         /\ x_px = Z.max 0 (Z.min (width - 1) fx)
         /\ y_px = Z.max 0 (Z.min (height - 1) fy)).
  { intros x_px y_px. unfold scale_norm_to_pixels. split.
    - destruct (scale_axis x_norm width) as [px|] eqn:Ex; [|discriminate].
      destruct (scale_axis y_norm height) as [py|] eqn:Ey; [|discriminate].
      intros [= <- <-].
      apply scale_axis_some in Ex as (dw & fx & Hdw & Hfx & ->).
      apply scale_axis_some in Ey as (dh & fy & Hdh & Hfy & ->).
      exists dw, dh, fx, fy. repeat split; assumption.
    - intros (dw & dh & fx & fy & Hdw & Hdh & Hfx & Hfy & -> & ->).
      now rewrite (scale_axis_eq _ _ _ _ Hdw Hfx), (scale_axis_eq _ _ _ _ Hdh Hfy). }
  split; [exact Hiff|]. split.
  { intros x_px y_px H. apply Hiff in H as (dw & dh & fx & fy & _ & _ & _ & _ & -> & ->).
    split; now apply clamp_range. }
  split.
  { intros n m Hn Hm Hws Hhs.
    destruct (scale_axis_near_exact n width Hn Hws) as (px & Hx & Hpx).
    destruct (scale_axis_near_exact m height Hm Hhs) as (py & Hy & Hpy).
    exists px, py. unfold scale_norm_to_pixels. rewrite Hx, Hy. auto. }
  do 5 (split; [vm_compute; reflexivity|]). vm_compute. reflexivity.
Qed.

Lemma scale_norm_to_pixels_binary64_floor_witness :
  scale_norm_to_pixels (norm_of 500) (norm_of 500) 1000 800 = Some (500, 400)
  /\ 0 <= 500 <= 1000 - 1 /\ 0 <= 400 <= 800 - 1.
Proof.
  assert (H : scale_norm_to_pixels (norm_of 500) (norm_of 500) 1000 800
              = Some (500, 400)) by (vm_compute; reflexivity).
  split; [exact H|].
  exact (proj1 (proj2 (scale_norm_to_pixels_binary64_floor
                         (norm_of 500) (norm_of 500) 1000 800
                         ltac:(lia) ltac:(lia))) 500 400 H).
Defined.

(** C3 as stated fails: for the normalised coordinate 570 and an image of
    100 by 800, [floor(570 / 1000 * 100)] is 57 and
    [floor(570 / 1000 * 800)] is 456, both inside the image, and the
    function returns [(56, 455)]: the binary64 quotient [570 / 1000.0] is
    below 0.57, and its products with 100 and with 800 are below 57 and
    456. *)
Lemma scale_norm_to_pixels_not_exact_floor :
  scale_norm_to_pixels (norm_of 570) (norm_of 570) 100 800 = Some (56, 455)
  /\ floor_clamp 570 100 = 57 /\ floor_clamp 570 800 = 456
  /\ 570 * 100 / 1000 = 57 /\ 570 * 800 / 1000 = 456.
Proof. do 4 (split; [vm_compute; reflexivity|]). vm_compute. reflexivity. Qed.

(** The arithmetic is that of binary64: the product for 570 on a side of
    100 is just below 57. *)
Example scale_axis_570_100 : scale_axis (float_of_decimal 570 0) 100 = Some 56.
Proof. vm_compute. reflexivity. Qed.

End ScaleFacts.

(* ================================================================= *)
(** ** The fuzzy text resolver *)

Module OcrTextFacts.
Import Float64 Float64Facts PyStr OcrText.

Lemma not_flt_flt_trans a b c :
  is_nan a = false -> is_nan b = false ->
  flt b a = false -> flt b c = true -> flt a c = true.
Proof. float_cases; simpl; intros; float_order. Qed.

Lemma fle_zero_not_nan x : fle f0_0 x = true -> is_nan x = false.
Proof. unfold f0_0. float_cases; float_order. Qed.

Section Resolver.
Variable ratio : list ascii -> list ascii -> float.
(** The similarity is a number between 0 and 1. *)
Hypothesis ratio_range :
  forall a b, fle f0_0 (ratio a b) = true /\ fle (ratio a b) Examples.f1_0 = true.

Lemma score_not_nan target item : is_nan (score ratio target item) = false.
Proof. apply fle_zero_not_nan, ratio_range. Qed.

Lemma best_inv_step target l acc item :
  best_inv ratio target l acc ->
  best_inv ratio target (l ++ [item]) (best_step ratio target acc item).
Proof.
  intros (Hnan & Hmax & Hbest). unfold best_step. fold (score ratio target item).
  destruct (flt (snd acc) (score ratio target item)) eqn:Hlt.
  - split; [apply score_not_nan|]. split.
    + intros it Hin. simpl. apply elem_of_app in Hin as [Hin|Hin].
      * destruct (flt (score ratio target item) (score ratio target it)) eqn:E; [|reflexivity].
        rewrite <- (Hmax it Hin). symmetry. eapply flt_trans; eauto.
      * apply list_elem_of_singleton in Hin as ->. apply flt_irrefl.
    + simpl. exists (length l). split; [|split; [reflexivity|split]].
      * rewrite lookup_app_r by lia. now rewrite Nat.sub_diag.
      * destruct (fst acc) as [b|].
        -- destruct Hbest as (i & _ & _ & H0 & _). eapply flt_trans; eauto.
        -- now rewrite <- Hbest.
      * intros j it Hj Hit. rewrite lookup_app_l in Hit by lia.
        apply (not_flt_flt_trans _ (snd acc)); auto using score_not_nan.
        apply Hmax. eapply list_elem_of_lookup_2; eauto.
  - split; [exact Hnan|]. split.
    + intros it Hin. apply elem_of_app in Hin as [Hin|Hin]; [auto|].
      now apply list_elem_of_singleton in Hin as ->.
    + destruct (fst acc) as [b|]; [|exact Hbest].
      destruct Hbest as (i & Hi & Hs & H0 & Hfirst).
      exists i. split; [|split; [exact Hs|split; [exact H0|]]].
      * apply lookup_app_l_Some; exact Hi.
      * intros j it Hj Hit. apply (Hfirst j it Hj).
        apply lookup_lt_Some in Hi. rewrite lookup_app_l in Hit by lia. exact Hit.
Qed.

Lemma best_inv_fold target l2 : forall l1 acc,
  best_inv ratio target l1 acc ->
  best_inv ratio target (l1 ++ l2) (fold_left (best_step ratio target) l2 acc).
Proof.
  induction l2 as [|item l2 IH]; intros l1 acc H; simpl.
  - now rewrite app_nil_r.
  - replace (l1 ++ item :: l2) with ((l1 ++ [item]) ++ l2)
      by (now rewrite <- app_assoc).
    apply IH, best_inv_step, H.
Qed.

Lemma best_match_inv target items :
  best_inv ratio target items (best_match ratio target items).
Proof.
  apply (best_inv_fold target items [] (None, f0_0)).
  split; [reflexivity|]. split; [|reflexivity].
  intros item Hin. inversion Hin.
Qed.

Lemma resolve_of_best_match text items threshold :
  text <> EmptyString ->
  resolve_ocr_text ratio text items threshold =
  match best_match ratio (normalize text) items with
  | (Some item, best_score) =>
      if fle threshold best_score then inr (bbox_center (item_bbox item))
      else inl (CouldNotFind best_score)
  | (None, best_score) => inl (CouldNotFind best_score)
  end.
Proof.
  intros Hne. unfold resolve_ocr_text.
  destruct text; [congruence|]. simpl.
  now destruct (best_match _ _ _) as [[b|] bs].
Qed.

(** C2, amended. An empty target text is refused before any region is
    looked at. For any other text the scores are the similarity ratios of
    the lower-cased, trimmed target against the lower-cased, trimmed text
    of each region. When no region scores above zero (in particular when
    there is none) the resolver fails with a best score of 0. Otherwise
    the region selected is the first one that reaches the maximal score;
    the resolver fails with that score when it is below the threshold and
    returns [(x + width // 2, y + height // 2)] of the region's box
    otherwise. The box [{x:10, y:20, width:40, height:10}] has centre
    [(30, 25)], and with the scores 0.79 and 0.81 the second region is
    selected for the threshold 0.8 and for the threshold 0.5 alike. *)
Theorem resolve_ocr_text_postcondition :
  forall (text : string) (ocr_results : list OcrItem) (threshold : float),
    let target := normalize text in
    let sc := score ratio target in
    (text = EmptyString ->
       resolve_ocr_text ratio text ocr_results threshold = inl TextRequired)
    /\ (text <> EmptyString ->
        ((forall item, item ∈ ocr_results -> flt f0_0 (sc item) = false)
         /\ resolve_ocr_text ratio text ocr_results threshold
            = inl (CouldNotFind f0_0))
        \/ (exists (i : nat) (best : OcrItem),
              ocr_results !! i = Some best
              /\ flt f0_0 (sc best) = true
              /\ (forall item, item ∈ ocr_results -> flt (sc best) (sc item) = false)
              /\ (forall (j : nat) item, (j < i)%nat -> ocr_results !! j = Some item ->
                    flt (sc item) (sc best) = true)
              /\ resolve_ocr_text ratio text ocr_results threshold
                 = if fle threshold (sc best)
                   then inr (bbox_x (item_bbox best) + bbox_width (item_bbox best) / 2,
                             bbox_y (item_bbox best) + bbox_height (item_bbox best) / 2)
                   else inl (CouldNotFind (sc best))))
    /\ bbox_center Examples.submit_bbox = (30, 25)
    /\ (forall r1 r2 : OcrItem,
          text <> EmptyString ->
          sc r1 = Examples.f0_79 -> sc r2 = Examples.f0_81 ->
          resolve_ocr_text ratio text [r1; r2] Examples.f0_8
            = inr (bbox_center (item_bbox r2))
          /\ resolve_ocr_text ratio text [r1; r2] f0_5
            = inr (bbox_center (item_bbox r2))).
Proof.
  intros text items threshold target sc.
  split; [|split; [|split]].
  - intros ->. reflexivity.
  - intros Hne. rewrite (resolve_of_best_match _ _ _ Hne).
    pose proof (best_match_inv (normalize text) items) as Hinv.
    fold target in Hinv |- *.
    destruct (best_match ratio target items) as [[b|] bs];
      destruct Hinv as (Hnan & Hmax & Hbest); simpl in *.
    + right. destruct Hbest as (i & Hi & -> & H0 & Hfirst).
      exists i, b. repeat split; auto.
    + left. subst bs. split; auto.
  - reflexivity.
  - intros r1 r2 Hne H1 H2. rewrite !(resolve_of_best_match _ _ _ Hne).
    subst sc target. unfold score in H1, H2.
    unfold best_match, best_step. cbn [fold_left fst snd].
    rewrite H1. change (flt f0_0 Examples.f0_79) with true. cbn [fst snd].
    rewrite H2. split; reflexivity.
Qed.

End Resolver.

Lemma exact_ratio_range a b :
  fle f0_0 (Examples.exact_ratio a b) = true
  /\ fle (Examples.exact_ratio a b) Examples.f1_0 = true.
Proof. unfold Examples.exact_ratio. destruct (decide (a = b)); split; reflexivity. Qed.

Lemma resolve_ocr_text_postcondition_witness :
  resolve_ocr_text Examples.exact_ratio "Submit" [Examples.submit_region] Examples.f0_8
  = inr (30, 25).
Proof.
  destruct (resolve_ocr_text_postcondition Examples.exact_ratio exact_ratio_range
              "Submit" [Examples.submit_region] Examples.f0_8) as (_ & H & _).
  destruct (H ltac:(discriminate)) as [[H0 _]|(i & best & Hi & _ & _ & _ & Hr)].
  - specialize (H0 Examples.submit_region ltac:(left)). vm_compute in H0. discriminate.
  - destruct i as [|i]; [|destruct i; discriminate].
    injection Hi as <-. exact Hr.
Defined.

(** C2 as stated fails on the empty target text: there is a region, its
    ratio against the target is 1.0, above the threshold 0.8, and yet no
    centre is returned. *)
Lemma resolve_ocr_text_empty_text_refused :
  [Examples.blank_region] <> []
  /\ fle Examples.f0_8
       (score Examples.exact_ratio (normalize "") Examples.blank_region) = true
  /\ resolve_ocr_text Examples.exact_ratio "" [Examples.blank_region] Examples.f0_8
     = inl TextRequired
  /\ resolve_ocr_text Examples.exact_ratio "" [Examples.blank_region] Examples.f0_8
     <> inr (bbox_center (item_bbox Examples.blank_region)).
Proof. repeat split; try discriminate; reflexivity. Qed.

End OcrTextFacts.

(* ================================================================= *)
(** ** Tiling *)

Module TilingFacts.
Import Float64 Float64Facts Tiling TieRule.

(** *** The set of grids *)

Lemma grids_generated x : x ∈ grids -> x ∈ ratio_generator 1 12.
Proof.
  assert (H : forallb (fun x => bool_decide (x ∈ ratio_generator 1 12)) grids = true)
    by (vm_compute; reflexivity).
  rewrite forallb_forall in H. intros Hx.
  apply list_elem_of_In in Hx. apply H in Hx. now apply bool_decide_eq_true in Hx.
Qed.

Lemma generated_grids x : x ∈ ratio_generator 1 12 -> x ∈ grids.
Proof.
  assert (H : forallb (fun x => bool_decide (x ∈ grids)) (ratio_generator 1 12) = true)
    by (vm_compute; reflexivity).
  rewrite forallb_forall in H. intros Hx.
  apply list_elem_of_In in Hx. apply H in Hx. now apply bool_decide_eq_true in Hx.
Qed.

Lemma grids_bounds x :
  x ∈ grids <-> 1 <= fst x /\ 1 <= snd x /\ fst x * snd x <= 12.
Proof.
  split.
  - revert x. apply Forall_forall. unfold grids.
    repeat (apply Forall_cons; split; [simpl; lia|]). apply Forall_nil_2.
  - destruct x as [i j]. simpl. intros (Hi & Hj & Hij).
    assert (i <= 12) by nia. assert (j <= 12) by nia.
    assert (Hc : forallb (fun i => forallb (fun j =>
              implb (i * j <=? 12) (bool_decide ((i, j) ∈ grids))) (seqZ 1 12))
              (seqZ 1 12) = true) by (vm_compute; reflexivity).
    rewrite forallb_forall in Hc.
    assert (Hi' : In i (seqZ 1 12)) by (apply list_elem_of_In, elem_of_seqZ; lia).
    specialize (Hc i Hi'). rewrite forallb_forall in Hc.
    assert (Hj' : In j (seqZ 1 12)) by (apply list_elem_of_In, elem_of_seqZ; lia).
    specialize (Hc j Hj'). apply Z.leb_le in Hij. rewrite Hij in Hc. simpl in Hc.
    now apply bool_decide_eq_true in Hc.
Qed.

Lemma enumerates_grids enum x :
  enumerates enum (ratio_generator 1 12) -> (x ∈ enum <-> x ∈ grids).
Proof.
  intros [_ H]. rewrite H. split; [apply generated_grids|apply grids_generated].
Qed.

(** *** The stable sort *)

Lemma insert_by_perm key x l : insert_by key x l ≡ₚ x :: l.
Proof.
  induction l as [|y l IH]; simpl; [reflexivity|].
  destruct (key x <=? key y); [reflexivity|].
  rewrite IH. apply Permutation_swap.
Qed.

Lemma sorted_by_perm key l : sorted_by key l ≡ₚ l.
Proof.
  induction l as [|x l IH]; simpl; [reflexivity|].
  unfold sorted_by in *. simpl. rewrite insert_by_perm. now rewrite IH.
Qed.

Lemma insert_by_sorted key x l :
  StronglySorted (key_le key) l -> StronglySorted (key_le key) (insert_by key x l).
Proof.
  induction 1 as [|y l Hs IH Hall]; simpl.
  - repeat constructor.
  - destruct (key x <=? key y) eqn:E.
    + apply Z.leb_le in E. constructor; [constructor; assumption|].
      constructor; [exact E|].
      eapply Forall_impl; [exact Hall|]. unfold key_le. intros; lia.
    + apply Z.leb_gt in E. constructor; [exact IH|].
      rewrite insert_by_perm. constructor; [unfold key_le; lia|exact Hall].
Qed.

Lemma sorted_by_sorted key l : StronglySorted (key_le key) (sorted_by key l).
Proof.
  induction l as [|x l IH]; [constructor|].
  unfold sorted_by in *. simpl. now apply insert_by_sorted.
Qed.

Lemma sorted_split key p1 x p2 :
  StronglySorted (key_le key) (p1 ++ x :: p2) ->
  (forall y, y ∈ p1 -> key y <= key x) /\ (forall y, y ∈ p2 -> key x <= key y).
Proof.
  induction p1 as [|z p1 IH]; simpl; intros Hs.
  - apply StronglySorted_inv in Hs as [_ Hall]. split.
    + intros y Hy. inversion Hy.
    + intros y Hy. rewrite Forall_forall in Hall. now apply Hall.
  - apply StronglySorted_inv in Hs as [Hs Hall].
    destruct (IH Hs) as [H1 H2]. split; [|exact H2].
    intros y Hy. apply elem_of_cons in Hy as [->|Hy]; [|auto].
    rewrite Forall_forall in Hall. apply Hall. apply elem_of_app. right. left.
Qed.

(** *** The choice of the grid *)

Section Pick.
Variable dev : Z * Z -> float.
Variable test : Z * Z -> bool.
Variable d0 : Z * Z.

Lemma pick_inv_init : pick_inv dev test d0 [] (pos_infinity, d0).
Proof.
  split; [intros x Hx; inversion Hx|]. left. repeat split.
  intros x Hx. inversion Hx.
Qed.

Lemma pick_inv_step l st x :
  pick_inv dev test d0 l st ->
  pick_inv dev test d0 (l ++ [x]) (pick_step dev test st x).
Proof.
  intros [Hmin Hcase]. unfold pick_step.
  destruct (flt (dev x) (fst st)) eqn:Hlt.
  - (* a strictly smaller deviation *)
    split; simpl.
    + intros y Hy. apply elem_of_app in Hy as [Hy|Hy].
      * destruct (flt (dev y) (dev x)) eqn:E; [|reflexivity].
        rewrite <- (Hmin y Hy). symmetry. eapply flt_trans; eauto.
      * apply list_elem_of_singleton in Hy as ->. apply flt_irrefl.
    + right. exists l, []. repeat split.
      * apply feq_refl. eapply flt_not_nan_l; eauto.
      * intros y Hy. inversion Hy.
      * left. intros y Hy. destruct (feq (dev y) (dev x)) eqn:E; [|reflexivity].
        rewrite <- (Hmin y Hy). symmetry.
        eapply flt_feq_l; [exact Hlt|]. now apply feq_sym.
  - assert (Hmin' : forall y, y ∈ l ++ [x] -> flt (dev y) (fst st) = false).
    { intros y Hy. apply elem_of_app in Hy as [Hy|Hy]; [auto|].
      now apply list_elem_of_singleton in Hy as ->. }
    destruct (feq (dev x) (fst st)) eqn:Heq; [destruct (test x) eqn:Htest|].
    + (* a tie that passes the test *)
      split; [exact Hmin'|]. right. exists l, []. simpl. repeat split; auto.
      intros y Hy. inversion Hy.
    + (* a tie that fails the test *)
      split; [exact Hmin'|].
      destruct Hcase as [(Hi & Hd & Ht)|(p1 & p2 & Hl & Hf & Ht & Hp)].
      * left. repeat split; auto. intros y Hy Hey.
        apply elem_of_app in Hy as [Hy|Hy]; [auto|].
        now apply list_elem_of_singleton in Hy as ->.
      * right. exists p1, (p2 ++ [x]). repeat split; auto.
        -- rewrite Hl at 1. now rewrite <- app_assoc.
        -- intros y Hy Hey. apply elem_of_app in Hy as [Hy|Hy]; [auto|].
           now apply list_elem_of_singleton in Hy as ->.
    + (* a larger deviation, or one that does not compare *)
      split; [exact Hmin'|].
      destruct Hcase as [(Hi & Hd & Ht)|(p1 & p2 & Hl & Hf & Ht & Hp)].
      * left. repeat split; auto. intros y Hy Hey.
        apply elem_of_app in Hy as [Hy|Hy]; [auto|].
        apply list_elem_of_singleton in Hy as ->. congruence.
      * right. exists p1, (p2 ++ [x]). repeat split; auto.
        -- rewrite Hl at 1. now rewrite <- app_assoc.
        -- intros y Hy Hey. apply elem_of_app in Hy as [Hy|Hy]; [auto|].
           apply list_elem_of_singleton in Hy as ->. congruence.
Qed.

Lemma pick_inv_fold l2 : forall l1 st,
  pick_inv dev test d0 l1 st ->
  pick_inv dev test d0 (l1 ++ l2) (fold_left (pick_step dev test) l2 st).
Proof.
  induction l2 as [|x l2 IH]; intros l1 st H; simpl.
  - now rewrite app_nil_r.
  - replace (l1 ++ x :: l2) with ((l1 ++ [x]) ++ l2) by (now rewrite <- app_assoc).
    apply IH, pick_inv_step, H.
Qed.

(** The grid chosen among [l], sorted by [key], when the starting grid
    [d0] is in [l] and has the least key. *)
Lemma pick_chosen key l :
  StronglySorted (key_le key) l -> d0 ∈ l -> (forall x, x ∈ l -> key d0 <= key x) ->
  let st := fold_left (pick_step dev test) l (pos_infinity, d0) in
  snd st ∈ l
  /\ (forall x, x ∈ l -> flt (dev x) (dev (snd st)) = false)
  /\ (forall x, x ∈ l -> feq (dev x) (dev (snd st)) = true ->
        key (snd st) < key x -> test x = false)
  /\ (forall x, x ∈ l -> feq (dev x) (dev (snd st)) = true ->
        key x < key (snd st) -> test (snd st) = true).
Proof.
  intros Hsorted Hd0 Hleast st.
  pose proof (pick_inv_fold l [] _ pick_inv_init) as Hinv.
  simpl in Hinv. fold st in Hinv. destruct Hinv as [Hmin Hcase].
  destruct Hcase as [(Hi & Hd & Ht)|(p1 & p2 & Hl & Hf & Ht & Hp)].
  - (* the starting grid was never replaced *)
    rewrite Hd. pose proof (Hmin d0 Hd0) as H0. rewrite Hi in H0.
    apply not_flt_infinity in H0. split; [exact Hd0|]. split; [|split].
    + intros x Hx. destruct H0 as [-> | ->].
      * rewrite <- Hi. auto.
      * now destruct (dev x) as [[]|[]| |[] ? ?].
    + intros x Hx Hex _. apply Ht; [exact Hx|]. destruct H0 as [H0|H0].
      * now rewrite Hi, <- H0.
      * rewrite H0 in Hex. now destruct (dev x) as [[]|[]| |[] ? ?].
    + intros x Hx _ Hk. specialize (Hleast x Hx). lia.
  - rewrite Hl in Hsorted. destruct (sorted_split _ _ _ _ Hsorted) as [Hk1 Hk2].
    assert (Hin : forall x, x ∈ l -> x ∈ p1 \/ x = snd st \/ x ∈ p2).
    { intros x Hx. rewrite Hl in Hx. apply elem_of_app in Hx as [Hx|Hx]; [auto|].
      apply elem_of_cons in Hx as [Hx|Hx]; auto. }
    split; [|split; [|split]].
    + rewrite Hl. apply elem_of_app. right. left.
    + intros x Hx. destruct (flt (dev x) (dev (snd st))) eqn:E; [|reflexivity].
      rewrite <- (Hmin x Hx). symmetry. eapply flt_feq_r; eauto.
    + intros x Hx Hex Hk. destruct (Hin x Hx) as [H|[H|H]].
      * specialize (Hk1 x H). lia.
      * subst x. lia.
      * apply Ht; [exact H|]. eapply feq_trans; eauto.
    + intros x Hx Hex Hk. destruct (Hin x Hx) as [H|[H|H]].
      * destruct Hp as [Hp|Hp]; [|exact Hp].
        specialize (Hp x H). rewrite (feq_trans _ _ _ Hex Hf) in Hp. discriminate.
      * subst x. lia.
      * specialize (Hk2 x H). lia.
Qed.

End Pick.

(** *** The loop of the source and the choice *)

Lemma ratio_step_pick ar area size st x d b :
  ratio_diff ar x = Some d -> exceeds_half area size x = Some b ->
  ratio_step ar area size st x
  = Some (pick_step (dev_of ar) (test_of area size) st x).
Proof.
  intros Hd Hb. unfold ratio_step, pick_step, dev_of, test_of.
  rewrite Hd, Hb. simpl. unfold ratio_diff in Hd. unfold exceeds_half in Hb.
  destruct (int_truediv (fst x) (snd x)) as [t|]; [|discriminate].
  simpl in Hd |- *. injection Hd as <-.
  destruct (flt _ (fst st)); [reflexivity|].
  destruct (feq _ (fst st)); [|reflexivity].
  destruct (half_tile_area size x) as [bound|]; [|discriminate].
  simpl in Hb |- *. injection Hb as <-. now destruct (int_gt_float area bound).
Qed.

Lemma ratio_loop_pick ar area size l : forall st,
  (forall x, x ∈ l -> is_Some (ratio_diff ar x) /\ is_Some (exceeds_half area size x)) ->
  ratio_loop ar area size l st
  = Some (fold_left (pick_step (dev_of ar) (test_of area size)) l st).
Proof.
  induction l as [|x l IH]; intros st H; simpl; [reflexivity|].
  destruct (H x ltac:(left)) as [[d Hd] [b Hb]].
  rewrite (ratio_step_pick _ _ _ _ _ _ _ Hd Hb). simpl.
  apply IH. intros y Hy. apply H. now right.
Qed.

Lemma grids_forall (P : Z * Z -> bool) :
  forallb P grids = true -> forall x, x ∈ grids -> P x = true.
Proof.
  intros H x Hx. rewrite forallb_forall in H. apply H. now apply list_elem_of_In.
Qed.

Lemma grid_ratio_diff ar x : x ∈ grids -> is_Some (ratio_diff ar x).
Proof.
  intros Hx. unfold ratio_diff.
  pose proof (grids_forall
                (fun x => match int_truediv (fst x) (snd x) with
                          | Some _ => true | None => false end)
                ltac:(vm_compute; reflexivity) x Hx) as H.
  simpl in H. destruct (int_truediv (fst x) (snd x)); [simpl; eauto|discriminate].
Qed.

Lemma grid_exceeds_half area size fs x :
  float_of_int size = Some fs -> x ∈ grids -> is_Some (exceeds_half area size x).
Proof.
  intros Hs Hx. unfold exceeds_half, half_tile_area, fmul_int. rewrite Hs. simpl.
  pose proof (grids_forall
                (fun x => match float_of_int (fst x), float_of_int (snd x) with
                          | Some _, Some _ => true | _, _ => false end)
                ltac:(vm_compute; reflexivity) x Hx) as H.
  simpl in H.
  destruct (float_of_int (fst x)); [|discriminate].
  destruct (float_of_int (snd x)); [|discriminate]. simpl. eauto.
Qed.

Lemma best_ratio_of_pick enum image size ar fs :
  enumerates enum (ratio_generator 1 12) ->
  int_truediv (img_width image) (img_height image) = Some ar ->
  float_of_int size = Some fs ->
  best_ratio_of enum image size
  = Some (snd (fold_left (pick_step (dev_of ar)
                            (test_of (img_width image * img_height image) size))
                 (sorted_by area_key enum) (pos_infinity, (1, 1)))).
Proof.
  intros Henum Har Hfs. unfold best_ratio_of. rewrite Har. simpl.
  rewrite ratio_loop_pick; [reflexivity|].
  intros x Hx. rewrite sorted_by_perm in Hx.
  apply (enumerates_grids _ _ Henum) in Hx.
  split; [now apply grid_ratio_diff|now apply (grid_exceeds_half _ _ fs)].
Qed.

(** *** The tiles *)

Lemma block_box_grid size cols k :
  0 < size -> 0 < cols ->
  block_box (size * cols) size k
  = {| box_left := (k mod cols) * size; box_upper := (k / cols) * size;
       box_right := (k mod cols + 1) * size; box_lower := (k / cols + 1) * size |}.
Proof.
  intros Hs Hc. unfold block_box.
  replace (size * cols / size) with cols; [reflexivity|].
  rewrite Z.mul_comm. symmetry. apply Z.div_mul. lia.
Qed.

Lemma block_box_inside size cols rows k :
  0 < size -> 0 < cols -> 0 <= k < cols * rows ->
  let b := block_box (size * cols) size k in
  0 <= box_left b /\ box_right b <= size * cols
  /\ 0 <= box_upper b /\ box_lower b <= size * rows.
Proof.
  intros Hs Hc Hk. rewrite block_box_grid by assumption. simpl.
  pose proof (Z.mod_pos_bound k cols Hc).
  assert (0 <= k / cols) by (apply Z.div_pos; lia).
  assert (k / cols < rows) by (apply Z.div_lt_upper_bound; lia).
  nia.
Qed.

Lemma grid_crops_size size cols rows t :
  t ∈ grid_crops size cols rows -> tile_size t = (size, size).
Proof.
  unfold grid_crops. intros Ht. apply list_elem_of_fmap in Ht as (k & -> & _).
  simpl. f_equal; lia.
Qed.

Lemma grid_crops_length size cols rows :
  length (grid_crops size cols rows) = Z.to_nat (cols * rows).
Proof. unfold grid_crops. now rewrite length_map, length_seqZ. Qed.

Lemma dynamic_preprocess_of_best enum image size cols rows :
  0 < size -> 1 <= cols -> 1 <= rows ->
  best_ratio_of enum image size = Some (cols, rows) ->
  _dynamic_preprocess enum image size true
  = Some (grid_crops size cols rows
          ++ if decide (cols * rows = 1) then [] else [Thumbnail (size, size)]).
Proof.
  intros Hs Hc Hr Hbest. unfold _dynamic_preprocess. rewrite Hbest. simpl.
  replace (0 <? size * cols) with true by (symmetry; apply Z.ltb_lt; nia).
  replace (0 <? size * rows) with true by (symmetry; apply Z.ltb_lt; nia).
  simpl. fold (grid_crops size cols rows). rewrite grid_crops_length.
  destruct (decide (cols * rows = 1)) as [E|E].
  - rewrite E. simpl. now rewrite app_nil_r.
  - replace (Z.to_nat (cols * rows) =? 1)%nat with false; [reflexivity|].
    symmetry. apply Nat.eqb_neq. nia.
Qed.

(** *** The contract *)

Lemma chosen_grid enum image size ar fs :
  enumerates enum (ratio_generator 1 12) ->
  int_truediv (img_width image) (img_height image) = Some ar ->
  float_of_int size = Some fs ->
  let dev := dev_of ar in
  let test := test_of (img_width image * img_height image) size in
  exists best,
    best_ratio_of enum image size = Some best
    /\ best ∈ grids
    /\ (forall x, x ∈ grids -> flt (dev x) (dev best) = false)
    /\ (forall x, x ∈ grids -> feq (dev x) (dev best) = true ->
          area_key best < area_key x -> test x = false)
    /\ (forall x, x ∈ grids -> feq (dev x) (dev best) = true ->
          area_key x < area_key best -> test best = true).
Proof.
  intros Henum Har Hfs dev test.
  rewrite (best_ratio_of_pick _ _ _ _ _ Henum Har Hfs). fold dev test.
  assert (Hmem : forall x, x ∈ sorted_by area_key enum <-> x ∈ grids).
  { intros x. rewrite sorted_by_perm. apply enumerates_grids, Henum. }
  destruct (pick_chosen dev test (1, 1) area_key (sorted_by area_key enum))
    as (H1 & H2 & H3 & H4).
  - apply sorted_by_sorted.
  - apply Hmem. left.
  - intros x Hx. apply Hmem, grids_bounds in Hx. unfold area_key. simpl. nia.
  - eexists. split; [reflexivity|]. split; [now apply Hmem|].
    split; [|split]; intros x Hx; [apply H2|apply H3|apply H4]; now apply Hmem.
Qed.

(** *** The tie test on whole numbers *)

Lemma is_half_of_gt c x n :
  is_half_of c x = true -> int_gt_float n x = (c <? 2 * n).
Proof.
  destruct x as [s|s| |[] m e]; try discriminate;
    unfold is_half_of, int_gt_float; cbv beta iota.
  - intros H. apply Z.eqb_eq in H. subst c.
    destruct (Z.ltb_spec 0 n), (Z.ltb_spec 0 (2 * n)); auto; lia.
  - destruct (Z.leb_spec 0 e) as [He|He]; intros H; apply Z.eqb_eq in H.
    + destruct (Z.ltb_spec (Zpos m * 2 ^ e) n), (Z.ltb_spec c (2 * n)); auto; lia.
    + assert (Hp : 0 < 2 ^ (- e)) by (apply Z.pow_pos_nonneg; lia).
      destruct (Z.ltb_spec (Zpos m) (n * 2 ^ (- e))), (Z.ltb_spec c (2 * n));
        auto; nia.
Qed.

Lemma half_exact_sizes :
  forallb (fun s => forallb (half_exact s) grids) (seqZ 1 1024) = true.
Proof. vm_compute. reflexivity. Qed.

(** For a tile size of at most 1024 the bound of the tie test is computed
    without rounding, and the test is the comparison of whole numbers. *)
Lemma test_of_exact area size x :
  1 <= size <= 1024 -> x ∈ grids ->
  test_of area size x = area_exceeds_half area size (fst x) (snd x).
Proof.
  intros Hs Hx. pose proof half_exact_sizes as H.
  rewrite forallb_forall in H.
  assert (Hin : In size (seqZ 1 1024)) by (apply list_elem_of_In, elem_of_seqZ; lia).
  specialize (H size Hin). pose proof (grids_forall _ H x Hx) as Hh.
  unfold half_exact in Hh. unfold test_of, exceeds_half.
  destruct (half_tile_area size x) as [bound|]; [|discriminate].
  simpl. now rewrite (is_half_of_gt _ _ area Hh).
Qed.

(** The grids a square image can get with tiles of 448: the square grids,
    which share the least deviation. *)
Lemma square_image_grids enum image :
  enumerates enum (ratio_generator 1 12) ->
  int_truediv (img_width image) (img_height image)
  = Some (S754_finite false 4503599627370496 (-52)) ->
  let test := test_of (img_width image * img_height image) 448 in
  exists best,
    best_ratio_of enum image 448 = Some best
    /\ (best = (1, 1) \/ best = (2, 2) \/ best = (3, 3))
    /\ (area_key best < 9 -> test (3, 3) = false)
    /\ (1 < area_key best -> test best = true).
Proof.
  intros Henum Har test.
  assert (Hfs : float_of_int 448 = Some (S754_finite false 7881299347898368 (-44)))
    by (vm_compute; reflexivity).
  destruct (chosen_grid enum image 448 _ _ Henum Har Hfs)
    as (best & Hbest & Hin & Hmin & Hup & Hdown).
  fold test in Hup, Hdown.
  exists best. split; [exact Hbest|].
  set (d := dev_of (S754_finite false 4503599627370496 (-52))) in *.
  assert (Hall : forallb (fun x => flt (d (1, 1)) (d x)
                                   || bool_decide (x = (1, 1))
                                   || bool_decide (x = (2, 2))
                                   || bool_decide (x = (3, 3))) grids = true)
    by (vm_compute; reflexivity).
  pose proof (grids_forall _ Hall best Hin) as H.
  cbv beta in H. rewrite (Hmin (1, 1)) in H by (apply grids_bounds; simpl; lia).
  rewrite orb_false_l in H.
  assert (Hcases : best = (1, 1) \/ best = (2, 2) \/ best = (3, 3)).
  { apply orb_true_iff in H as [H|H]; [apply orb_true_iff in H as [H|H]|];
      apply bool_decide_eq_true in H; auto. }
  split; [exact Hcases|]. split.
  - intros Hk. apply Hup; [apply grids_bounds; simpl; lia| |exact Hk].
    destruct Hcases as [-> |[-> | ->]]; vm_compute; reflexivity.
  - intros Hk. apply (Hdown (1, 1)); [apply grids_bounds; simpl; lia| |exact Hk].
    destruct Hcases as [-> |[-> | ->]]; vm_compute; reflexivity.
Qed.

Lemma square_image_grid enum :
  enumerates enum (ratio_generator 1 12) ->
  best_ratio_of enum image_2000_2000 448 = Some (3, 3)
  /\ best_ratio_of enum image_100_100 448 = Some (1, 1).
Proof.
  intros Henum. split.
  - (* the large image passes the test of the grid of nine tiles *)
    destruct (square_image_grids enum image_2000_2000 Henum
                ltac:(vm_compute; reflexivity)) as (best & Hbest & Hc & Hup & _).
    rewrite Hbest. f_equal.
    destruct Hc as [-> |[-> | ->]]; [exfalso|exfalso|reflexivity];
      specialize (Hup ltac:(vm_compute; reflexivity));
      vm_compute in Hup; discriminate.
  - (* the small image fails the test of every larger grid *)
    destruct (square_image_grids enum image_100_100 Henum
                ltac:(vm_compute; reflexivity)) as (best & Hbest & Hc & _ & Hdown).
    rewrite Hbest. f_equal.
    destruct Hc as [-> |[-> | ->]]; [reflexivity|exfalso|exfalso];
      specialize (Hdown ltac:(vm_compute; reflexivity));
      vm_compute in Hdown; discriminate.
Qed.

(** C4, amended. For an image of positive width and height and a positive
    tile size, [enum] being the set of grids in whatever order the set is
    iterated: the grid chosen has between 1 and 12 tiles; no grid of that
    range has a deviation [abs(width / height - cols / rows)] smaller than
    the chosen one; among the grids of the same deviation, one of more
    tiles than the chosen one does not pass the test "the area of the
    image, [width * height], exceeds half of [tile_size^2 * cols * rows]",
    and the chosen one passes it whenever a grid of fewer tiles has the
    same deviation; the test compares the area with the bound as computed
    in binary64, which for a tile size of at most 1024 is the comparison
    [tile_size^2 * cols * rows < 2 * width * height] of whole numbers; the
    image is resized to [(cols * tile_size, rows * tile_size)] and cut
    into [cols * rows] crops of [tile_size] by [tile_size], the [k]-th in
    column [k mod cols] and row [k // cols]; one thumbnail of
    [tile_size] by [tile_size] follows unless there is exactly one crop.
    For an image of 1448 by 448 and tiles of 448 the grid is 3 by 1, and
    the result is its three crops and one thumbnail. For a square image of
    2000 by 2000 the grids 1 by 1, 2 by 2 and 3 by 3 have the same
    deviation and the grid is 3 by 3, nine crops and one thumbnail; for
    one of 100 by 100 it is 1 by 1, one crop and no thumbnail. *)
Theorem dynamic_preprocess_contract :
  forall (enum : list (Z * Z)) (image : Image) (image_size : Z)
         (aspect_ratio size_f : float),
    enumerates enum (ratio_generator 1 12) ->
    0 < img_width image -> 0 < img_height image -> 0 < image_size ->
    int_truediv (img_width image) (img_height image) = Some aspect_ratio ->
    float_of_int image_size = Some size_f ->
    let dev := dev_of aspect_ratio in
    let area := img_width image * img_height image in
    let test := test_of area image_size in
    (exists cols rows : Z,
        best_ratio_of enum image image_size = Some (cols, rows)
        /\ 1 <= cols /\ 1 <= rows /\ 1 <= cols * rows <= 12
        /\ (forall i j, 1 <= i -> 1 <= j -> i * j <= 12 ->
              is_Some (ratio_diff aspect_ratio (i, j))
              /\ flt (dev (i, j)) (dev (cols, rows)) = false)
        /\ (forall i j, 1 <= i -> 1 <= j -> i * j <= 12 ->
              feq (dev (i, j)) (dev (cols, rows)) = true ->
              cols * rows < i * j -> test (i, j) = false)
        /\ (forall i j, 1 <= i -> 1 <= j -> i * j <= 12 ->
              feq (dev (i, j)) (dev (cols, rows)) = true ->
              i * j < cols * rows -> test (cols, rows) = true)
        /\ _dynamic_preprocess enum image image_size true
           = Some (grid_crops image_size cols rows
                   ++ if decide (cols * rows = 1) then []
                      else [Thumbnail (image_size, image_size)])
        /\ length (grid_crops image_size cols rows) = Z.to_nat (cols * rows)
        /\ (forall t, t ∈ grid_crops image_size cols rows ->
              tile_size t = (image_size, image_size))
        /\ (forall k, 0 <= k < cols * rows ->
              grid_crops image_size cols rows !! Z.to_nat k
              = Some (Crop (image_size * cols, image_size * rows)
                        {| box_left := (k mod cols) * image_size;
                           box_upper := (k / cols) * image_size;
                           box_right := (k mod cols + 1) * image_size;
                           box_lower := (k / cols + 1) * image_size |})
              /\ (k mod cols + 1) * image_size <= image_size * cols
              /\ (k / cols + 1) * image_size <= image_size * rows))
    /\ (image_size <= 1024 ->
        forall i j, 1 <= i -> 1 <= j -> i * j <= 12 ->
          test (i, j) = (image_size * image_size * i * j <? 2 * area))
    /\ (best_ratio_of enum image_1448_448 448 = Some (3, 1)
        /\ _dynamic_preprocess enum image_1448_448 448 true
           = Some (grid_crops 448 3 1 ++ [Thumbnail (448, 448)])
        /\ length (grid_crops 448 3 1) = 3%nat)
    /\ (best_ratio_of enum image_2000_2000 448 = Some (3, 3)
        /\ _dynamic_preprocess enum image_2000_2000 448 true
           = Some (grid_crops 448 3 3 ++ [Thumbnail (448, 448)])
        /\ length (grid_crops 448 3 3) = 9%nat)
    /\ (best_ratio_of enum image_100_100 448 = Some (1, 1)
        /\ _dynamic_preprocess enum image_100_100 448 true
           = Some (grid_crops 448 1 1)
        /\ length (grid_crops 448 1 1) = 1%nat).
Proof.
  intros enum image size ar fs Henum Hw Hh Hs Har Hfs dev area test.
  split; [|split; [|split; [|split]]].
  - destruct (chosen_grid enum image size ar fs Henum Har Hfs)
      as ([cols rows] & Hbest & Hin & Hmin & Hup & Hdown).
    fold dev area test in Hmin, Hup, Hdown. unfold area_key in Hup, Hdown.
    pose proof (proj1 (grids_bounds _) Hin) as (Hc & Hr & Hcr).
    cbn [fst snd] in Hc, Hr, Hcr.
    exists cols, rows. split; [exact Hbest|].
    split; [exact Hc|]. split; [exact Hr|]. split; [nia|].
    split; [|split; [|split; [|split; [|split; [|split]]]]].
    + intros i j Hi Hj Hij.
      assert (Hg : (i, j) ∈ grids) by (apply grids_bounds; simpl; lia).
      split; [now apply grid_ratio_diff|now apply Hmin].
    + intros i j Hi Hj Hij He Hlt.
      apply (Hup (i, j)); [apply grids_bounds; simpl; lia|exact He|exact Hlt].
    + intros i j Hi Hj Hij He Hlt.
      apply (Hdown (i, j)); [apply grids_bounds; simpl; lia|exact He|exact Hlt].
    + now apply dynamic_preprocess_of_best.
    + apply grid_crops_length.
    + apply grid_crops_size.
    + intros k Hk. split.
      * unfold grid_crops. rewrite list_lookup_fmap.
        rewrite (lookup_seqZ_lt 0 (cols * rows) (Z.to_nat k)) by lia. simpl.
        rewrite Z2Nat.id by lia. now rewrite block_box_grid by lia.
      * pose proof (block_box_inside size cols rows k Hs ltac:(lia) Hk) as H.
        rewrite block_box_grid in H by lia. simpl in H. lia.
  - intros Hle i j Hi Hj Hij. unfold test.
    rewrite (test_of_exact area size (i, j)) by (lia || (apply grids_bounds; simpl; lia)).
    reflexivity.
  - assert (Har' : int_truediv (img_width image_1448_448) (img_height image_1448_448)
                   = Some (S754_finite false 7278138683518391 (-51)))
      by (vm_compute; reflexivity).
    assert (Hfs' : float_of_int 448 = Some (S754_finite false 7881299347898368 (-44)))
      by (vm_compute; reflexivity).
    destruct (chosen_grid enum image_1448_448 448 _ _ Henum Har' Hfs')
      as (best & Hbest & Hin & Hmin & Hup & Hdown).
    assert (Hb : best = (3, 1)).
    { set (d := dev_of (S754_finite false 7278138683518391 (-51))) in *.
      set (t := test_of (img_width image_1448_448 * img_height image_1448_448) 448) in *.
      assert (Hall : forallb (fun x => flt (d (3, 1)) (d x)
                                       || bool_decide (x = (3, 1))
                                       || bool_decide (x = (6, 2))) grids = true)
        by (vm_compute; reflexivity).
      pose proof (grids_forall _ Hall best Hin) as H.
      cbv beta in H. rewrite (Hmin (3, 1)) in H by (apply grids_bounds; simpl; lia).
      rewrite orb_false_l in H.
      apply orb_true_iff in H as [H|H]; apply bool_decide_eq_true in H; [exact H|].
      subst best. exfalso.
      assert (Ht : t (6, 2) = true).
      { apply (Hdown (3, 1)); [apply grids_bounds; simpl; lia| |].
        - vm_compute. reflexivity.
        - vm_compute. reflexivity. }
      vm_compute in Ht. discriminate. }
    subst best. split; [exact Hbest|]. split; [|reflexivity].
    now rewrite (dynamic_preprocess_of_best enum image_1448_448 448 3 1) by (lia || assumption).
  - destruct (square_image_grid enum Henum) as [Hbest _].
    split; [exact Hbest|]. split; [|reflexivity].
    now rewrite (dynamic_preprocess_of_best enum image_2000_2000 448 3 3)
      by (lia || assumption).
  - destruct (square_image_grid enum Henum) as [_ Hbest].
    split; [exact Hbest|]. split; [|reflexivity].
    now rewrite (dynamic_preprocess_of_best enum image_100_100 448 1 1)
      by (lia || assumption).
Qed.

Lemma grids_enumerates : enumerates grids (ratio_generator 1 12).
Proof.
  split; [|intros x; split; [apply grids_generated|apply generated_grids]].
  assert (H : bool_decide (NoDup grids) = true) by (vm_compute; reflexivity).
  now apply bool_decide_eq_true in H.
Qed.

Lemma dynamic_preprocess_contract_witness :
  best_ratio_of grids image_1448_448 448 = Some (3, 1)
  /\ _dynamic_preprocess grids image_1448_448 448 true
     = Some (grid_crops 448 3 1 ++ [Thumbnail (448, 448)])
  /\ length (grid_crops 448 3 1) = 3%nat.
Proof.
  refine (proj1 (proj2 (proj2 (dynamic_preprocess_contract grids image_1448_448 448
                   (S754_finite false 7278138683518391 (-51))
                   (S754_finite false 7881299347898368 (-44))
                   grids_enumerates _ _ _ _ _)))).
  - simpl. lia.
  - simpl. lia.
  - lia.
  - vm_compute. reflexivity.
  - vm_compute. reflexivity.
Defined.

(** C4 as stated fails on its tie rule. For a square image of 100 by 100
    and tiles of 448 the grids 1 by 1, 2 by 2 and 3 by 3 have the same
    deviation, and the total tile area of each exceeds half of
    [tile_size^2 * cols * rows], so that the rule of the claim prefers them
    in turn and ends with the grid 3 by 3. The source compares the area of
    the image, 10000, with that half and keeps the grid 1 by 1: the result
    is one crop and no thumbnail. *)
Lemma tie_rule_tests_image_area :
  let dev := dev_of (S754_finite false 4503599627370496 (-52)) in
  int_truediv (img_width image_100_100) (img_height image_100_100)
  = Some (S754_finite false 4503599627370496 (-52))
  /\ feq (dev (2, 2)) (dev (1, 1)) = true
  /\ feq (dev (3, 3)) (dev (1, 1)) = true
  /\ grid_area_exceeds_half 448 (2, 2) = true
  /\ grid_area_exceeds_half 448 (3, 3) = true
  /\ snd (fold_left (pick_step dev (grid_area_exceeds_half 448))
            (sorted_by area_key grids) (pos_infinity, (1, 1))) = (3, 3)
  /\ best_ratio_of grids image_100_100 448 = Some (1, 1)
  /\ _dynamic_preprocess grids image_100_100 448 true = Some (grid_crops 448 1 1).
Proof.
  intros dev. do 7 (split; [vm_compute; reflexivity|]). vm_compute. reflexivity.
Qed.

End TilingFacts.

(* ================================================================= *)
(** ** The matcher against the declarative reading of a pattern *)

Module RegexFacts.
Import PyStr Regex.

Lemma consumed_app (u s1 : list ascii) : consumed (u ++ s1) s1 = u.
Proof.
  unfold consumed. rewrite length_app.
  replace (length u + length s1 - length s1)%nat with (length u) by lia.
  now rewrite take_app_length.
Qed.

Section Matcher.
Context {R : Type}.

Lemma star_greedy_sound p s (k : list ascii -> option R) res :
  star_greedy p s k = Some res ->
  exists u s', s = u ++ s' /\ forallb p u = true /\ k s' = Some res.
Proof.
  induction s as [|c s IH]; simpl; intros H.
  - exists [], []. auto.
  - destruct (p c) eqn:Hp.
    + destruct (star_greedy p s k) as [res'|] eqn:Hs.
      * injection H as <-. destruct (IH eq_refl) as (u & s' & -> & Hu & Hk).
        exists (c :: u), s'. simpl. rewrite Hp, Hu. auto.
      * exists [], (c :: s). auto.
    + exists [], (c :: s). auto.
Qed.

Lemma star_greedy_fallback p s (k : list ascii -> option R) :
  is_Some (k s) -> is_Some (star_greedy p s k).
Proof.
  intros Hk. destruct s as [|c s]; simpl; [exact Hk|].
  destruct (p c); [|exact Hk]. destruct (star_greedy p s k); eauto.
Qed.

Lemma star_greedy_complete p u s' (k : list ascii -> option R) :
  forallb p u = true -> is_Some (k s') -> is_Some (star_greedy p (u ++ s') k).
Proof.
  induction u as [|c u IH]; simpl; intros Hu Hk.
  - now apply star_greedy_fallback.
  - apply andb_true_iff in Hu as [Hc Hu]. rewrite Hc.
    destruct (IH Hu Hk) as [res ->]. eauto.
Qed.

Lemma rmatch_sound r : forall s caps (k : list ascii -> captures -> option R) res,
  rmatch r s caps k = Some res ->
  exists u s' caps', s = u ++ s' /\ matches r u caps caps' /\ k s' caps' = Some res.
Proof.
  induction r as [c|p|p|r IH|r1 IH1 r2 IH2|n r IH]; intros s caps k res H; simpl in H.
  - destruct s as [|c' s]; [discriminate|].
    destruct (Ascii.eqb c c') eqn:E; [|discriminate].
    apply Ascii.eqb_eq in E as <-. exists [c], s, caps. repeat split; auto. constructor.
  - apply star_greedy_sound in H as (u & s' & -> & Hu & Hk).
    exists u, s', caps. repeat split; auto. now constructor.
  - destruct s as [|c s]; [discriminate|]. destruct (p c) eqn:Hp; [|discriminate].
    apply star_greedy_sound in H as (u & s' & -> & Hu & Hk).
    exists (c :: u), s', caps. repeat split; auto. now constructor.
  - destruct (rmatch r s caps k) as [res'|] eqn:Hr.
    + injection H as <-. destruct (IH _ _ _ _ Hr) as (u & s' & caps' & -> & Hm & Hk).
      exists u, s', caps'. repeat split; auto. now apply M_opt_some.
    + exists [], s, caps. repeat split; auto. apply M_opt_none.
  - apply IH1 in H as (u1 & s1 & caps1 & -> & Hm1 & H).
    apply IH2 in H as (u2 & s2 & caps2 & -> & Hm2 & H).
    exists (u1 ++ u2), s2, caps2. rewrite <- app_assoc. repeat split; auto.
    econstructor; eauto.
  - apply IH in H as (u & s' & caps' & -> & Hm & H).
    rewrite consumed_app in H.
    exists u, s', ((n, u) :: caps'). repeat split; auto. now constructor.
Qed.

Lemma rmatch_complete r u caps0 caps' :
  matches r u caps0 caps' ->
  forall s' caps (k : list ascii -> captures -> option R),
    (forall c, is_Some (k s' c)) -> is_Some (rmatch r (u ++ s') caps k).
Proof.
  induction 1 as [c caps0|p u caps0 Hu|p c u caps0 Hc Hu|r u caps0 caps' Hm IH
                 |r caps0|r1 r2 u1 u2 caps0 caps1 caps2 Hm1 IH1 Hm2 IH2
                 |n r u caps0 caps' Hm IH]; intros s' caps k Hk; simpl.
  - rewrite Ascii.eqb_refl. apply Hk.
  - apply star_greedy_complete; auto.
  - rewrite Hc. apply star_greedy_complete; auto.
  - destruct (IH s' caps k Hk) as [res ->]. eauto.
  - destruct (rmatch r s' caps k); eauto.
  - rewrite <- app_assoc. apply IH1. intros c. apply IH2, Hk.
  - apply IH. intros c. apply Hk.
Qed.

End Matcher.

(** A match at the head of [s] is a declarative match of a prefix, and a
    declarative match of a prefix gives a match. *)
Lemma match_at_sound r s caps rest :
  match_at r s = Some (caps, rest) ->
  exists u, s = u ++ rest /\ matches r u [] caps.
Proof.
  unfold match_at. intros H.
  apply rmatch_sound in H as (u & s' & caps' & -> & Hm & H).
  injection H as <- <-. eauto.
Qed.

Lemma match_at_complete r u caps s' :
  matches r u [] caps -> is_Some (match_at r (u ++ s')).
Proof.
  intros Hm. unfold match_at. eapply rmatch_complete; eauto.
Qed.

Lemma occurs_at_match_at r s i :
  occurs_at r s i <-> is_Some (match_at r (drop i s)).
Proof.
  split.
  - intros (u & caps & Hm & [s' ->]). eapply match_at_complete; eauto.
  - intros [[caps rest] H]. apply match_at_sound in H as (u & Hs & Hm).
    exists u, caps. split; [exact Hm|]. exists rest. exact Hs.
Qed.

(** [search] finds the leftmost position that has a match. *)
Lemma search_Some r s i m :
  search r s = Some (i, m) ->
  match_at r (drop i s) = Some m
  /\ forall j, (j < i)%nat -> match_at r (drop j s) = None.
Proof.
  revert i. induction s as [|c s IH]; intros i; simpl.
  - destruct (match_at r []) eqn:E; [|discriminate].
    intros H. injection H as <- <-. split; [exact E|]. intros j Hj. lia.
  - destruct (match_at r (c :: s)) eqn:E.
    + intros H. injection H as <- <-. split; [exact E|]. intros j Hj. lia.
    + destruct (search r s) as [[i' m']|]; [|discriminate].
      intros H. injection H as <- <-. destruct (IH i' eq_refl) as [H1 H2].
      split; [exact H1|]. intros [|j] Hj; [exact E|]. simpl. apply H2. lia.
Qed.

Lemma search_None r s :
  search r s = None -> forall j, match_at r (drop j s) = None.
Proof.
  induction s as [|c s IH]; simpl.
  - destruct (match_at r []) eqn:E; [discriminate|]. intros _ j. now rewrite drop_nil.
  - destruct (match_at r (c :: s)) eqn:E; [discriminate|].
    destruct (search r s) as [[i' m']|]; [discriminate|].
    intros _ [|j]; [exact E|]. simpl. now apply IH.
Qed.

End RegexFacts.

(* ================================================================= *)
(** ** The matches of [finditer] *)

Module FinditerFacts.
Import PyStr Regex RegexFacts.

Lemma last_app_or {A} (l1 l2 : list A) :
  last (l1 ++ l2) = match last l2 with Some x => Some x | None => last l1 end.
Proof.
  destruct l2 as [|x l2 _] using rev_ind.
  - now rewrite app_nil_r.
  - now rewrite app_assoc, !last_snoc.
Qed.

Lemma all_from_skip r k : forall t,
  (k <= length t)%nat ->
  (forall j, (j < k)%nat -> match_at r (drop j t) = None) ->
  all_from r t = all_from r (drop k t).
Proof.
  induction k as [|k IH]; intros t Hk Hnone; [reflexivity|].
  destruct t as [|c t]; [simpl in Hk; lia|].
  pose proof (Hnone O ltac:(lia)) as H0. simpl in H0. simpl. rewrite H0. simpl.
  apply IH; [simpl in Hk; lia|].
  intros j Hj. apply (Hnone (S j)). lia.
Qed.

Lemma finditer_from_all r :
  no_overlap r ->
  forall s skip, (skip <= length s)%nat ->
    finditer_from r skip s = all_from r (drop skip s).
Proof.
  intros Hno s. induction s as [|c s IH]; intros skip Hskip.
  - destruct skip; [|simpl in Hskip; lia]. simpl.
    destruct (match_at r []); now rewrite ?app_nil_r.
  - destruct skip as [|n]; simpl.
    + destruct (match_at r (c :: s)) as [m|] eqn:E; simpl.
      * f_equal. rewrite IH by lia.
        symmetry. apply all_from_skip; [lia|].
        intros j Hj. apply (Hno (c :: s) m E (S j)). simpl. lia.
      * apply (IH O). lia.
    + apply IH. simpl in Hskip. lia.
Qed.

Lemma finditer_all r s : no_overlap r -> finditer r s = all_from r s.
Proof. intros Hno. apply (finditer_from_all r Hno s O). lia. Qed.

(** The last element of [all_from] is the match at the last position that
    has one. *)
Lemma last_all_from_Some r s m :
  last (all_from r s) = Some m ->
  exists i, (i <= length s)%nat /\ match_at r (drop i s) = Some m
    /\ forall j, (i < j <= length s)%nat -> match_at r (drop j s) = None.
Proof.
  revert m. induction s as [|c s IH]; intros m; simpl.
  - rewrite app_nil_r. destruct (match_at r []) eqn:E; [|discriminate].
    simpl. intros H. injection H as <-. exists O. repeat split; auto. intros j Hj. lia.
  - rewrite last_app_or. destruct (last (all_from r s)) as [m'|] eqn:El.
    + intros H. injection H as <-. destruct (IH m' eq_refl) as (i & Hi & Hm & Hlast).
      exists (S i). split; [lia|]. split; [exact Hm|].
      intros [|j] Hj; [lia|]. simpl. apply Hlast. lia.
    + destruct (match_at r (c :: s)) eqn:E; [|discriminate].
      simpl. intros H. injection H as <-. exists O. split; [lia|]. split; [exact E|].
      intros [|j] Hj; [lia|]. simpl.
      clear -El. revert j. induction s as [|c' s IH']; intros j.
      * simpl in El. rewrite app_nil_r in El. rewrite drop_nil.
        now destruct (match_at r []).
      * simpl in El. rewrite last_app_or in El.
        destruct (last (all_from r s)) eqn:El'; [discriminate|].
        destruct (match_at r (c' :: s)) eqn:E'; [discriminate|].
        destruct j as [|j]; [exact E'|]. simpl. now apply IH'.
Qed.

Lemma last_all_from_None r s :
  last (all_from r s) = None -> forall j, match_at r (drop j s) = None.
Proof.
  induction s as [|c s IH]; simpl.
  - rewrite app_nil_r. intros H j. rewrite drop_nil. now destruct (match_at r []).
  - rewrite last_app_or. destruct (last (all_from r s)) eqn:El; [discriminate|].
    destruct (match_at r (c :: s)) eqn:E; [discriminate|].
    intros _ [|j]; [exact E|]. simpl. now apply IH.
Qed.

End FinditerFacts.

(* ================================================================= *)
(** ** The two answer patterns *)

Module PatternFacts.
Import Float64 PyStr Regex RegexFacts Coordinates.

(** *** Characters *)

Lemma space_chars c :
  is_space c = true ->
  is_digit c = false /\ c <> "."%char /\ c <> ","%char /\ c <> "]"%char
  /\ c <> "["%char.
Proof.
  destruct c as [[] [] [] [] [] [] [] []]; vm_compute; intros H;
    try discriminate H; repeat split; discriminate.
Qed.

Lemma digit_chars c :
  is_digit c = true ->
  is_space c = false /\ c <> "."%char /\ c <> ","%char /\ c <> "]"%char
  /\ c <> "["%char.
Proof.
  destruct c as [[] [] [] [] [] [] [] []]; vm_compute; intros H;
    try discriminate H; repeat split; discriminate.
Qed.

Lemma sep_chars c :
  is_sep c -> is_space c = false /\ is_digit c = false /\ c <> "."%char
  /\ c <> "["%char.
Proof. intros [-> | ->]; repeat split; discriminate. Qed.

(** *** Cancellation *)

Lemma span_cancel (p : ascii -> bool) w : forall v x y,
  forallb p w = true -> forallb p v = true ->
  (forall c, head x = Some c -> p c = false) ->
  (forall c, head y = Some c -> p c = false) ->
  w ++ x = v ++ y -> w = v /\ x = y.
Proof.
  induction w as [|a w IH]; intros [|b v] x y Hw Hv Hx Hy E; simpl in *.
  - auto.
  - subst x. apply andb_true_iff in Hv as [Hb _].
    rewrite (Hx b eq_refl) in Hb. discriminate.
  - subst y. apply andb_true_iff in Hw as [Ha _].
    rewrite (Hy a eq_refl) in Ha. discriminate.
  - injection E as -> E. apply andb_true_iff in Hw as [_ Hw].
    apply andb_true_iff in Hv as [_ Hv].
    destruct (IH v x y Hw Hv Hx Hy E) as [-> ->]. auto.
Qed.

Lemma num_cancel n m x y :
  is_num n -> is_num m ->
  (forall c, head x = Some c -> is_digit c = false /\ c <> "."%char) ->
  (forall c, head y = Some c -> is_digit c = false /\ c <> "."%char) ->
  n ++ x = m ++ y -> n = m /\ x = y.
Proof.
  intros (a & ds & frac & -> & Ha & Hds & Hfrac) (a' & ds' & frac' & -> & Ha' & Hds' & Hfrac')
         Hx Hy E.
  assert (Hstop : forall fr z, (fr = [] \/ exists b fs, fr = "."%char :: b :: fs
                      /\ is_digit b = true /\ forallb is_digit fs = true) ->
            (forall c, head z = Some c -> is_digit c = false /\ c <> "."%char) ->
            forall c, head (fr ++ z) = Some c -> is_digit c = false).
  { intros fr z [-> | (b & fs & -> & _)] Hz c Hc; simpl in Hc.
    - now apply Hz.
    - injection Hc as <-. reflexivity. }
  destruct (span_cancel is_digit (a :: ds) (a' :: ds') (frac ++ x) (frac' ++ y))
    as [E1 E2].
  - simpl. now rewrite Ha, Hds.
  - simpl. now rewrite Ha', Hds'.
  - now apply Hstop.
  - now apply Hstop.
  - simpl in E |- *. rewrite <- !app_assoc in E. exact E.
  - injection E1 as -> ->.
    destruct Hfrac as [-> | (b & fs & -> & Hb & Hfs)];
      destruct Hfrac' as [-> | (b' & fs' & -> & Hb' & Hfs')]; simpl in E2.
    + subst. now rewrite !app_nil_r.
    + subst x. destruct (Hx _ eq_refl) as [_ H]. congruence.
    + subst y. destruct (Hy _ eq_refl) as [_ H]. congruence.
    + injection E2 as -> E2.
      destruct (span_cancel is_digit fs fs' x y Hfs Hfs') as [-> ->]; auto.
      * intros c Hc. now apply Hx.
      * intros c Hc. now apply Hy.
Qed.

Lemma field_cancel n f m g a b x y :
  field_of n f -> field_of m g -> is_sep a -> is_sep b ->
  f ++ a :: x = g ++ b :: y -> n = m /\ f = g /\ a :: x = b :: y.
Proof.
  intros (w & w' & Hw & Hw' & Hn & ->) (v & v' & Hv & Hv' & Hm & ->) Ha Hb E.
  rewrite <- !app_assoc in E.
  assert (Hnum : forall k z, is_num k -> forall c, head (k ++ z) = Some c ->
                   is_space c = false).
  { intros k z (d & ds & fr & -> & Hd & _) c Hc. simpl in Hc. injection Hc as <-.
    now apply digit_chars. }
  assert (Hafter : forall sp c0 z, is_ws sp -> is_sep c0 ->
            forall c, head (sp ++ c0 :: z) = Some c ->
              is_digit c = false /\ c <> "."%char).
  { intros [|s0 sp] c0 z Hsp Hc0 c Hc; simpl in Hc; injection Hc as <-.
    - destruct (sep_chars _ Hc0) as (_ & ? & ? & _). auto.
    - unfold is_ws in Hsp. simpl in Hsp. apply andb_true_iff in Hsp as [Hs0 _].
      destruct (space_chars _ Hs0) as (? & ? & _). auto. }
  destruct (span_cancel is_space w v _ _ Hw Hv (Hnum _ _ Hn) (Hnum _ _ Hm) E)
    as [-> E1].
  destruct (num_cancel n m _ _ Hn Hm (Hafter _ _ _ Hw' Ha) (Hafter _ _ _ Hv' Hb) E1)
    as [-> E2].
  destruct (span_cancel is_space w' v' (a :: x) (b :: y) Hw' Hv') as [-> E3].
  - intros c Hc. injection Hc as <-. now apply sep_chars.
  - intros c Hc. injection Hc as <-. now apply sep_chars.
  - exact E2.
  - auto.
Qed.

(** *** Inversion of a match *)

Lemma matches_chr_inv a u c c' : matches (Chr a) u c c' -> u = [a] /\ c' = c.
Proof. inversion 1; auto. Qed.

Lemma matches_star_inv p u c c' :
  matches (Star p) u c c' -> forallb p u = true /\ c' = c.
Proof. inversion 1; auto. Qed.

Lemma matches_plus_inv p u c c' :
  matches (Plus p) u c c' ->
  exists a u', u = a :: u' /\ p a = true /\ forallb p u' = true /\ c' = c.
Proof. inversion 1; subst; eauto 10. Qed.

Lemma matches_opt_inv r u c c' :
  matches (Opt r) u c c' -> (u = [] /\ c' = c) \/ matches r u c c'.
Proof. inversion 1; subst; auto. Qed.

Lemma matches_seq_inv r1 r2 u c c' :
  matches (r1 >>> r2) u c c' ->
  exists u1 u2 c1, u = u1 ++ u2 /\ matches r1 u1 c c1 /\ matches r2 u2 c1 c'.
Proof. inversion 1; subst; eauto 10. Qed.

Lemma matches_group_inv n r u c c' :
  matches (Group n r) u c c' -> exists c1, matches r u c c1 /\ c' = (n, u) :: c1.
Proof. inversion 1; subst; eauto. Qed.

Lemma num_inv n u c c' : matches (_NUM n) u c c' -> is_num u /\ c' = (n, u) :: c.
Proof.
  unfold _NUM. intros H.
  apply matches_group_inv in H as (c1 & H & ->).
  apply matches_seq_inv in H as (u1 & u2 & c2 & -> & H1 & H2).
  apply matches_plus_inv in H1 as (a & ds & -> & Ha & Hds & ->).
  apply matches_opt_inv in H2 as [[-> ->] | H2].
  - split; [|reflexivity]. exists a, ds, []. simpl. rewrite !app_nil_r.
    repeat split; auto.
  - apply matches_seq_inv in H2 as (v1 & v2 & c3 & -> & H3 & H4).
    apply matches_chr_inv in H3 as [-> ->].
    apply matches_plus_inv in H4 as (b & fs & -> & Hb & Hfs & ->).
    split; [|reflexivity]. exists a, ds, ("."%char :: b :: fs).
    repeat split; auto. right. eauto 10.
Qed.

Lemma field_inv n r u c c' :
  matches (Star is_space >>> _NUM n >>> Star is_space >>> r) u c c' ->
  exists nn f x, u = f ++ x /\ field_of nn f /\ matches r x ((n, nn) :: c) c'.
Proof.
  intros H.
  apply matches_seq_inv in H as (w & u1 & c1 & -> & Hw & H).
  apply matches_star_inv in Hw as [Hw ->].
  apply matches_seq_inv in H as (nn & u2 & c2 & -> & Hn & H).
  apply num_inv in Hn as [Hn ->].
  apply matches_seq_inv in H as (w' & x & c3 & -> & Hw' & H).
  apply matches_star_inv in Hw' as [Hw' ->].
  exists nn, (w ++ nn ++ w'), x. split; [now rewrite <- !app_assoc|].
  split; [|exact H]. exists w, w'. auto.
Qed.

Lemma point_inv u c0 caps :
  matches POINT_PATTERN u c0 caps ->
  exists n1 f1 n2 f2,
    field_of n1 f1 /\ field_of n2 f2 /\ u = point_text f1 f2
    /\ caps = (2%nat, n2) :: (1%nat, n1) :: c0.
Proof.
  unfold POINT_PATTERN. intros H.
  apply matches_seq_inv in H as (b1 & u1 & c1 & -> & Hb & H).
  apply matches_chr_inv in Hb as [-> ->].
  apply matches_seq_inv in H as (b2 & u2 & c2 & -> & Hb & H).
  apply matches_chr_inv in Hb as [-> ->].
  apply field_inv in H as (n1 & f1 & x1 & -> & Hf1 & H).
  apply matches_seq_inv in H as (b3 & u3 & c3 & -> & Hb & H).
  apply matches_chr_inv in Hb as [-> ->].
  apply field_inv in H as (n2 & f2 & x2 & -> & Hf2 & H).
  apply matches_seq_inv in H as (b4 & u4 & c4 & -> & Hb & H).
  apply matches_chr_inv in Hb as [-> ->].
  apply matches_chr_inv in H as [-> ->].
  exists n1, f1, n2, f2. repeat split; auto.
  all: unfold point_text; simpl; now rewrite <- !app_assoc.
Qed.

Lemma bbox_inv u c0 caps :
  matches BBOX_PATTERN u c0 caps ->
  exists n1 f1 n2 f2 n3 f3 n4 f4,
    field_of n1 f1 /\ field_of n2 f2 /\ field_of n3 f3 /\ field_of n4 f4
    /\ u = bbox_text f1 f2 f3 f4
    /\ caps = (4%nat, n4) :: (3%nat, n3) :: (2%nat, n2) :: (1%nat, n1) :: c0.
Proof.
  unfold BBOX_PATTERN. intros H.
  apply matches_seq_inv in H as (b1 & u1 & c1 & -> & Hb & H).
  apply matches_chr_inv in Hb as [-> ->].
  apply matches_seq_inv in H as (b2 & u2 & c2 & -> & Hb & H).
  apply matches_chr_inv in Hb as [-> ->].
  apply field_inv in H as (n1 & f1 & x1 & -> & Hf1 & H).
  apply matches_seq_inv in H as (b3 & u3 & c3 & -> & Hb & H).
  apply matches_chr_inv in Hb as [-> ->].
  apply field_inv in H as (n2 & f2 & x2 & -> & Hf2 & H).
  apply matches_seq_inv in H as (b4 & u4 & c4 & -> & Hb & H).
  apply matches_chr_inv in Hb as [-> ->].
  apply field_inv in H as (n3 & f3 & x3 & -> & Hf3 & H).
  apply matches_seq_inv in H as (b5 & u5 & c5 & -> & Hb & H).
  apply matches_chr_inv in Hb as [-> ->].
  apply field_inv in H as (n4 & f4 & x4 & -> & Hf4 & H).
  apply matches_seq_inv in H as (b6 & u6 & c6 & -> & Hb & H).
  apply matches_chr_inv in Hb as [-> ->].
  apply matches_chr_inv in H as [-> ->].
  exists n1, f1, n2, f2, n3, f3, n4, f4. repeat split; auto.
  all: unfold bbox_text; simpl; now rewrite <- !app_assoc.
Qed.

(** *** One reading per position *)

Ltac norm_app E :=
  simpl in E; repeat (rewrite <- app_assoc in E; simpl in E).

Lemma point_unique u u' c0 caps caps' r r' :
  matches POINT_PATTERN u c0 caps -> matches POINT_PATTERN u' c0 caps' ->
  u ++ r = u' ++ r' -> u = u' /\ caps = caps' /\ r = r'.
Proof.
  intros H H' E.
  apply point_inv in H as (n1 & f1 & n2 & f2 & Hf1 & Hf2 & -> & ->).
  apply point_inv in H' as (m1 & g1 & m2 & g2 & Hg1 & Hg2 & -> & ->).
  unfold point_text in *. norm_app E. injection E as E.
  destruct (field_cancel _ _ _ _ _ _ _ _ Hf1 Hg1 (or_introl eq_refl) (or_introl eq_refl) E)
    as (-> & -> & E1).
  injection E1 as E1.
  destruct (field_cancel _ _ _ _ _ _ _ _ Hf2 Hg2 (or_intror eq_refl) (or_intror eq_refl) E1)
    as (-> & -> & E2).
  injection E2 as ->. auto.
Qed.

Lemma bbox_unique u u' c0 caps caps' r r' :
  matches BBOX_PATTERN u c0 caps -> matches BBOX_PATTERN u' c0 caps' ->
  u ++ r = u' ++ r' -> u = u' /\ caps = caps' /\ r = r'.
Proof.
  intros H H' E.
  apply bbox_inv in H
    as (n1 & f1 & n2 & f2 & n3 & f3 & n4 & f4 & Hf1 & Hf2 & Hf3 & Hf4 & -> & ->).
  apply bbox_inv in H'
    as (m1 & g1 & m2 & g2 & m3 & g3 & m4 & g4 & Hg1 & Hg2 & Hg3 & Hg4 & -> & ->).
  unfold bbox_text in *. norm_app E. injection E as E.
  destruct (field_cancel _ _ _ _ _ _ _ _ Hf1 Hg1 (or_introl eq_refl) (or_introl eq_refl) E)
    as (-> & -> & E1).
  injection E1 as E1.
  destruct (field_cancel _ _ _ _ _ _ _ _ Hf2 Hg2 (or_introl eq_refl) (or_introl eq_refl) E1)
    as (-> & -> & E2).
  injection E2 as E2.
  destruct (field_cancel _ _ _ _ _ _ _ _ Hf3 Hg3 (or_introl eq_refl) (or_introl eq_refl) E2)
    as (-> & -> & E3).
  injection E3 as E3.
  destruct (field_cancel _ _ _ _ _ _ _ _ Hf4 Hg4 (or_intror eq_refl) (or_intror eq_refl) E3)
    as (-> & -> & E4).
  injection E4 as ->. auto.
Qed.

(** No text starts with both a point and a bounding box. *)
Lemma point_bbox_disjoint u u' c0 c0' caps caps' r r' :
  matches POINT_PATTERN u c0 caps -> matches BBOX_PATTERN u' c0' caps' ->
  u ++ r = u' ++ r' -> False.
Proof.
  intros H H' E.
  apply point_inv in H as (n1 & f1 & n2 & f2 & Hf1 & Hf2 & -> & ->).
  apply bbox_inv in H'
    as (m1 & g1 & m2 & g2 & m3 & g3 & m4 & g4 & Hg1 & Hg2 & Hg3 & Hg4 & -> & ->).
  unfold point_text, bbox_text in *. norm_app E. injection E as E.
  destruct (field_cancel _ _ _ _ _ _ _ _ Hf1 Hg1 (or_introl eq_refl) (or_introl eq_refl) E)
    as (-> & -> & E1).
  injection E1 as E1.
  destruct (field_cancel _ _ _ _ _ _ _ _ Hf2 Hg2 (or_intror eq_refl) (or_introl eq_refl) E1)
    as (_ & _ & E2).
  discriminate E2.
Qed.

(** *** The numbers of the groups *)

Lemma take_drop_while_app (p : ascii -> bool) w x :
  forallb p w = true -> (forall c, head x = Some c -> p c = false) ->
  take_while p (w ++ x) = w /\ drop_while p (w ++ x) = x.
Proof.
  intros Hw Hx. induction w as [|a w IH]; simpl.
  - destruct x as [|c x]; [auto|]. simpl. now rewrite (Hx c eq_refl).
  - simpl in Hw. apply andb_true_iff in Hw as [Ha Hw]. rewrite Ha.
    destruct (IH Hw) as [-> ->]. auto.
Qed.

Lemma float_of_str_num u : is_num u -> is_Some (float_of_str u).
Proof.
  intros (a & ds & frac & -> & Ha & Hds & Hfrac). unfold float_of_str.
  change (a :: ds ++ frac) with ((a :: ds) ++ frac).
  destruct (take_drop_while_app is_digit (a :: ds) frac) as [-> ->].
  - simpl. now rewrite Ha, Hds.
  - destruct Hfrac as [-> | (b & fs & -> & _)]; intros c Hc; simpl in Hc;
      [discriminate|]. now injection Hc as <-.
  - destruct Hfrac as [-> | (b & fs & -> & Hb & Hfs)]; [eauto|].
    cbn [Ascii.eqb forallb length Nat.eqb negb andb]. rewrite Hb, Hfs.
    change (Ascii.eqb "." ".") with true. simpl. eauto.
Qed.

Lemma field_num n f : field_of n f -> is_num n.
Proof. now intros (w & w' & _ & _ & Hn & _). Qed.

(** *** The matches of the box pattern do not overlap *)

Lemma field_no_bracket n f : field_of n f -> Forall (fun c => c <> "["%char) f.
Proof.
  intros (w & w' & Hw & Hw' & (a & ds & frac & -> & Ha & Hds & Hfrac) & ->).
  assert (Hsp : forall l, forallb is_space l = true -> Forall (fun c => c <> "["%char) l).
  { intros l Hl. apply Forall_forall. intros c Hc. apply list_elem_of_In in Hc.
    rewrite forallb_forall in Hl. now apply space_chars, Hl. }
  assert (Hdg : forall l, forallb is_digit l = true -> Forall (fun c => c <> "["%char) l).
  { intros l Hl. apply Forall_forall. intros c Hc. apply list_elem_of_In in Hc.
    rewrite forallb_forall in Hl. now apply digit_chars, Hl. }
  apply Forall_app. split; [now apply Hsp|].
  apply Forall_app. split; [|now apply Hsp].
  apply Forall_cons. split; [now apply digit_chars|].
  apply Forall_app. split; [now apply Hdg|].
  destruct Hfrac as [-> | (b & fs & -> & Hb & Hfs)]; [constructor|].
  apply Forall_cons. split; [discriminate|].
  apply Forall_cons. split; [now apply digit_chars|now apply Hdg].
Qed.

Lemma bbox_match_shape s caps rest :
  match_at BBOX_PATTERN s = Some (caps, rest) ->
  exists n1 f1 n2 f2 n3 f3 n4 f4,
    field_of n1 f1 /\ field_of n2 f2 /\ field_of n3 f3 /\ field_of n4 f4
    /\ s = bbox_text f1 f2 f3 f4 ++ rest
    /\ caps = [(4%nat, n4); (3%nat, n3); (2%nat, n2); (1%nat, n1)].
Proof.
  intros H. apply match_at_sound in H as (u & -> & H).
  apply bbox_inv in H
    as (n1 & f1 & n2 & f2 & n3 & f3 & n4 & f4 & Hf1 & Hf2 & Hf3 & Hf4 & -> & ->).
  exists n1, f1, n2, f2, n3, f3, n4, f4. auto 10.
Qed.

Lemma point_match_shape s caps rest :
  match_at POINT_PATTERN s = Some (caps, rest) ->
  exists n1 f1 n2 f2,
    field_of n1 f1 /\ field_of n2 f2
    /\ s = point_text f1 f2 ++ rest
    /\ caps = [(2%nat, n2); (1%nat, n1)].
Proof.
  intros H. apply match_at_sound in H as (u & -> & H).
  apply point_inv in H as (n1 & f1 & n2 & f2 & Hf1 & Hf2 & -> & ->).
  exists n1, f1, n2, f2. auto 10.
Qed.

Lemma bbox_nonempty : nonempty_matches BBOX_PATTERN.
Proof.
  intros s [caps rest] H. simpl.
  apply bbox_match_shape in H as (n1 & f1 & n2 & f2 & n3 & f3 & n4 & f4 & _ & _ & _ & _ & -> & _).
  unfold bbox_text. simpl. rewrite !length_app. simpl. lia.
Qed.

Lemma bbox_no_overlap : no_overlap BBOX_PATTERN.
Proof.
  intros s [caps rest] H j Hj. simpl in Hj.
  apply bbox_match_shape in H
    as (n1 & f1 & n2 & f2 & n3 & f3 & n4 & f4 & Hf1 & Hf2 & Hf3 & Hf4 & -> & _).
  set (body := f1 ++ ","%char :: f2 ++ ","%char :: f3 ++ ","%char :: f4
                 ++ ["]"%char; "]"%char]).
  assert (Hs : bbox_text f1 f2 f3 f4 ++ rest = "["%char :: "["%char :: body ++ rest)
    by reflexivity.
  rewrite Hs in Hj |- *. clear Hs.
  assert (Hbody : Forall (fun c => c <> "["%char) body).
  { unfold body.
    repeat (apply Forall_app; split; [eapply field_no_bracket; eassumption|];
            apply Forall_cons; split; [discriminate|]).
    repeat (apply Forall_cons; split; [discriminate|]). constructor. }
  assert (Hhead : forall k, (k < length body)%nat ->
            exists c t, drop k (body ++ rest) = c :: t /\ c <> "["%char).
  { intros k Hk. destruct (lookup_lt_is_Some_2 body k Hk) as [c Hc].
    exists c, (drop (S k) (body ++ rest)). split.
    - apply drop_S. now apply lookup_app_l_Some.
    - rewrite Forall_forall in Hbody. apply Hbody.
      eapply list_elem_of_lookup_2; eauto. }
  simpl in Hj. rewrite length_app in Hj.
  destruct (match_at BBOX_PATTERN (drop j ("["%char :: "["%char :: body ++ rest)))
    as [[caps' rest']|] eqn:E; [exfalso|reflexivity].
  apply bbox_match_shape in E as (? & g1 & ? & g2 & ? & g3 & ? & g4 & _ & _ & _ & _ & E & _).
  unfold bbox_text in E.
  destruct j as [|[|k]]; [lia| |].
  - destruct (Hhead O ltac:(unfold body; rewrite length_app; simpl; lia))
      as (c & t & Hd & Hc).
    change (drop 1 ("["%char :: "["%char :: body ++ rest))
      with ("["%char :: drop 0 (body ++ rest)) in E.
    rewrite Hd in E. inversion E. congruence.
  - destruct (Hhead k ltac:(lia)) as (c & t & Hd & Hc).
    change (drop (S (S k)) ("["%char :: "["%char :: body ++ rest))
      with (drop k (body ++ rest)) in E.
    rewrite Hd in E. inversion E. congruence.
Qed.

Lemma finditer_bbox s : finditer BBOX_PATTERN s = all_from BBOX_PATTERN s.
Proof. apply FinditerFacts.finditer_all, bbox_no_overlap. Qed.

Lemma bbox_onlyb_spec s : bbox_onlyb s = true -> bbox_only s.
Proof.
  unfold bbox_onlyb, bbox_only. intros H i Hi. rewrite forallb_forall in H.
  destruct (le_lt_dec i (length s)) as [Hle|Hgt].
  - specialize (H i ltac:(apply in_seq; lia)). rewrite Hi in H. simpl in H.
    apply occurs_at_match_at. destruct (match_at BBOX_PATTERN (drop i s)); [eauto|discriminate].
  - rewrite drop_ge in Hi by lia. discriminate.
Qed.

End PatternFacts.

(* ================================================================= *)
(** ** The point an answer designates *)

Module AnswerFacts.
Import Float64 PyStr Regex RegexFacts FinditerFacts Coordinates PatternFacts Vision.

Lemma truthy_chars text : chars text <> [] -> truthy text = true.
Proof. destruct text; [intros H; now contradiction H|reflexivity]. Qed.

Lemma match_at_nil_point : match_at POINT_PATTERN [] = None.
Proof. reflexivity. Qed.

Lemma match_at_nil_bbox : match_at BBOX_PATTERN [] = None.
Proof. reflexivity. Qed.

Lemma occurs_nonempty r s i :
  match_at r [] = None -> occurs_at r s i -> (i < length s)%nat /\ s <> [].
Proof.
  intros Hnil Hocc. apply occurs_at_match_at in Hocc.
  destruct (le_lt_dec (length s) i) as [Hge|Hlt].
  - rewrite drop_ge, Hnil in Hocc by lia. now destruct Hocc.
  - split; [exact Hlt|]. intros ->. simpl in Hlt. lia.
Qed.

(** The first extractor returns the numbers of the leftmost point. *)
Lemma extract_first_point_leftmost text i u caps :
  matches POINT_PATTERN u [] caps -> u `prefix_of` drop i (chars text) ->
  (forall j, (j < i)%nat -> ~ occurs_at POINT_PATTERN (chars text) j) ->
  exists n1 n2 x y,
    caps = [(2%nat, n2); (1%nat, n1)]
    /\ float_of_str n1 = Some x /\ float_of_str n2 = Some y
    /\ extract_first_point text = Some (x, y).
Proof.
  intros Hm [r Hr] Hleft. unfold extract_first_point.
  assert (Hocc : occurs_at POINT_PATTERN (chars text) i)
    by (exists u, caps; split; [exact Hm|now exists r]).
  destruct (search POINT_PATTERN (chars text)) as [[i' [caps' rest']]|] eqn:Es.
  - apply search_Some in Es as [Hat Hnone].
    assert (i' = i) as ->.
    { destruct (lt_eq_lt_dec i' i) as [[Hlt|Heq]|Hgt]; [|exact Heq|].
      - exfalso. apply (Hleft i' Hlt). apply occurs_at_match_at. rewrite Hat. eauto.
      - exfalso. apply occurs_at_match_at in Hocc. rewrite (Hnone i Hgt) in Hocc.
        now destruct Hocc. }
    apply match_at_sound in Hat as (u' & Hu' & Hm').
    rewrite Hr in Hu'.
    destruct (point_unique _ _ _ _ _ _ _ Hm Hm' Hu') as (<- & <- & <-).
    apply point_inv in Hm as (n1 & f1 & n2 & f2 & Hn1 & Hn2 & _ & ->).
    apply field_num in Hn1, Hn2.
    destruct (float_of_str_num _ Hn1) as [x Hx].
    destruct (float_of_str_num _ Hn2) as [y Hy].
    exists n1, n2, x, y. unfold float_group. simpl. rewrite Hx, Hy. auto.
  - exfalso. apply occurs_at_match_at in Hocc.
    rewrite (search_None _ _ Es i) in Hocc. now destruct Hocc.
Qed.

Lemma extract_first_point_absent text :
  (forall j, ~ occurs_at POINT_PATTERN (chars text) j) ->
  extract_first_point text = None.
Proof.
  intros Hno. unfold extract_first_point.
  destruct (search POINT_PATTERN (chars text)) as [[i [caps rest]]|] eqn:Es;
    [|reflexivity].
  apply search_Some in Es as [Hat _]. exfalso. apply (Hno i).
  apply occurs_at_match_at. rewrite Hat. eauto.
Qed.

(** The second extractor returns the numbers of the rightmost box. *)
Lemma extract_last_bbox_rightmost text i u caps :
  matches BBOX_PATTERN u [] caps -> u `prefix_of` drop i (chars text) ->
  (forall j, (i < j)%nat -> ~ occurs_at BBOX_PATTERN (chars text) j) ->
  exists n1 n2 n3 n4 x1 y1 x2 y2,
    caps = [(4%nat, n4); (3%nat, n3); (2%nat, n2); (1%nat, n1)]
    /\ float_of_str n1 = Some x1 /\ float_of_str n2 = Some y1
    /\ float_of_str n3 = Some x2 /\ float_of_str n4 = Some y2
    /\ extract_last_bbox text = Some (x1, y1, x2, y2).
Proof.
  intros Hm [r Hr] Hright. unfold extract_last_bbox. rewrite finditer_bbox.
  assert (Hocc : occurs_at BBOX_PATTERN (chars text) i)
    by (exists u, caps; split; [exact Hm|now exists r]).
  destruct (occurs_nonempty _ _ _ match_at_nil_bbox Hocc) as [Hi _].
  destruct (last (all_from BBOX_PATTERN (chars text))) as [[caps' rest']|] eqn:El.
  - apply last_all_from_Some in El as (i' & Hi' & Hat & Hnone).
    assert (i' = i) as ->.
    { destruct (lt_eq_lt_dec i' i) as [[Hlt|Heq]|Hgt]; [|exact Heq|].
      - exfalso. apply occurs_at_match_at in Hocc.
        rewrite (Hnone i ltac:(lia)) in Hocc. now destruct Hocc.
      - exfalso. apply (Hright i' Hgt). apply occurs_at_match_at. rewrite Hat. eauto. }
    apply match_at_sound in Hat as (u' & Hu' & Hm').
    rewrite Hr in Hu'.
    destruct (bbox_unique _ _ _ _ _ _ _ Hm Hm' Hu') as (<- & <- & <-).
    apply bbox_inv in Hm
      as (n1 & f1 & n2 & f2 & n3 & f3 & n4 & f4 & Hn1 & Hn2 & Hn3 & Hn4 & _ & ->).
    apply field_num in Hn1, Hn2, Hn3, Hn4.
    destruct (float_of_str_num _ Hn1) as [x1 Hx1].
    destruct (float_of_str_num _ Hn2) as [y1 Hy1].
    destruct (float_of_str_num _ Hn3) as [x2 Hx2].
    destruct (float_of_str_num _ Hn4) as [y2 Hy2].
    exists n1, n2, n3, n4, x1, y1, x2, y2. unfold float_group. simpl.
    rewrite Hx1, Hy1, Hx2, Hy2. auto 10.
  - exfalso. apply occurs_at_match_at in Hocc.
    rewrite (last_all_from_None _ _ El i) in Hocc. now destruct Hocc.
Qed.

Lemma extract_last_bbox_absent text :
  (forall j, ~ occurs_at BBOX_PATTERN (chars text) j) ->
  extract_last_bbox text = None.
Proof.
  intros Hno. unfold extract_last_bbox. rewrite finditer_bbox.
  destruct (last (all_from BBOX_PATTERN (chars text))) as [[caps rest]|] eqn:El;
    [|reflexivity].
  apply last_all_from_Some in El as (i & _ & Hat & _). exfalso. apply (Hno i).
  apply occurs_at_match_at. rewrite Hat. eauto.
Qed.

(** C5. The parsing step of [_predict_sync] on an answer: when the answer
    holds a point [[[x,y]]], the result is the pair of numbers of the
    leftmost one; when it holds no point and holds a box
    [[[x1,y1,x2,y2]]], the result is the centre
    [((x1 + x2) / 2.0, (y1 + y2) / 2.0)] of the rightmost one; when it
    holds neither, there is no result. *)
Theorem answer_point_precedence :
  forall output_text : string,
    let s := chars output_text in
    (forall i u caps,
        matches POINT_PATTERN u [] caps -> u `prefix_of` drop i s ->
        (forall j, (j < i)%nat -> ~ occurs_at POINT_PATTERN s j) ->
        exists n1 n2 x y,
          caps = [(2%nat, n2); (1%nat, n1)]
          /\ float_of_str n1 = Some x /\ float_of_str n2 = Some y
          /\ extract_first_point output_text = Some (x, y)
          /\ answer_point output_text = Some (x, y))
    /\ ((forall j, ~ occurs_at POINT_PATTERN s j) ->
        forall i u caps,
          matches BBOX_PATTERN u [] caps -> u `prefix_of` drop i s ->
          (forall j, (i < j)%nat -> ~ occurs_at BBOX_PATTERN s j) ->
          exists n1 n2 n3 n4 x1 y1 x2 y2,
            caps = [(4%nat, n4); (3%nat, n3); (2%nat, n2); (1%nat, n1)]
            /\ float_of_str n1 = Some x1 /\ float_of_str n2 = Some y1
            /\ float_of_str n3 = Some x2 /\ float_of_str n4 = Some y2
            /\ extract_first_point output_text = None
            /\ extract_last_bbox output_text = Some (x1, y1, x2, y2)
            /\ answer_point output_text
               = Some (fdiv (fadd x1 x2) f2_0, fdiv (fadd y1 y2) f2_0))
    /\ ((forall j, ~ occurs_at POINT_PATTERN s j) ->
        (forall j, ~ occurs_at BBOX_PATTERN s j) ->
        extract_first_point output_text = None
        /\ extract_last_bbox output_text = None
        /\ answer_point output_text = None).
Proof.
  intros output_text s. split; [|split].
  - intros i u caps Hm Hp Hleft.
    destruct (extract_first_point_leftmost _ _ _ _ Hm Hp Hleft)
      as (n1 & n2 & x & y & Hc & Hx & Hy & He).
    exists n1, n2, x, y. repeat split; auto.
    unfold answer_point. rewrite He.
    assert (Hocc : occurs_at POINT_PATTERN s i).
    { destruct Hp as [r Hr]. exists u, caps. split; [exact Hm|now exists r]. }
    destruct (occurs_nonempty _ _ _ match_at_nil_point Hocc) as [_ Hne].
    now rewrite (truthy_chars _ Hne).
  - intros Hnop i u caps Hm Hp Hright.
    destruct (extract_last_bbox_rightmost _ _ _ _ Hm Hp Hright)
      as (n1 & n2 & n3 & n4 & x1 & y1 & x2 & y2 & Hc & Hx1 & Hy1 & Hx2 & Hy2 & He).
    exists n1, n2, n3, n4, x1, y1, x2, y2.
    pose proof (extract_first_point_absent _ Hnop) as Hfp.
    repeat split; auto.
    unfold answer_point. rewrite Hfp, He.
    assert (Hocc : occurs_at BBOX_PATTERN s i).
    { destruct Hp as [r Hr]. exists u, caps. split; [exact Hm|now exists r]. }
    destruct (occurs_nonempty _ _ _ match_at_nil_bbox Hocc) as [_ Hne].
    now rewrite (truthy_chars _ Hne).
  - intros Hnop Hnob.
    pose proof (extract_first_point_absent _ Hnop) as Hfp.
    pose proof (extract_last_bbox_absent _ Hnob) as Hlb.
    repeat split; auto. unfold answer_point. rewrite Hfp, Hlb.
    now destruct (truthy output_text).
Qed.

Lemma answer_point_precedence_witness :
  answer_point AnswerExamples.box_then_points
  = Some (float_of_decimal 5 0, float_of_decimal 6 0).
Proof.
  destruct (match_at_sound POINT_PATTERN
              (drop 12 (chars AnswerExamples.box_then_points))
              [(2%nat, ["6"%char]); (1%nat, ["5"%char])]
              (chars " [[7,8]]") eq_refl) as (u & Hu & Hm).
  destruct (proj1 (answer_point_precedence AnswerExamples.box_then_points)
              12%nat u _ Hm (ex_intro _ _ Hu))
    as (n1 & n2 & x & y & Hc & Hx & Hy & _ & Ha).
  - intros j Hj Hocc. apply occurs_at_match_at in Hocc.
    do 12 (destruct j as [|j]; [vm_compute in Hocc; now destruct Hocc|]). lia.
  - injection Hc as <- <-. vm_compute in Hx, Hy.
    injection Hx as <-. injection Hy as <-. exact Ha.
Defined.

Lemma extract_last_bbox_present text i :
  occurs_at BBOX_PATTERN (chars text) i -> is_Some (extract_last_bbox text).
Proof.
  intros Hocc. unfold extract_last_bbox. rewrite finditer_bbox.
  destruct (last (all_from BBOX_PATTERN (chars text))) as [[caps rest]|] eqn:El.
  - apply last_all_from_Some in El as (i' & _ & Hat & _).
    apply bbox_match_shape in Hat
      as (n1 & f1 & n2 & f2 & n3 & f3 & n4 & f4 & Hn1 & Hn2 & Hn3 & Hn4 & _ & ->).
    apply field_num in Hn1, Hn2, Hn3, Hn4.
    destruct (float_of_str_num _ Hn1) as [x1 Hx1].
    destruct (float_of_str_num _ Hn2) as [y1 Hy1].
    destruct (float_of_str_num _ Hn3) as [x2 Hx2].
    destruct (float_of_str_num _ Hn4) as [y2 Hy2].
    unfold float_group. simpl. rewrite Hx1, Hy1, Hx2, Hy2. eauto.
  - exfalso. apply occurs_at_match_at in Hocc.
    rewrite (last_all_from_None _ _ El i) in Hocc. now destruct Hocc.
Qed.

Lemma starts_double_bracket_point f1 f2 r :
  starts_double_bracket (point_text f1 f2 ++ r) = true.
Proof. reflexivity. Qed.

(** C10. In an answer where every double opening bracket starts a
    bounding box [[[x1,y1,x2,y2]]], the point pattern matches nowhere: the
    first extractor returns none and the parsing step takes the branch of
    the box, whose centre it returns when there is a box at all. *)
Theorem first_point_rejects_bbox :
  forall output_text : string,
    bbox_only (chars output_text) ->
    (forall j, ~ occurs_at POINT_PATTERN (chars output_text) j)
    /\ extract_first_point output_text = None
    /\ answer_point output_text
       = match extract_last_bbox output_text with
         | Some (x1, y1, x2, y2) =>
             Some (fdiv (fadd x1 x2) f2_0, fdiv (fadd y1 y2) f2_0)
         | None => None
         end
    /\ ((exists i, occurs_at BBOX_PATTERN (chars output_text) i) ->
        is_Some (extract_last_bbox output_text)
        /\ is_Some (answer_point output_text)).
Proof.
  intros output_text Honly.
  assert (Hnop : forall j, ~ occurs_at POINT_PATTERN (chars output_text) j).
  { intros j (u & caps & Hm & [r Hr]).
    pose proof Hm as Hm0.
    apply point_inv in Hm0 as (n1 & f1 & n2 & f2 & _ & _ & -> & _).
    assert (Hs : starts_double_bracket (drop j (chars output_text)) = true)
      by (rewrite Hr; apply starts_double_bracket_point).
    destruct (Honly j Hs) as (u' & caps' & Hm' & [r' Hr']).
    rewrite Hr in Hr'. exact (point_bbox_disjoint _ _ _ _ _ _ _ _ Hm Hm' Hr'). }
  pose proof (extract_first_point_absent _ Hnop) as Hfp.
  assert (Hans : answer_point output_text
                 = match extract_last_bbox output_text with
                   | Some (x1, y1, x2, y2) =>
                       Some (fdiv (fadd x1 x2) f2_0, fdiv (fadd y1 y2) f2_0)
                   | None => None
                   end).
  { unfold answer_point. rewrite Hfp. destruct output_text; [reflexivity|]. simpl.
    now destruct (extract_last_bbox _) as [[[[x1 y1] x2] y2]|]. }
  split; [exact Hnop|]. split; [exact Hfp|]. split; [exact Hans|].
  intros [i Hocc]. destruct (extract_last_bbox_present _ _ Hocc) as [[[[x1 y1] x2] y2] He].
  split; [rewrite He; eauto|]. rewrite Hans, He. eauto.
Qed.

Lemma first_point_rejects_bbox_witness :
  extract_first_point AnswerExamples.two_boxes = None
  /\ answer_point AnswerExamples.two_boxes
     = Some (float_of_decimal 200 0, float_of_decimal 30025 2).
Proof.
  destruct (first_point_rejects_bbox AnswerExamples.two_boxes)
    as (_ & Hfp & Hans & _).
  - apply bbox_onlyb_spec. vm_compute. reflexivity.
  - split; [exact Hfp|]. rewrite Hans. vm_compute. reflexivity.
Defined.

End AnswerFacts.

(* ================================================================= *)
(** ** The session cache and the service *)

Module ServiceFacts.
Import Float64 PyStr OcrText Coordinates Tiling Vision Service.

(** *** Entries *)

Lemma cache_of_sessions k m svc :
  cache_of k (with_sessions m svc) = default new_cache (m !! k).
Proof. reflexivity. Qed.

Lemma cache_of_insert k k' c svc :
  cache_of k (with_sessions (<[k' := c]> (_sessions svc)) svc)
  = if decide (k' = k) then c else cache_of k svc.
Proof.
  rewrite cache_of_sessions, lookup_insert. unfold cache_of.
  now destruct (decide (k' = k)).
Qed.

Lemma cache_of_alter f k k' svc :
  cache_of k (with_sessions (alter f k' (_sessions svc)) svc)
  = if decide (k' = k)
    then default new_cache (f <$> _sessions svc !! k)
    else cache_of k svc.
Proof.
  rewrite cache_of_sessions, lookup_alter. unfold cache_of.
  destruct (decide (k' = k)); [now subst|reflexivity].
Qed.

Lemma cache_of_get_session k key svc :
  cache_of k (_get_session key svc) = cache_of k svc.
Proof.
  unfold _get_session. destruct (_sessions svc !! key) eqn:E; [reflexivity|].
  rewrite cache_of_insert. destruct (decide (key = k)) as [<-|]; [|reflexivity].
  unfold cache_of. now rewrite E.
Qed.

Lemma get_session_tasks key svc : ocr_tasks (_get_session key svc) = ocr_tasks svc.
Proof. unfold _get_session. now destruct (_sessions svc !! key). Qed.

Lemma get_session_vision key svc :
  _vision_model (_get_session key svc) = _vision_model svc.
Proof. unfold _get_session. now destruct (_sessions svc !! key). Qed.

Lemma get_session_other key k svc :
  k <> key -> _sessions (_get_session key svc) !! k = _sessions svc !! k.
Proof.
  intros Hne. unfold _get_session. destruct (_sessions svc !! key); [reflexivity|].
  simpl. now rewrite lookup_insert_ne.
Qed.

Lemma get_session_is_Some key k svc :
  is_Some (_sessions svc !! k) -> is_Some (_sessions (_get_session key svc) !! k).
Proof.
  intros H. unfold _get_session. destruct (_sessions svc !! key) eqn:E; [exact H|].
  simpl. rewrite lookup_insert. destruct (decide (key = k)); eauto.
Qed.

Lemma get_session_present key svc :
  is_Some (_sessions (_get_session key svc) !! key).
Proof.
  unfold _get_session. destruct (_sessions svc !! key) eqn:E; [rewrite E; eauto|].
  simpl. rewrite lookup_insert_eq. eauto.
Qed.

(** *** The frame of [resolve] *)

Lemma resolve_frame_refl key svc : resolve_frame key svc svc.
Proof. repeat split; auto. Qed.

Lemma resolve_frame_trans key s1 s2 s3 :
  resolve_frame key s1 s2 -> resolve_frame key s2 s3 -> resolve_frame key s1 s3.
Proof.
  intros (T1 & F1 & O1 & P1) (T2 & F2 & O2 & P2). split; [congruence|].
  split; [|split].
  - intros k. destruct (F1 k) as (? & ? & ?), (F2 k) as (? & ? & ?).
    repeat split; congruence.
  - intros k Hk. rewrite O2, O1; auto.
  - intros k Hk. auto.
Qed.

Lemma resolve_frame_get_session key svc :
  resolve_frame key svc (_get_session key svc).
Proof.
  split; [apply get_session_tasks|]. split; [|split].
  - intros k. now rewrite cache_of_get_session.
  - intros k Hk. now apply get_session_other.
  - intros k. apply get_session_is_Some.
Qed.

Lemma resolve_frame_alter_results key r svc :
  resolve_frame key svc
    (with_sessions (alter (set_ocr_results r) key (_sessions svc)) svc).
Proof.
  split; [reflexivity|]. split; [|split].
  - intros k. rewrite cache_of_alter. destruct (decide (key = k)) as [<-|]; [|auto].
    unfold cache_of. now destruct (_sessions svc !! key).
  - intros k Hk. simpl. now rewrite lookup_alter_ne.
  - intros k Hk. simpl. rewrite lookup_alter.
    destruct (decide (key = k)) as [<-|]; [|exact Hk].
    destruct Hk as [c ->]. simpl. eauto.
Qed.

Lemma resolve_frame_vision key v svc :
  resolve_frame key svc (with_vision_model v svc).
Proof. repeat split; auto. Qed.

Section Server.
Variable sha256_hexdigest : string -> string.
Variable OCR_AVAILABLE : bool.
Variable ratio : list ascii -> list ascii -> float.
Variable model_loads : string -> bool.
Variable enum : list (Z * Z).
Variable image_open : string -> option Image.
Variable model_chat : list Tile -> string -> option string.

Local Abbreviation resolve := (resolve ratio model_loads enum image_open model_chat).
Local Abbreviation resolve_ocr := (resolve_ocr ratio).
Local Abbreviation resolve_prediction :=   (resolve_prediction model_loads enum image_open model_chat).
Local Abbreviation ingest_screenshot := (ingest_screenshot sha256_hexdigest).
Local Abbreviation ingest_id := (ingest_id sha256_hexdigest).
Local Abbreviation fingerprint := (fingerprint sha256_hexdigest).
Local Abbreviation run_ocr_cache := (run_ocr_cache OCR_AVAILABLE).
Local Abbreviation run_ocr := (run_ocr OCR_AVAILABLE).
Local Abbreviation finish_task := (finish_task OCR_AVAILABLE).

Lemma resolve_frame_enter key svc :
  resolve_frame key svc (fst (resolve_enter key svc)).
Proof.
  unfold resolve_enter.
  destruct (negb _ || negb _); simpl; apply resolve_frame_get_session.
Qed.

Lemma resolve_enter_state key svc :
  fst (resolve_enter key svc) = _get_session key svc.
Proof. unfold resolve_enter. now destruct (negb _ || negb _). Qed.

Lemma resolve_frame_store key results svc :
  resolve_frame key svc (resolve_store key results svc).
Proof. apply resolve_frame_alter_results. Qed.

Lemma resolve_frame_ocr analyze key text thr svc :
  resolve_frame key svc (fst (resolve_ocr analyze key text thr svc)).
Proof.
  unfold Service.resolve_ocr. destruct (ocr_results (cache_of key svc)).
  - apply resolve_frame_refl.
  - destruct (analyze _); simpl; [apply resolve_frame_store|apply resolve_frame_refl].
Qed.

Lemma resolve_frame_prediction key desc mn svc :
  resolve_frame key svc (fst (resolve_prediction key desc mn svc)).
Proof.
  unfold Service.resolve_prediction.
  destruct (negb (truthy_opt desc)); [apply resolve_frame_refl|].
  unfold _ensure_vision. destruct (_vision_model svc).
  - destruct (_predict_sync _ _ _ _ _) as [[x y]|]; apply resolve_frame_refl.
  - destruct (model_loads _); [|apply resolve_frame_refl].
    destruct (_predict_sync _ _ _ _ _) as [[x y]|]; apply resolve_frame_vision.
Qed.

Lemma resolve_frame_resolve analyze key method text desc hint thr mn svc :
  resolve_frame key svc (fst (resolve analyze key method text desc hint thr mn svc)).
Proof.
  unfold Service.resolve.
  pose proof (resolve_frame_enter key svc) as He.
  destruct (resolve_enter key svc) as [svc1 [e|c]]; simpl in He; [exact He|].
  destruct (String.eqb method "ocr").
  - eapply resolve_frame_trans; [exact He|apply resolve_frame_ocr].
  - destruct (String.eqb method "prediction"); [|exact He].
    eapply resolve_frame_trans; [exact He|apply resolve_frame_prediction].
Qed.

Lemma resolve_results analyze key method text desc hint thr mn svc :
  let svc' := fst (resolve analyze key method text desc hint thr mn svc) in
  ocr_results (cache_of key svc') = ocr_results (cache_of key svc)
  \/ (method = "ocr"%string /\ ocr_results (cache_of key svc) = None
      /\ exists b r, screenshot_b64 (cache_of key svc) = Some b
                     /\ analyze b = Some r
                     /\ ocr_results (cache_of key svc') = Some r).
Proof.
  unfold Service.resolve, resolve_enter.
  pose proof (cache_of_get_session key key svc) as Hc.
  pose proof (get_session_present key svc) as Hp.
  set (svc1 := _get_session key svc) in *.
  destruct (negb _ || negb _) eqn:Hchk; simpl; [left; now rewrite Hc|].
  destruct (String.eqb method "ocr") eqn:Hm.
  - apply String.eqb_eq in Hm. unfold Service.resolve_ocr.
    destruct (ocr_results (cache_of key svc1)) eqn:Hr; simpl; [left; now rewrite Hc|].
    destruct (screenshot_b64 (cache_of key svc1)) as [b|] eqn:Hb;
      [|simpl in Hchk; discriminate].
    simpl. destruct (analyze b) as [r|] eqn:Ha; simpl; [|left; now rewrite Hc].
    right. rewrite <- Hc. repeat split; auto. exists b, r. repeat split; auto.
    unfold resolve_store. rewrite cache_of_alter.
    destruct (decide (key = key)); [|congruence].
    destruct Hp as [c ->]. reflexivity.
  - left. destruct (String.eqb method "prediction"); simpl; [|now rewrite Hc].
    pose proof (resolve_frame_prediction key desc mn svc1) as (_ & _ & _ & _).
    unfold Service.resolve_prediction.
    destruct (negb (truthy_opt desc)); simpl; [now rewrite Hc|].
    unfold _ensure_vision. destruct (_vision_model svc1); simpl.
    + destruct (_predict_sync _ _ _ _ _) as [[x y]|]; simpl; now rewrite Hc.
    + destruct (model_loads _); simpl; [|now rewrite Hc].
      destruct (_predict_sync _ _ _ _ _) as [[x y]|]; simpl; now rewrite <- Hc.
Qed.

(** C9. A call of [resolve], with either method, leaves the identifier,
    the image and the readiness flag of every session as they were, leaves
    the entries of the other sessions and the tasks in flight untouched,
    and deletes no entry; the entry of the named session is created blank
    when the session is new. The detected regions of the named session
    change only in the text method, from none to the result of the
    detection run on demand on the stored image. The same frame holds for
    each of the two steps of [resolve] that write, taken alone. *)
Theorem resolve_frame_effect :
  forall (analyze : string -> option (list OcrItem)) (session_key method : string)
         (ocr_text description hint : option string)
         (ocr_match_threshold : option float) (model_name : option string)
         (svc : GroundingService) (results : list OcrItem),
    let svc' := fst (resolve analyze session_key method ocr_text description hint
                       ocr_match_threshold model_name svc) in
    ocr_tasks svc' = ocr_tasks svc
    /\ (forall k, screenshot_id (cache_of k svc') = screenshot_id (cache_of k svc)
               /\ screenshot_b64 (cache_of k svc') = screenshot_b64 (cache_of k svc)
               /\ ocr_event (cache_of k svc') = ocr_event (cache_of k svc))
    /\ (forall k, k <> session_key -> _sessions svc' !! k = _sessions svc !! k)
    /\ (forall k, is_Some (_sessions svc !! k) -> is_Some (_sessions svc' !! k))
    /\ (forall k c, _sessions svc !! k = None -> _sessions svc' !! k = Some c ->
          k = session_key /\ screenshot_id c = None /\ screenshot_b64 c = None
          /\ ocr_event c = false)
    /\ (ocr_results (cache_of session_key svc')
        = ocr_results (cache_of session_key svc)
        \/ (method = "ocr"%string
            /\ ocr_results (cache_of session_key svc) = None
            /\ exists b r, screenshot_b64 (cache_of session_key svc) = Some b
                           /\ analyze b = Some r
                           /\ ocr_results (cache_of session_key svc') = Some r))
    /\ resolve_frame session_key svc (fst (resolve_enter session_key svc))
    /\ resolve_frame session_key svc (resolve_store session_key results svc).
Proof.
  intros analyze key method text desc hint thr mn svc results svc'.
  destruct (resolve_frame_resolve analyze key method text desc hint thr mn svc)
    as (HT & HF & HO & HP).
  fold svc' in HT, HF, HO, HP.
  split; [exact HT|]. split; [exact HF|]. split; [exact HO|]. split; [exact HP|].
  split; [|split; [|split]].
  - intros k c Hnone Hsome.
    destruct (decide (k = key)) as [->|Hne].
    + destruct (HF key) as (H1 & H2 & H3). unfold cache_of in H1, H2, H3.
      rewrite Hnone, Hsome in H1, H2, H3. simpl in *. auto.
    + rewrite (HO k Hne) in Hsome. congruence.
  - apply resolve_results.
  - apply resolve_frame_enter.
  - apply resolve_frame_store.
Qed.

(** *** The identifier of an ingestion *)

Lemma prefix_ge n : forall s, (String.length s <= n)%nat -> prefix n s = s.
Proof.
  induction n as [|n IH]; intros [|c s] H; simpl in *; try reflexivity; try lia.
  f_equal. apply IH. lia.
Qed.

Lemma prefix_length n : forall s,
  String.length (prefix n s) = Nat.min n (String.length s).
Proof.
  induction n as [|n IH]; intros [|c s]; simpl; try reflexivity.
  now rewrite IH.
Qed.

Lemma fingerprint_eq b :
  fingerprint b = prefix 16 (sha256_hexdigest (prefix 1024 b)).
Proof.
  unfold Service.fingerprint.
  destruct (Nat.ltb_spec 1024 (String.length b)) as [Hlt|Hge]; [reflexivity|].
  now rewrite (prefix_ge 1024 b Hge).
Qed.

Lemma ingest_id_falsy b sid : truthy_opt sid = false -> ingest_id b sid = fingerprint b.
Proof.
  unfold Service.ingest_id. destruct sid as [sid|]; [|reflexivity].
  simpl. now intros ->.
Qed.

Lemma ingest_returns key b sid svc :
  snd (ingest_screenshot key b sid svc) = ingest_id b sid.
Proof. reflexivity. Qed.

(** *** Ingestion and the end of a task, on the entries *)

Lemma ingest_cache key b sid svc :
  cache_of key (fst (ingest_screenshot key b sid svc))
  = {| screenshot_id := Some (ingest_id b sid); screenshot_b64 := Some b;
       ocr_results := None; ocr_event := false |}.
Proof.
  unfold Service.ingest_screenshot, cache_of. simpl. now rewrite lookup_insert_eq.
Qed.

Lemma ingest_cache_other key k b sid svc :
  k <> key -> cache_of k (fst (ingest_screenshot key b sid svc)) = cache_of k svc.
Proof.
  intros Hne. unfold Service.ingest_screenshot, cache_of. simpl.
  rewrite lookup_insert_ne by congruence. now rewrite get_session_other.
Qed.

Lemma ingest_present key b sid svc :
  is_Some (_sessions (fst (ingest_screenshot key b sid svc)) !! key).
Proof. unfold Service.ingest_screenshot. simpl. rewrite lookup_insert_eq. eauto. Qed.

Lemma ingest_tasks key b sid svc :
  ocr_tasks (fst (ingest_screenshot key b sid svc))
  = ocr_tasks svc
    ++ [{| task_key := key; task_current_id := ingest_id b sid;
           task_screenshot := b |}].
Proof. unfold Service.ingest_screenshot. simpl. now rewrite get_session_tasks. Qed.

Lemma finish_task_eq i t outcome svc :
  ocr_tasks svc !! i = Some t ->
  finish_task i outcome svc
  = {| _sessions := alter (run_ocr_cache t outcome) (task_key t) (_sessions svc);
       ocr_tasks := delete i (ocr_tasks svc);
       _vision_model := _vision_model svc |}.
Proof. intros H. unfold Service.finish_task. now rewrite H. Qed.

Lemma finish_task_cache i t outcome svc k :
  ocr_tasks svc !! i = Some t ->
  cache_of k (finish_task i outcome svc)
  = if decide (task_key t = k)
    then default new_cache (run_ocr_cache t outcome <$> _sessions svc !! k)
    else cache_of k svc.
Proof.
  intros H. rewrite (finish_task_eq _ _ _ _ H). unfold cache_of. simpl.
  rewrite lookup_alter. destruct (decide (task_key t = k)); [now subst|reflexivity].
Qed.

Lemma finish_task_present i outcome svc k :
  is_Some (_sessions svc !! k) -> is_Some (_sessions (finish_task i outcome svc) !! k).
Proof.
  intros Hk. unfold Service.finish_task. destruct (ocr_tasks svc !! i) as [t|]; [|exact Hk].
  simpl. rewrite lookup_alter. destruct (decide (task_key t = k)) as [<-|]; [|exact Hk].
  destruct Hk as [c ->]. simpl. eauto.
Qed.


(** *** The result of a text resolution *)

Lemma falsy_default (t : option string) :
  default EmptyString (if truthy_opt t then t else None) = default EmptyString t.
Proof. destruct t as [[|c t]|]; reflexivity. Qed.

Lemma resolve_text_result analyze key img sid text hint thr mn svc :
  is_Some (_sessions svc !! key) ->
  screenshot_id (cache_of key svc) = Some sid ->
  screenshot_b64 (cache_of key svc) = Some img ->
  (ocr_results (cache_of key svc) = None
   \/ (is_Some (analyze img) /\ ocr_results (cache_of key svc) = analyze img)) ->
  snd (resolve analyze key "ocr" text None hint thr mn svc)
  = expected_text_result ratio analyze img sid text thr.
Proof.
  intros Hp Hid Hb Hr. unfold Service.resolve, resolve_enter, expected_text_result.
  rewrite cache_of_get_session, Hid, Hb. simpl.
  assert (Hg : _get_session key svc = svc).
  { unfold _get_session. now destruct Hp as [c ->]. }
  rewrite Hg.
  destruct (negb (truthy img) || negb (truthy sid)); [reflexivity|].
  change (String.eqb "ocr" "ocr") with true. cbv iota.
  unfold Service.resolve_ocr.
  destruct Hr as [Hr|[[r Ha] Hr]].
  - rewrite Hr, Hb. simpl. destruct (analyze img) as [r|]; [|reflexivity]. simpl.
    unfold resolve_ocr_finish, resolve_store. rewrite cache_of_alter.
    destruct (decide (key = key)); [|congruence].
    destruct Hp as [c Hc]. unfold cache_of in Hid. rewrite Hc in Hid |- *. simpl in *.
    rewrite Hid, falsy_default. reflexivity.
  - rewrite Hr, Ha. simpl. unfold resolve_ocr_finish. rewrite Hr, Ha, Hid, falsy_default.
    reflexivity.
Qed.

(** *** Repeated ingestion of one image *)

Local Abbreviation idem_step := (idem_step sha256_hexdigest OCR_AVAILABLE ratio
                                  model_loads enum image_open model_chat).
Local Abbreviation finish_det := (finish_det OCR_AVAILABLE).

Lemma settled_ingest analyze key img sid svc :
  (forall t, t ∈ ocr_tasks svc -> task_key t = key ->
     task_current_id t = ingest_id img sid -> task_screenshot t = img) ->
  settled analyze key img (ingest_id img sid)
    (fst (ingest_screenshot key img sid svc)).
Proof.
  intros Ht. unfold settled. rewrite ingest_cache, ingest_tasks. simpl.
  split; [apply ingest_present|]. repeat split; auto.
  intros t Hin Hk Hi. apply elem_of_app in Hin as [Hin|Hin]; [auto|].
  now apply list_elem_of_singleton in Hin as ->.
Qed.

Lemma settled_finish analyze key img sid i svc :
  settled analyze key img sid svc ->
  settled analyze key img sid (finish_det analyze i svc).
Proof.
  unfold Service.finish_det.
  destruct (ocr_tasks svc !! i) as [t|] eqn:Hi; [|auto].
  intros (Hp & Hid & Hb & Hr & Ht). unfold settled.
  split; [now apply finish_task_present|].
  rewrite !(finish_task_cache _ _ _ _ _ Hi), (finish_task_eq _ _ _ _ Hi). simpl.
  assert (Htasks : forall t0, t0 ∈ delete i (ocr_tasks svc) -> task_key t0 = key ->
            task_current_id t0 = sid -> task_screenshot t0 = img).
  { intros t0 Hin. apply Ht. eapply list_elem_of_delete_inv; eauto. }
  destruct (decide (task_key t = key)) as [Hk|Hk]; [|auto].
  destruct Hp as [c Hc]. unfold cache_of in Hid, Hb, Hr.
  rewrite Hc in Hid, Hb, Hr |- *. simpl in *.
  unfold Service.run_ocr_cache.
  destruct OCR_AVAILABLE; [|auto].
  destruct (analyze (task_screenshot t)) as [r|] eqn:Ha; [|auto].
  destruct (decide (screenshot_id c = Some (task_current_id t))) as [E|E]; [|auto].
  simpl. repeat split; auto.
  assert (Himg : task_screenshot t = img).
  { apply Ht; [eapply list_elem_of_lookup_2; eauto|exact Hk|congruence]. }
  rewrite Himg in Ha. right. rewrite Ha. eauto.
Qed.

Lemma settled_resolve analyze key img sid text thr svc :
  settled analyze key img sid svc ->
  settled analyze key img sid
    (fst (resolve analyze key "ocr" text None None thr None svc)).
Proof.
  intros (Hp & Hid & Hb & Hr & Ht).
  destruct (resolve_frame_resolve analyze key "ocr" text None None thr None svc)
    as (HT & HF & _ & HP).
  destruct (HF key) as (H1 & H2 & _).
  unfold settled. rewrite HT, H1, H2. repeat split; auto.
  destruct (resolve_results analyze key "ocr" text None None thr None svc)
    as [Hsame|(_ & _ & b & r & Hb' & Ha & Hnew)].
  - now rewrite Hsame.
  - right. rewrite Hb in Hb'. injection Hb' as <-. rewrite Hnew, Ha. eauto.
Qed.

Lemma settled_step analyze key img sid svc op :
  settled analyze key img (ingest_id img sid) svc ->
  settled analyze key img (ingest_id img sid) (idem_step analyze key img sid svc op).
Proof.
  intros H. destruct op as [|i|text thr]; simpl.
  - apply settled_ingest. now destruct H as (_ & _ & _ & _ & Ht).
  - now apply settled_finish.
  - now apply settled_resolve.
Qed.

Lemma settled_steps analyze key img sid ops : forall svc,
  settled analyze key img (ingest_id img sid) svc ->
  settled analyze key img (ingest_id img sid)
    (fold_left (idem_step analyze key img sid) ops svc).
Proof.
  induction ops as [|op ops IH]; intros svc H; simpl; [exact H|].
  apply IH, settled_step, H.
Qed.

Lemma settled_result analyze key img sid text hint thr mn svc :
  settled analyze key img sid svc ->
  snd (resolve analyze key "ocr" text None hint thr mn svc)
  = expected_text_result ratio analyze img sid text thr.
Proof.
  intros (Hp & Hid & Hb & Hr & _). now apply resolve_text_result.
Qed.

(** C8, amended. Without an identifier from the caller, the identifier
    returned by an ingestion is the first 16 characters of the digest of
    the first
    1024 characters of the encoded image: the same for the same image,
    whatever the session and the state, the same for two images that
    agree on these 1024 characters, and 16 characters long for a digest
    of 64. When an image is ingested, and ingested again under the same
    identifier after any number of further ingestions of it, ends of
    tasks and text resolutions, a text resolution returns the same result
    both times, the detector being a function of the image: the result
    that the regions of this image give. No task left in flight by an
    earlier ingestion may carry another image under the same identifier. *)
Theorem ingest_fingerprint_idempotent :
  forall (analyze : string -> option (list OcrItem))
         (session_key screenshot_b64 : string) (screenshot_id : option string)
         (svc : GroundingService),
    (truthy_opt screenshot_id = false ->
       snd (ingest_screenshot session_key screenshot_b64 screenshot_id svc)
       = prefix 16 (sha256_hexdigest (prefix 1024 screenshot_b64))
       /\ (forall key' b64' sid' svc',
             truthy_opt sid' = false ->
             prefix 1024 b64' = prefix 1024 screenshot_b64 ->
             snd (ingest_screenshot key' b64' sid' svc')
             = snd (ingest_screenshot session_key screenshot_b64 screenshot_id svc))
       /\ ((forall s, String.length (sha256_hexdigest s) = 64%nat) ->
           String.length
             (snd (ingest_screenshot session_key screenshot_b64 screenshot_id svc))
           = 16%nat))
    /\ ((forall t, t ∈ ocr_tasks svc -> task_key t = session_key ->
           task_current_id t = ingest_id screenshot_b64 screenshot_id ->
           task_screenshot t = screenshot_b64) ->
        forall (ops1 ops2 : list idem_op) (ocr_text : option string)
               (threshold : option float),
          let ingest := fun s =>
            fst (ingest_screenshot session_key screenshot_b64 screenshot_id s) in
          let steps := fold_left
            (idem_step analyze session_key screenshot_b64 screenshot_id) in
          let svc1 := steps ops1 (ingest svc) in
          let svc2 := steps ops2 (ingest svc1) in
          let answer := fun s =>
            snd (resolve analyze session_key "ocr" ocr_text None None threshold
                   None s) in
          answer svc2 = answer svc1
          /\ answer svc1
             = expected_text_result ratio analyze screenshot_b64
                 (ingest_id screenshot_b64 screenshot_id) ocr_text threshold).
Proof.
  intros analyze key img sid svc. split.
  - intros Hf. rewrite ingest_returns, (ingest_id_falsy _ _ Hf), fingerprint_eq.
    split; [reflexivity|]. split.
    + intros key' b64' sid' svc' Hf' Hpre.
      now rewrite ingest_returns, (ingest_id_falsy _ _ Hf'), fingerprint_eq, Hpre.
    + intros Hlen. rewrite prefix_length, Hlen. reflexivity.
  - intros Htasks ops1 ops2 text thr ingest steps svc1 svc2 answer.
    assert (H1 : settled analyze key img (ingest_id img sid) svc1).
    { apply settled_steps, settled_ingest, Htasks. }
    assert (H2 : settled analyze key img (ingest_id img sid) svc2).
    { apply settled_steps, settled_ingest. now destruct H1 as (_ & _ & _ & _ & Ht). }
    unfold answer.
    rewrite (settled_result _ _ _ _ _ _ _ _ _ H1), (settled_result _ _ _ _ _ _ _ _ _ H2).
    auto.
Qed.

(** *** A detection that finishes after a newer ingestion *)


Lemma finish_task_sets_event i t outcome svc :
  ocr_tasks svc !! i = Some t -> is_Some (_sessions svc !! task_key t) ->
  ocr_event (cache_of (task_key t) (finish_task i outcome svc)) = true.
Proof.
  intros Hi [c Hc]. rewrite (finish_task_cache _ _ _ _ _ Hi).
  destruct (decide (task_key t = task_key t)); [|congruence].
  now rewrite Hc.
Qed.


End Server.

(** *** On the stand-ins *)

Local Abbreviation run_stub :=
  (run Examples.stub_sha256 true Examples.exact_ratio Examples.no_model
       grids Examples.no_image Examples.no_chat).
Local Abbreviation resolve_stub :=
  (resolve Examples.exact_ratio Examples.no_model grids Examples.no_image
     Examples.no_chat Examples.stub_analyze).



(** C6, on the code. A is ingested, then B, and A's task finishes first:
    B's ingestion has cleared the readiness flag and B's task is still in
    flight, yet the flag is set, by the task of the superseded ingestion,
    while the entry holds no regions. B's task sets the flag a second time
    in the same cycle. *)
Theorem stale_task_signals_readiness :
  let task_b := {| task_key := "s"; task_current_id := "b"; task_screenshot := "B" |} in
  let svc2 := run_stub [Ingest "s" "A" (Some "a"); Ingest "s" "B" (Some "b")]
                new_service in
  let svc3 := run_stub [OcrDone 0 (Some Examples.regions_A)] svc2 in
  let svc4 := run_stub [OcrDone 0 (Some Examples.regions_B)] svc3 in
  ocr_event (cache_of "s" svc2) = false
  /\ ocr_event (cache_of "s" svc3) = true
  /\ screenshot_id (cache_of "s" svc3) = Some "b"%string
  /\ ocr_results (cache_of "s" svc3) = None
  /\ ocr_tasks svc3 = [task_b]
  /\ ocr_event (cache_of "s" svc4) = true
  /\ ocr_results (cache_of "s" svc4) = Some Examples.regions_B.
Proof. vm_compute. repeat split; reflexivity. Qed.

Lemma stub_sha256_length s : String.length (Examples.stub_sha256 s) = 64%nat.
Proof.
  unfold Examples.stub_sha256. rewrite prefix_length.
  assert (H : forall a b, (String.length b <= String.length (a +:+ b))%nat).
  { induction a as [|c a IH]; intros b.
    - change (EmptyString +:+ b) with b. lia.
    - change (String c a +:+ b) with (String c (a +:+ b)).
      specialize (IH b). simpl. lia. }
  specialize (H s Examples.zeros64).
  change (String.length Examples.zeros64) with 64%nat in H. lia.
Qed.

Lemma ingest_fingerprint_idempotent_witness :
  let ingest := fun s =>
    fst (ingest_screenshot Examples.stub_sha256 "s" "A" None s) in
  let svc1 := finish_det true Examples.stub_analyze 0 (ingest new_service) in
  let svc2 := ingest svc1 in
  let answer := fun s =>
    snd (resolve_stub "s" "ocr" (Some "Submit"%string) None None None None s) in
  (snd (ingest_screenshot Examples.stub_sha256 "s" "A" None new_service)
   = prefix 16 (Examples.stub_sha256 (prefix 1024 "A"))
   /\ String.length
        (snd (ingest_screenshot Examples.stub_sha256 "s" "A" None new_service))
      = 16%nat)
  /\ answer svc2 = answer svc1
  /\ answer svc1
     = expected_text_result Examples.exact_ratio Examples.stub_analyze "A"
         (ingest_id Examples.stub_sha256 "A" None) (Some "Submit"%string) None.
Proof.
  destruct (ingest_fingerprint_idempotent Examples.stub_sha256 true
              Examples.exact_ratio Examples.no_model grids Examples.no_image
              Examples.no_chat Examples.stub_analyze "s" "A" None new_service)
    as [Hid Hidem].
  split.
  - destruct (Hid eq_refl) as (Ha & _ & Hlen).
    split; [exact Ha|apply Hlen, stub_sha256_length].
  - refine (Hidem _ [Finish 0] [] (Some "Submit"%string) None).
    intros t Ht. inversion Ht.
Defined.

(** C8 as stated fails when a task left in flight by an ingestion of
    another image carries the same identifier. B is ingested under "v1",
    then A under "v1"; B's task ends and its regions are stored in the
    entry that holds A, the identifiers being equal. A text resolution
    returns the place of the button on B, [(230, 310)]. A is ingested
    again under "v1", which clears the stored regions, and the same text
    resolution, detecting on demand on A, returns [(30, 25)]: the two
    answers for the identical image and identifier differ. *)
Lemma reingestion_changes_answer :
  let svc1 := run_stub [Ingest "s" "B" (Some "v1"); Ingest "s" "A" (Some "v1");
                        OcrDone 0 (Examples.stub_analyze "B")] new_service in
  let first := resolve_stub "s" "ocr" (Some "Submit"%string) None None None None
                 svc1 in
  let svc2 := run_stub [Ingest "s" "A" (Some "v1")] (fst first) in
  let second := resolve_stub "s" "ocr" (Some "Submit"%string) None None None None
                  svc2 in
  screenshot_b64 (cache_of "s" svc1) = Some "A"%string
  /\ screenshot_id (cache_of "s" svc1) = Some "v1"%string
  /\ snd first = inr {| screenshotId := "v1"; result_x := 230; result_y := 310 |}
  /\ screenshot_b64 (cache_of "s" svc2) = Some "A"%string
  /\ screenshot_id (cache_of "s" svc2) = Some "v1"%string
  /\ snd second = inr {| screenshotId := "v1"; result_x := 30; result_y := 25 |}.
Proof. vm_compute. repeat split; reflexivity. Qed.

End ServiceFacts.

(* ================================================================= *)
(** ** The service under any schedule *)

Module ScheduleFacts.
Import Float64 PyStr OcrText Coordinates Tiling Vision Service Schedules ServiceFacts.

Lemma elem_of_delete_ne {A : Type} (l : list A) (i : nat) (x y : A) :
  l !! i = Some x -> y ∈ l -> y <> x -> y ∈ delete i l.
Proof.
  intros Hi Hy Hne. apply list_elem_of_lookup in Hy as [j Hj].
  apply list_elem_of_lookup.
  destruct (decide (j < i)%nat) as [Hlt|Hge].
  - exists j. now rewrite list_lookup_delete_lt.
  - assert (j <> i) by congruence.
    exists (pred j). rewrite list_lookup_delete_ge by lia.
    now replace (S (pred j)) with j by lia.
Qed.

Lemma delete_lookup_None {A : Type} (l : list A) (i : nat) :
  l !! i = None -> delete i l = l.
Proof.
  revert i. induction l as [|x l IH]; intros [|i] H; try reflexivity.
  - discriminate.
  - simpl in *. f_equal. now apply IH.
Qed.

Section Server.
Variable sha256_hexdigest : string -> string.
Variable OCR_AVAILABLE : bool.
Variable ratio : list ascii -> list ascii -> float.
Variable model_loads : string -> bool.
Variable enum : list (Z * Z).
Variable image_open : string -> option Image.
Variable model_chat : list Tile -> string -> option string.

Local Abbreviation resolve := (resolve ratio model_loads enum image_open model_chat).
Local Abbreviation ingest_screenshot := (ingest_screenshot sha256_hexdigest).
Local Abbreviation ingest_id := (ingest_id sha256_hexdigest).
Local Abbreviation finish_task := (finish_task OCR_AVAILABLE).
Local Abbreviation run_ocr_cache := (run_ocr_cache OCR_AVAILABLE).
Local Abbreviation step := (step sha256_hexdigest OCR_AVAILABLE ratio model_loads enum image_open model_chat).
Local Abbreviation run := (run sha256_hexdigest OCR_AVAILABLE ratio model_loads enum image_open model_chat).

Lemma run_cons e es svc : run (e :: es) svc = run es (step svc e).
Proof. reflexivity. Qed.

Lemma run_app es1 es2 svc : run (es1 ++ es2) svc = run es2 (run es1 svc).
Proof. unfold Service.run. apply fold_left_app. Qed.

(** *** What the end of a task leaves alone *)

Lemma run_ocr_cache_ids t outcome c :
  screenshot_id (run_ocr_cache t outcome c) = screenshot_id c
  /\ screenshot_b64 (run_ocr_cache t outcome c) = screenshot_b64 c
  /\ ocr_event (run_ocr_cache t outcome c) = true.
Proof.
  unfold Service.run_ocr_cache. destruct OCR_AVAILABLE; [|auto].
  destruct outcome; [|auto]. destruct (decide _); auto.
Qed.

Lemma finish_task_ids i outcome svc k :
  screenshot_id (cache_of k (finish_task i outcome svc)) = screenshot_id (cache_of k svc)
  /\ screenshot_b64 (cache_of k (finish_task i outcome svc))
     = screenshot_b64 (cache_of k svc).
Proof.
  destruct (ocr_tasks svc !! i) as [t|] eqn:Hi.
  - rewrite (finish_task_cache _ _ _ _ _ _ Hi).
    destruct (decide (task_key t = k)); [|auto].
    unfold cache_of. destruct (_sessions svc !! k) as [c|]; [|auto].
    destruct (run_ocr_cache_ids t outcome c) as (H1 & H2 & _). auto.
  - unfold Service.finish_task. rewrite Hi. auto.
Qed.

Lemma finish_task_none i outcome svc :
  ocr_tasks svc !! i = None -> finish_task i outcome svc = svc.
Proof. intros H. unfold Service.finish_task. now rewrite H. Qed.

Lemma finish_task_lookup i t outcome svc k :
  ocr_tasks svc !! i = Some t ->
  _sessions (finish_task i outcome svc) !! k
  = if decide (task_key t = k) then run_ocr_cache t outcome <$> _sessions svc !! k
    else _sessions svc !! k.
Proof.
  intros Hi. rewrite (finish_task_eq _ _ _ _ _ Hi). simpl.
  rewrite lookup_alter. destruct (decide (task_key t = k)); [now subst|reflexivity].
Qed.

Lemma finish_task_tasks i outcome svc :
  ocr_tasks (finish_task i outcome svc) = delete i (ocr_tasks svc).
Proof.
  destruct (ocr_tasks svc !! i) as [t|] eqn:Hi.
  - now rewrite (finish_task_eq _ _ _ _ _ Hi).
  - rewrite (finish_task_none _ _ _ Hi). symmetry. now apply delete_lookup_None.
Qed.

Lemma finish_task_vision i outcome svc :
  _vision_model (finish_task i outcome svc) = _vision_model svc.
Proof.
  destruct (ocr_tasks svc !! i) as [t|] eqn:Hi.
  - now rewrite (finish_task_eq _ _ _ _ _ Hi).
  - now rewrite (finish_task_none _ _ _ Hi).
Qed.

Lemma ingest_lookup_other key k b sid svc :
  k <> key ->
  _sessions (fst (ingest_screenshot key b sid svc)) !! k = _sessions svc !! k.
Proof.
  intros Hne. unfold Service.ingest_screenshot. simpl.
  rewrite lookup_insert_ne by congruence. now apply get_session_other.
Qed.

Lemma ingest_lookup key b sid svc :
  _sessions (fst (ingest_screenshot key b sid svc)) !! key
  = Some {| screenshot_id := Some (ingest_id b sid); screenshot_b64 := Some b;
            ocr_results := None; ocr_event := false |}.
Proof. unfold Service.ingest_screenshot. simpl. now rewrite lookup_insert_eq. Qed.

Lemma ingest_vision key b sid svc :
  _vision_model (fst (ingest_screenshot key b sid svc)) = _vision_model svc.
Proof. unfold Service.ingest_screenshot. simpl. apply get_session_vision. Qed.

(** *** The identifier and the image of an entry *)

Lemma resolve_ids analyze key method text desc hint thr mn svc k :
  screenshot_id (cache_of k (fst (resolve analyze key method text desc hint thr mn svc)))
  = screenshot_id (cache_of k svc)
  /\ screenshot_b64 (cache_of k (fst (resolve analyze key method text desc hint thr mn svc)))
     = screenshot_b64 (cache_of k svc).
Proof.
  destruct (resolve_frame_resolve ratio model_loads enum image_open model_chat
              analyze key method text desc hint thr mn svc) as (_ & H & _).
  destruct (H k) as (H1 & H2 & _). auto.
Qed.

Lemma step_ids_other svc e k :
  (forall b sid, e <> Ingest k b sid) ->
  screenshot_id (cache_of k (step svc e)) = screenshot_id (cache_of k svc)
  /\ screenshot_b64 (cache_of k (step svc e)) = screenshot_b64 (cache_of k svc).
Proof.
  intros Hne. destruct e as [k' b sid|i outcome|an k' m t d h th mn];
    unfold Service.step.
  - assert (k <> k') by (intros ->; now apply (Hne b sid)).
    now rewrite (ingest_cache_other sha256_hexdigest) by assumption.
  - apply finish_task_ids.
  - apply resolve_ids.
Qed.

Lemma holds_run k svc0 es : forall acc svc,
  entry_holds sha256_hexdigest k acc svc0 svc ->
  entry_holds sha256_hexdigest k (fold_left (fun acc e =>
                        match e with
                        | Ingest k' b sid => if decide (k' = k) then Some (b, sid) else acc
                        | _ => acc
                        end) es acc) svc0 (run es svc).
Proof.
  induction es as [|e es IH]; intros acc svc H; [exact H|].
  rewrite run_cons. simpl. apply IH.
  destruct e as [k' b sid|i outcome|an k' m t d h th mn].
  - destruct (decide (k' = k)) as [->|Hne].
    + unfold entry_holds, Service.step. now rewrite (ingest_cache sha256_hexdigest).
    + destruct (step_ids_other svc (Ingest k' b sid) k) as [H1 H2]; [congruence|].
      unfold entry_holds in *. destruct acc as [[b0 sid0]|]; rewrite H1, H2; exact H.
  - destruct (step_ids_other svc (OcrDone i outcome) k) as [H1 H2]; [congruence|].
    unfold entry_holds in *. destruct acc as [[b0 sid0]|]; rewrite H1, H2; exact H.
  - destruct (step_ids_other svc (Resolve an k' m t d h th mn) k) as [H1 H2];
      [congruence|].
    unfold entry_holds in *. destruct acc as [[b0 sid0]|]; rewrite H1, H2; exact H.
Qed.

Lemma resolve_result_id analyze key method text desc hint thr mn svc r :
  snd (resolve analyze key method text desc hint thr mn svc) = inr r ->
  screenshot_id (cache_of key svc) = Some (screenshotId r)
  /\ truthy (screenshotId r) = true
  /\ exists b, screenshot_b64 (cache_of key svc) = Some b /\ truthy b = true.
Proof.
  unfold Service.resolve, resolve_enter.
  pose proof (cache_of_get_session key key svc) as Hc.
  set (svc1 := _get_session key svc) in *.
  rewrite Hc.
  destruct (screenshot_b64 (cache_of key svc)) as [b|] eqn:Hb; [|discriminate].
  destruct (screenshot_id (cache_of key svc)) as [sid|] eqn:Hid;
    [|simpl; rewrite orb_true_r; discriminate].
  simpl. destruct (truthy b) eqn:Tb; [|discriminate].
  destruct (truthy sid) eqn:Ts; [|discriminate]. simpl.
  assert (Hgoal : forall svc2 (res : resolve_error + GroundingResult),
             screenshot_id (cache_of key svc2) = Some sid ->
             (forall x y, res = inr {| screenshotId :=
                                         default EmptyString (screenshot_id (cache_of key svc2));
                                       result_x := x; result_y := y |} ->
                          res = inr r -> Some sid = Some (screenshotId r))).
  { intros svc2 res H2 x y -> E. rewrite H2 in E. simpl in E. now injection E as <-. }
  assert (Hid1 : screenshot_id (cache_of key svc1) = Some sid) by now rewrite Hc.
  intros Hres.
  assert (Some sid = Some (screenshotId r)) as E.
  { destruct (String.eqb method "ocr").
    - unfold Service.resolve_ocr in Hres.
      destruct (ocr_results (cache_of key svc1)).
      + simpl in Hres. unfold resolve_ocr_finish in Hres.
        destruct (resolve_ocr_text _ _ _ _) as [e|[x y]]; [discriminate|].
        eapply Hgoal; [exact Hid1|reflexivity|exact Hres].
      + destruct (analyze _) as [results|]; [|discriminate].
        simpl in Hres. unfold resolve_ocr_finish in Hres.
        destruct (resolve_ocr_text _ _ _ _) as [e|[x y]]; [discriminate|].
        eapply Hgoal; [|reflexivity|exact Hres].
        destruct (resolve_frame_store key results svc1) as (_ & H & _).
        destruct (H key) as (-> & _). exact Hid1.
    - destruct (String.eqb method "prediction"); [|discriminate].
      unfold Service.resolve_prediction in Hres.
      destruct (negb (truthy_opt desc)); [discriminate|].
      destruct (_ensure_vision model_loads mn svc1) as [[svc2 m]|] eqn:Hv; [|discriminate].
      assert (Hc2 : cache_of key svc2 = cache_of key svc1).
      { unfold _ensure_vision in Hv. destruct (_vision_model svc1).
        - now injection Hv as <- _.
        - destruct (model_loads _); [|discriminate]. now injection Hv as <- _. }
      rewrite Hc2 in Hres.
      destruct (_predict_sync _ _ _ _ _) as [[x y]|]; [|discriminate].
      simpl in Hres. eapply Hgoal; [exact Hid1|reflexivity|exact Hres]. }
  injection E as <-. split; [reflexivity|]. split; [exact Ts|]. exists b. auto.
Qed.

(** X1. Whatever the events, ingestions of any session, ends of tasks with
    any outcome and resolutions, the entry of a session holds the image of
    the last ingestion for that session and its identifier, the one given
    by the caller or the fingerprint; no other operation changes the two.
    A resolution that succeeds reports that identifier. Before the first
    ingestion the two are what they were. *)
Theorem last_ingest_wins :
  forall (es : list event) (svc : GroundingService) (session_key : string),
    let svc' := run es svc in
    match last_ingest session_key es with
    | Some (b, sid) =>
        screenshot_b64 (cache_of session_key svc') = Some b
        /\ screenshot_id (cache_of session_key svc') = Some (ingest_id b sid)
        /\ forall analyze method text desc hint thr mn r,
             snd (resolve analyze session_key method text desc hint thr mn svc') = inr r ->
             screenshotId r = ingest_id b sid
    | None =>
        screenshot_b64 (cache_of session_key svc')
        = screenshot_b64 (cache_of session_key svc)
        /\ screenshot_id (cache_of session_key svc')
           = screenshot_id (cache_of session_key svc)
    end.
Proof.
  intros es svc key svc'.
  pose proof (holds_run key svc es None svc (conj eq_refl eq_refl)) as H.
  fold (last_ingest key es) in H. fold svc' in H.
  destruct (last_ingest key es) as [[b sid]|]; [|exact H].
  destruct H as [Hb Hid]. split; [exact Hb|]. split; [exact Hid|].
  intros analyze method text desc hint thr mn r Hr.
  apply resolve_result_id in Hr as (Hr & _). congruence.
Qed.

(** *** Readiness *)

Lemma ready_ingest key b sid svc :
  ready_or_pending svc /\ tasks_have_sessions svc ->
  ready_or_pending (fst (ingest_screenshot key b sid svc))
  /\ tasks_have_sessions (fst (ingest_screenshot key b sid svc)).
Proof.
  intros [Hr Ht]. split.
  - intros k c Hk He. rewrite (ingest_tasks sha256_hexdigest).
    destruct (decide (k = key)) as [->|Hne].
    + right. eexists. split; [apply elem_of_app; right; apply list_elem_of_singleton;
                               reflexivity|reflexivity].
    + rewrite ingest_lookup_other in Hk by assumption.
      destruct (Hr k c Hk He) as [H|(t & Hin & Hkey)]; [now left|].
      right. exists t. split; [apply elem_of_app; now left|exact Hkey].
  - intros t Hin. rewrite (ingest_tasks sha256_hexdigest) in Hin.
    apply elem_of_app in Hin as [Hin|Hin].
    + destruct (decide (task_key t = key)) as [->|Hne].
      * rewrite ingest_lookup. eauto.
      * rewrite ingest_lookup_other by assumption. now apply Ht.
    + apply list_elem_of_singleton in Hin as ->. cbn [task_key]. rewrite ingest_lookup. eauto.
Qed.

Lemma ready_finish i outcome svc :
  ready_or_pending svc /\ tasks_have_sessions svc ->
  ready_or_pending (finish_task i outcome svc)
  /\ tasks_have_sessions (finish_task i outcome svc).
Proof.
  intros [Hr Ht]. destruct (ocr_tasks svc !! i) as [t|] eqn:Hi;
    [|now rewrite (finish_task_none _ _ _ Hi)].
  split.
  - intros k c Hk He. rewrite finish_task_tasks.
    rewrite (finish_task_lookup _ _ _ _ _ Hi) in Hk.
    destruct (decide (task_key t = k)) as [Heq|Hne].
    + destruct (_sessions svc !! k) as [c0|]; [|discriminate].
      injection Hk as <-. destruct (run_ocr_cache_ids t outcome c0) as (_ & _ & H).
      congruence.
    + destruct (Hr k c Hk He) as [H|(t' & Hin & Hkey)]; [now left|].
      right. exists t'. split; [|exact Hkey].
      apply (elem_of_delete_ne _ _ t); [exact Hi|exact Hin|congruence].
  - intros t' Hin. rewrite finish_task_tasks in Hin.
    apply list_elem_of_delete_inv in Hin. apply Ht in Hin.
    rewrite (finish_task_lookup _ _ _ _ _ Hi).
    destruct (decide (task_key t = task_key t')); [|exact Hin].
    destruct Hin as [c ->]. simpl. eauto.
Qed.

Lemma ready_resolve analyze key method text desc hint thr mn svc :
  ready_or_pending svc /\ tasks_have_sessions svc ->
  ready_or_pending (fst (resolve analyze key method text desc hint thr mn svc))
  /\ tasks_have_sessions (fst (resolve analyze key method text desc hint thr mn svc)).
Proof.
  intros [Hr Ht].
  destruct (resolve_frame_resolve ratio model_loads enum image_open model_chat
              analyze key method text desc hint thr mn svc) as (HT & HF & _ & HP).
  set (svc' := fst (resolve analyze key method text desc hint thr mn svc)) in *.
  split.
  - intros k c Hk He. rewrite HT. destruct (HF k) as (_ & Hb & Hev).
    unfold cache_of in Hb, Hev. rewrite Hk in Hb, Hev. simpl in Hb, Hev.
    destruct (_sessions svc !! k) as [c0|] eqn:Hk0; simpl in Hb, Hev.
    + rewrite Hb. apply (Hr k c0 Hk0). congruence.
    + left. exact Hb.
  - intros t Hin. rewrite HT in Hin. apply HP, Ht, Hin.
Qed.

Lemma ready_step svc e :
  ready_or_pending svc /\ tasks_have_sessions svc ->
  ready_or_pending (step svc e) /\ tasks_have_sessions (step svc e).
Proof.
  destruct e; [apply ready_ingest|apply ready_finish|apply ready_resolve].
Qed.

Lemma ready_run es : forall svc,
  ready_or_pending svc /\ tasks_have_sessions svc ->
  ready_or_pending (run es svc) /\ tasks_have_sessions (run es svc).
Proof.
  induction es as [|e es IH]; intros svc H; [exact H|].
  rewrite run_cons. apply IH, ready_step, H.
Qed.

(** X2. From the start of the service and under any schedule, an entry
    that holds an image and whose readiness flag is down has a detection
    task in flight for its session, and every task in flight belongs to
    an entry of the store. So once no task is in flight, the flag of every
    entry that holds an image is up: a wait on it ends. *)
Theorem readiness_follows_tasks :
  forall (es : list event),
    let svc := run es new_service in
    ready_or_pending svc
    /\ tasks_have_sessions svc
    /\ (ocr_tasks svc = [] ->
        forall k c, _sessions svc !! k = Some c -> is_Some (screenshot_b64 c) ->
          ocr_event c = true).
Proof.
  intros es svc.
  assert (H0 : ready_or_pending new_service /\ tasks_have_sessions new_service).
  { split.
    - intros k c Hk. simpl in Hk. rewrite lookup_empty in Hk. discriminate.
    - intros t Ht. simpl in Ht. inversion Ht. }
  destruct (ready_run es new_service H0) as [Hr Ht]. fold svc in Hr, Ht.
  split; [exact Hr|]. split; [exact Ht|].
  intros Hnil k c Hk [b Hb]. destruct (ocr_event c) eqn:He; [reflexivity|].
  destruct (Hr k c Hk He) as [H|(t & Hin & _)]; [congruence|].
  rewrite Hnil in Hin. inversion Hin.
Qed.

(** *** What the service keeps *)

Lemma step_keeps_entries svc e k :
  is_Some (_sessions svc !! k) -> is_Some (_sessions (step svc e) !! k).
Proof.
  intros Hk. destruct e as [k' b sid|i outcome|an k' m t d h th mn];
    unfold Service.step.
  - destruct (decide (k = k')) as [->|Hne].
    + rewrite ingest_lookup. eauto.
    + now rewrite ingest_lookup_other.
  - now apply finish_task_present.
  - now apply (resolve_frame_resolve ratio model_loads enum image_open model_chat).
Qed.

Lemma step_names_entry svc e k :
  match e with
  | Ingest k' _ _ | Resolve _ k' _ _ _ _ _ _ => k' = k
  | OcrDone _ _ => False
  end ->
  is_Some (_sessions (step svc e) !! k).
Proof.
  destruct e as [k' b sid|i outcome|an k' m t d h th mn]; unfold Service.step;
    intros H; [subst k'|contradiction|subst k'].
  - rewrite ingest_lookup. eauto.
  - destruct (resolve_frame_resolve ratio model_loads enum image_open model_chat
                an k m t d h th mn svc) as (_ & _ & _ & HP).
    unfold Service.resolve at 1.
    pose proof (resolve_frame_resolve ratio model_loads enum image_open model_chat
                  an k m t d h th mn (_get_session k svc)) as (_ & _ & _ & HP').
    pose proof (get_session_present k svc) as Hg.
    assert (Hsame : fst (resolve an k m t d h th mn (_get_session k svc))
                    = fst (resolve an k m t d h th mn svc)).
    { unfold Service.resolve, resolve_enter.
      assert (Hgg : _get_session k (_get_session k svc) = _get_session k svc).
      { unfold _get_session at 1. now destruct Hg as [c ->]. }
      now rewrite Hgg, !cache_of_get_session. }
    fold (resolve an k m t d h th mn svc). rewrite <- Hsame. now apply HP'.
Qed.

Lemma run_keeps_entries es : forall svc k,
  is_Some (_sessions svc !! k) -> is_Some (_sessions (run es svc) !! k).
Proof.
  induction es as [|e es IH]; intros svc k H; [exact H|].
  rewrite run_cons. now apply IH, step_keeps_entries.
Qed.

(** X3. No operation removes an entry of the store: a session that has an
    entry has one after any further events. An ingestion and a resolution
    each leave an entry for the session they name, the resolution also
    when it fails. *)
Theorem entries_never_removed :
  forall (es1 es2 : list event) (svc : GroundingService) (k : string),
    (is_Some (_sessions svc !! k)
     \/ exists e, e ∈ es1
                  /\ match e with
                     | Ingest k' _ _ | Resolve _ k' _ _ _ _ _ _ => k' = k
                     | OcrDone _ _ => False
                     end) ->
    is_Some (_sessions (run (es1 ++ es2) svc) !! k).
Proof.
  intros es1 es2 svc k H. rewrite run_app. apply run_keeps_entries.
  destruct H as [H|(e & Hin & He)]; [now apply run_keeps_entries|].
  apply list_elem_of_split in Hin as (l1 & l2 & ->).
  rewrite run_app, run_cons. apply run_keeps_entries. now apply step_names_entry.
Qed.

(** *** The vision model *)

Lemma resolve_vision_kept analyze key method text desc hint thr mn svc m :
  _vision_model svc = Some m ->
  _vision_model (fst (resolve analyze key method text desc hint thr mn svc)) = Some m.
Proof.
  intros Hm. unfold Service.resolve, resolve_enter.
  pose proof (get_session_vision key svc) as Hg. rewrite Hm in Hg.
  set (svc1 := _get_session key svc) in *.
  destruct (negb _ || negb _); [exact Hg|].
  destruct (String.eqb method "ocr").
  - unfold Service.resolve_ocr. destruct (ocr_results _); [exact Hg|].
    destruct (analyze _); exact Hg.
  - destruct (String.eqb method "prediction"); [|exact Hg].
    unfold Service.resolve_prediction. destruct (negb (truthy_opt desc)); [exact Hg|].
    unfold _ensure_vision. rewrite Hg.
    destruct (_predict_sync _ _ _ _ _) as [[x y]|]; exact Hg.
Qed.

Lemma step_vision_kept svc e m :
  _vision_model svc = Some m -> _vision_model (step svc e) = Some m.
Proof.
  intros Hm. destruct e; unfold Service.step.
  - now rewrite ingest_vision.
  - now rewrite finish_task_vision.
  - now apply resolve_vision_kept.
Qed.

Lemma run_vision_kept es : forall svc m,
  _vision_model svc = Some m -> _vision_model (run es svc) = Some m.
Proof.
  induction es as [|e es IH]; intros svc m H; [exact H|].
  rewrite run_cons. now apply IH, step_vision_kept.
Qed.

(** X4. Once [_ensure_vision] has loaded a model, under the name asked for
    or the default name, the service holds that model through any further
    events: [status] reports it loaded, and every later call of
    [_ensure_vision] returns it without loading, whatever model name the
    call gives. *)
Theorem vision_model_loaded_once :
  forall (model_name : option string) (svc svc1 : GroundingService) (m : string)
         (es : list event),
    _ensure_vision model_loads model_name svc = Some (svc1, m) ->
    let svc2 := run es svc1 in
    (m = default "OpenGVLab/InternVL3_5-4B"%string (_vision_model svc)
     \/ (_vision_model svc = None
         /\ m = if truthy_opt model_name then default EmptyString model_name
                else "OpenGVLab/InternVL3_5-4B"%string))
    /\ _vision_model svc2 = Some m
    /\ vision_loaded (status OCR_AVAILABLE svc2) = true
    /\ forall other_name, _ensure_vision model_loads other_name svc2 = Some (svc2, m).
Proof.
  intros mn svc svc1 m es Hv svc2.
  assert (H1 : _vision_model svc1 = Some m
               /\ (m = default "OpenGVLab/InternVL3_5-4B"%string (_vision_model svc)
                   \/ (_vision_model svc = None
                       /\ m = if truthy_opt mn then default EmptyString mn
                              else "OpenGVLab/InternVL3_5-4B"%string))).
  { unfold _ensure_vision in Hv. destruct (_vision_model svc) as [m0|] eqn:E.
    - injection Hv as <- <-. split; [exact E|]. left. reflexivity.
    - destruct (model_loads _); [|discriminate]. injection Hv as <- <-.
      split; [reflexivity|]. right. auto. }
  destruct H1 as [H1 Hname].
  pose proof (run_vision_kept es svc1 m H1) as H2. fold svc2 in H2.
  split; [exact Hname|]. split; [exact H2|]. split.
  - unfold status. simpl. now rewrite H2.
  - intros other. unfold _ensure_vision. now rewrite H2.
Qed.

(** *** One session at a time *)

(** X6. An event acts on one session: an ingestion and a resolution on the
    session they name, the end of a task on the session of the task. The
    entry of every other session, present or absent, is after the event
    what it was before. *)
Theorem step_touches_one_session :
  forall (e : event) (svc : GroundingService) (k : string),
    event_session svc e <> Some k ->
    _sessions (step svc e) !! k = _sessions svc !! k.
Proof.
  intros e svc k Hne. destruct e as [k' b sid|i outcome|an k' m t d h th mn];
    unfold Service.step; simpl in Hne.
  - apply ingest_lookup_other. congruence.
  - destruct (ocr_tasks svc !! i) as [t|] eqn:Hi.
    + rewrite (finish_task_lookup _ _ _ _ _ Hi). simpl in Hne.
      destruct (decide (task_key t = k)); [congruence|reflexivity].
    + now rewrite (finish_task_none _ _ _ Hi).
  - destruct (resolve_frame_resolve ratio model_loads enum image_open model_chat
                an k' m t d h th mn svc) as (_ & _ & HO & _).
    apply HO. congruence.
Qed.

(** *** Detection on demand *)

Lemma get_session_id key svc :
  is_Some (_sessions svc !! key) -> _get_session key svc = svc.
Proof. intros [c Hc]. unfold _get_session. now rewrite Hc. Qed.

Lemma resolve_ocr_cached analyze key text hint thr mn svc results :
  is_Some (_sessions svc !! key) ->
  truthy_opt (screenshot_b64 (cache_of key svc)) = true ->
  truthy_opt (screenshot_id (cache_of key svc)) = true ->
  ocr_results (cache_of key svc) = Some results ->
  resolve analyze key "ocr" text None hint thr mn svc
  = (svc, resolve_ocr_finish ratio key text thr svc).
Proof.
  intros Hp Hb Hid Hr. unfold Service.resolve, resolve_enter.
  rewrite (get_session_id _ _ Hp), Hb, Hid. simpl.
  change (String.eqb "ocr" "ocr") with true. cbv iota.
  unfold Service.resolve_ocr. now rewrite Hr.
Qed.

(** X5. The detector is asked at most once for a stored image: when a text
    resolution has got as far as matching the text, successfully or not,
    the entry holds detected regions, and a text resolution that follows
    leaves the state as it is and computes its answer from these regions,
    whatever the detector would return now. *)
Theorem on_demand_detection_cached :
  forall (analyze analyze' : string -> option (list OcrItem)) (session_key : string)
         (text hint mn text' hint' mn' : option string) (thr thr' : option float)
         (svc : GroundingService),
    let first := resolve analyze session_key "ocr" text None hint thr mn svc in
    ((exists r, snd first = inr r) \/ (exists e, snd first = inl (OcrError e))) ->
    is_Some (ocr_results (cache_of session_key (fst first)))
    /\ resolve analyze' session_key "ocr" text' None hint' thr' mn' (fst first)
       = (fst first, resolve_ocr_finish ratio session_key text' thr' (fst first)).
Proof.
  intros analyze analyze' key text hint mn text' hint' mn' thr thr' svc first Hres.
  assert (H : is_Some (_sessions (fst first) !! key)
              /\ truthy_opt (screenshot_b64 (cache_of key (fst first))) = true
              /\ truthy_opt (screenshot_id (cache_of key (fst first))) = true
              /\ is_Some (ocr_results (cache_of key (fst first)))).
  { destruct (resolve_ids analyze key "ocr" text None hint thr mn svc key) as [Hi Hb].
    fold first in Hi, Hb. rewrite Hi, Hb.
    pose proof (resolve_frame_resolve ratio model_loads enum image_open model_chat
                  analyze key "ocr" text None hint thr mn svc) as (_ & _ & _ & HP).
    fold first in HP.
    subst first. revert Hres HP. unfold Service.resolve, resolve_enter.
    pose proof (cache_of_get_session key key svc) as Hc.
    pose proof (get_session_present key svc) as Hp.
    set (svc1 := _get_session key svc) in *. rewrite Hc.
    destruct (negb (truthy_opt (screenshot_b64 (cache_of key svc)))) eqn:E1;
      [simpl; intros [[r H]|[e H]]; discriminate|].
    destruct (negb (truthy_opt (screenshot_id (cache_of key svc)))) eqn:E2;
      [simpl; intros [[r H]|[e H]]; discriminate|].
    apply negb_false_iff in E1, E2. simpl.
    change (String.eqb "ocr" "ocr") with true. cbv iota.
    unfold Service.resolve_ocr.
    destruct (ocr_results (cache_of key svc1)) as [r0|] eqn:Hr.
    - simpl. intros _ _. rewrite Hr. repeat split; eauto.
    - destruct (analyze _) as [results|]; simpl.
      + intros _ _. split.
        * destruct (resolve_frame_store key results svc1) as (_ & _ & _ & HP').
          now apply HP'.
        * repeat split; auto. unfold resolve_store. rewrite cache_of_alter.
          destruct (decide (key = key)); [|congruence].
          destruct Hp as [c ->]. simpl. eauto.
      + intros [[r H]|[e H]]; discriminate. }
  destruct H as (Hp & Hb & Hid & [results Hr]).
  split; [rewrite Hr; eauto|]. now apply (resolve_ocr_cached _ _ _ _ _ _ _ results).
Qed.

(** *** The test for a screenshot *)

Lemma resolve_no_screenshot analyze key method text desc hint thr mn svc :
  snd (resolve analyze key method text desc hint thr mn svc) = inl NoScreenshot
  <-> (truthy_opt (screenshot_b64 (cache_of key svc))
       && truthy_opt (screenshot_id (cache_of key svc)) = false).
Proof.
  unfold Service.resolve, resolve_enter. rewrite cache_of_get_session.
  destruct (truthy_opt (screenshot_b64 (cache_of key svc)));
    destruct (truthy_opt (screenshot_id (cache_of key svc))); simpl;
    try (split; [reflexivity|reflexivity]).
  split; [|discriminate]. intros H. exfalso. revert H.
  destruct (String.eqb method "ocr").
  - unfold Service.resolve_ocr. destruct (ocr_results _).
    + simpl. unfold resolve_ocr_finish.
      destruct (resolve_ocr_text _ _ _ _) as [e|[x y]]; discriminate.
    + destruct (analyze _); simpl; [|discriminate]. unfold resolve_ocr_finish.
      destruct (resolve_ocr_text _ _ _ _) as [e|[x y]]; discriminate.
  - destruct (String.eqb method "prediction"); [|discriminate].
    unfold Service.resolve_prediction. destruct (negb (truthy_opt desc)); [discriminate|].
    destruct (_ensure_vision _ _ _) as [[svc2 m]|]; [|discriminate].
    destruct (_predict_sync _ _ _ _ _) as [[x y]|]; discriminate.
Qed.

Lemma truthy_prefix n s : truthy (prefix (S n) s) = truthy s.
Proof. now destruct s. Qed.

Lemma ingest_id_truthy b sid :
  (forall s, truthy (sha256_hexdigest s) = true) -> truthy (ingest_id b sid) = true.
Proof.
  intros Hsha. unfold Service.ingest_id, fingerprint.
  destruct sid as [sid|]; [destruct (truthy sid) eqn:E; [exact E|]|];
    rewrite truthy_prefix; apply Hsha.
Qed.

(** X7. A digest being never empty: after any events, a resolution by
    either method or by an unknown one fails for want of a screenshot
    exactly when the session has not been ingested at all or the image of
    its last ingestion is the empty string. An ingestion with an empty
    image is taken, and leaves the session without a screenshot. *)
Theorem no_screenshot_iff_empty_image :
  forall (es : list event) (session_key : string)
         (analyze : string -> option (list OcrItem)) (method : string)
         (text desc hint : option string) (thr : option float) (mn : option string),
    (forall s, truthy (sha256_hexdigest s) = true) ->
    snd (resolve analyze session_key method text desc hint thr mn (run es new_service))
    = inl NoScreenshot
    <-> match last_ingest session_key es with
        | Some (b, _) => b = EmptyString
        | None => True
        end.
Proof.
  intros es key analyze method text desc hint thr mn Hsha.
  rewrite resolve_no_screenshot.
  pose proof (holds_run key new_service es None new_service (conj eq_refl eq_refl)) as H.
  fold (last_ingest key es) in H.
  destruct (last_ingest key es) as [[b sid]|]; unfold entry_holds in H;
    destruct H as [-> ->]; simpl.
  - rewrite (ingest_id_truthy b sid Hsha), andb_true_r.
    destruct b; simpl; split; congruence.
  - split; auto.
Qed.

(** *** What runs during the awaits of a resolution *)

(** X8. A resolution reads the image it works on before its [await] and
    writes and reports after it, without comparing identifiers. Run alone
    it is [resolve]. When the session is ingested anew while the detection
    on demand of a text resolution is under way, the regions detected on
    the old image are stored in the entry that now holds the new image,
    and the answer gives the place of the text on the old image under the
    identifier of the new one. *)
Theorem resolution_reports_current_identifier :
  forall (analyze : string -> option (list OcrItem)) (svc : GroundingService)
         (session_key image_a id_a image_b : string) (sid_b text : option string)
         (thr : option float) (results_a : list OcrItem) (ready : bool),
    _sessions svc !! session_key
    = Some {| screenshot_id := Some id_a; screenshot_b64 := Some image_a;
              ocr_results := None; ocr_event := ready |} ->
    truthy image_a = true -> truthy id_a = true ->
    analyze image_a = Some results_a ->
    let out := resolve_during sha256_hexdigest OCR_AVAILABLE ratio model_loads enum
                 image_open model_chat analyze [] [Ingest session_key image_b sid_b]
                 session_key "ocr" text None None thr None svc in
    screenshot_b64 (cache_of session_key (fst out)) = Some image_b
    /\ screenshot_id (cache_of session_key (fst out)) = Some (ingest_id image_b sid_b)
    /\ ocr_results (cache_of session_key (fst out)) = Some results_a
    /\ snd out
       = match resolve_ocr_text ratio (default EmptyString text) results_a
                 (default (float_of_decimal 8 1) thr) with
         | inl e => inl (OcrError e)
         | inr (x, y) =>
             inr {| screenshotId := ingest_id image_b sid_b;
                    result_x := x; result_y := y |}
         end
    /\ (forall method description hint model_name s,
          resolve_during sha256_hexdigest OCR_AVAILABLE ratio model_loads enum
            image_open model_chat analyze [] [] session_key method text description
            hint thr model_name s
          = resolve analyze session_key method text description hint thr model_name s).
Proof.
  intros analyze svc key image_a id_a image_b sid_b text thr results_a ready
         Hk Ta Ti Han out.
  assert (Hout : out = (resolve_store key results_a
                          (fst (ingest_screenshot key image_b sid_b svc)),
                        resolve_ocr_finish ratio key text thr
                          (resolve_store key results_a
                             (fst (ingest_screenshot key image_b sid_b svc))))).
  { subst out. unfold resolve_during, resolve_enter.
    rewrite (get_session_id key svc) by (rewrite Hk; eauto).
    unfold cache_of at 1 2. rewrite Hk. simpl. rewrite Ta, Ti. simpl.
    change (String.eqb "ocr" "ocr") with true. cbv iota.
    unfold resolve_ocr_during, others. simpl.
    unfold cache_of at 1 2. rewrite Hk. simpl. rewrite Han. reflexivity. }
  set (svc2 := fst (ingest_screenshot key image_b sid_b svc)) in *.
  assert (Hc : cache_of key (resolve_store key results_a svc2)
               = {| screenshot_id := Some (ingest_id image_b sid_b);
                    screenshot_b64 := Some image_b;
                    ocr_results := Some results_a; ocr_event := false |}).
  { unfold resolve_store. rewrite cache_of_alter.
    destruct (decide (key = key)); [|congruence].
    unfold svc2. now rewrite ingest_lookup. }
  rewrite Hout. cbn [fst snd]. rewrite Hc. cbn [screenshot_b64 screenshot_id ocr_results].
  repeat (split; [reflexivity|]). split.
  - unfold resolve_ocr_finish. rewrite Hc. cbn [ocr_results screenshot_id].
    rewrite falsy_default. reflexivity.
  - intros method description hint model_name s.
    unfold resolve_during, Service.resolve, others.
    destruct (resolve_enter key s) as [s1 [e|c]]; [reflexivity|].
    destruct (String.eqb method "ocr"); [reflexivity|].
    destruct (String.eqb method "prediction"); reflexivity.
Qed.

End Server.

(** *** Without the detection dependency *)

Section NoOcr.
Variable sha256_hexdigest : string -> string.
Variable ratio : list ascii -> list ascii -> float.
Variable model_loads : string -> bool.
Variable enum : list (Z * Z).
Variable image_open : string -> option Image.
Variable model_chat : list Tile -> string -> option string.

Local Abbreviation run0 := (run sha256_hexdigest false ratio model_loads enum image_open model_chat).
Local Abbreviation step0 := (step sha256_hexdigest false ratio model_loads enum image_open model_chat).
Local Abbreviation resolve0 := (resolve ratio model_loads enum image_open model_chat).

(** The detector of a resolution never answers. *)
Local Abbreviation silent e :=
  (match e with
   | Resolve an _ _ _ _ _ _ _ => forall b, an b = None
   | _ => True
   end).

Lemma no_ocr_step svc e :
  silent e ->
  (forall k, ocr_results (cache_of k svc) = None) ->
  forall k, ocr_results (cache_of k (step0 svc e)) = None.
Proof.
  intros He H k. destruct e as [k' b sid|i outcome|an k' m t d h th mn];
    unfold Service.step.
  - destruct (decide (k = k')) as [->|Hne].
    + now rewrite ingest_cache.
    + now rewrite ingest_cache_other.
  - destruct (ocr_tasks svc !! i) as [t|] eqn:Hi.
    + rewrite (finish_task_cache _ _ _ _ _ _ Hi).
      destruct (decide (task_key t = k)); [|apply H].
      specialize (H k). unfold cache_of in H.
      destruct (_sessions svc !! k) as [c|]; [|reflexivity]. exact H.
    + rewrite (finish_task_none _ _ _ _ Hi). apply H.
  - destruct (resolve_results ratio model_loads enum image_open model_chat
                an k' m t d h th mn svc) as [Hr|(_ & _ & b & r & _ & Ha & _)].
    + destruct (decide (k = k')) as [->|Hne]; [rewrite Hr; apply H|].
      destruct (resolve_frame_resolve ratio model_loads enum image_open model_chat
                  an k' m t d h th mn svc) as (_ & _ & HO & _).
      unfold cache_of at 1. rewrite HO by assumption. apply H.
    + rewrite He in Ha. discriminate.
Qed.

Lemma no_ocr_run es : forall svc,
  Forall (fun e => silent e) es ->
  (forall k, ocr_results (cache_of k svc) = None) ->
  forall k, ocr_results (cache_of k (run0 es svc)) = None.
Proof.
  induction es as [|e es IH]; intros svc Hes H; [exact H|].
  inversion Hes as [|? ? He Hes']; subst.
  change (run0 (e :: es) svc) with (run0 es (step0 svc e)).
  apply IH; [exact Hes'|]. now apply no_ocr_step.
Qed.

(** X9. Without the detection dependency the engine is not built, and the
    detector raises on every image. Then, under any schedule, no entry
    ever holds detected regions, whatever the detection tasks end with,
    and a text resolution fails: for want of a screenshot, or because the
    engine is not available. *)
Theorem without_ocr_no_text_resolution :
  forall (num E : Type) (num_lt : num -> num -> bool) (to_int : num -> option Z)
         (rapidocr : bool -> option E) (es : list event) (session_key : string)
         (text hint mn : option string) (thr : option float),
    let analyze := OcrEngine.analyze num num_lt to_int None in
    Forall (fun e => silent e) es ->
    OcrEngine._init false rapidocr = Some (None, false)
    /\ (forall b, analyze b = None)
    /\ (forall k, ocr_results (cache_of k (run0 es new_service)) = None)
    /\ (snd (resolve0 analyze session_key "ocr" text None hint thr mn
               (run0 es new_service)) = inl NoScreenshot
        \/ snd (resolve0 analyze session_key "ocr" text None hint thr mn
                  (run0 es new_service)) = inl OcrUnavailable).
Proof.
  intros num E num_lt to_int rapidocr es key text hint mn thr analyze Hes.
  split; [reflexivity|]. split; [reflexivity|].
  assert (H : forall k, ocr_results (cache_of k (run0 es new_service)) = None).
  { apply no_ocr_run; [exact Hes|]. intros k. unfold cache_of. simpl.
    now rewrite lookup_empty. }
  split; [exact H|].
  unfold Service.resolve, resolve_enter. rewrite !cache_of_get_session.
  destruct (negb _ || negb _); [now left|]. right.
  change (String.eqb "ocr" "ocr") with true. cbv iota.
  unfold Service.resolve_ocr. rewrite cache_of_get_session, H. reflexivity.
Qed.

End NoOcr.

(** *** On the stand-ins *)

Local Abbreviation run_stub :=
  (run Examples.stub_sha256 true Examples.exact_ratio Examples.no_model
       grids Examples.no_image Examples.no_chat).
Local Abbreviation resolve_stub :=
  (resolve Examples.exact_ratio Examples.no_model grids Examples.no_image
     Examples.no_chat Examples.stub_analyze).

Lemma entries_never_removed_witness :
  is_Some (_sessions
             (run_stub ([Resolve Examples.stub_analyze "s" "ocr" None None None None None]
                        ++ [Ingest "t" "A" None]) new_service) !! "s").
Proof.
  apply (entries_never_removed Examples.stub_sha256 true Examples.exact_ratio
           Examples.no_model grids Examples.no_image Examples.no_chat).
  right. eexists. split; [apply list_elem_of_here|reflexivity].
Defined.

Lemma vision_model_loaded_once_witness :
  let svc1 := with_vision_model (Some "m1"%string) new_service in
  let svc2 := run Examples.stub_sha256 true Examples.exact_ratio (fun _ => true)
                grids Examples.no_image Examples.no_chat
                [Ingest "s" "A" None;
                 Resolve Examples.stub_analyze "s" "prediction" None
                   (Some "the button"%string) None None (Some "m2"%string)] svc1 in
  _vision_model svc2 = Some "m1"%string
  /\ _ensure_vision (fun _ => true) (Some "m2"%string) svc2 = Some (svc2, "m1"%string).
Proof.
  intros svc1 svc2.
  destruct (vision_model_loaded_once Examples.stub_sha256 true Examples.exact_ratio
              (fun _ => true) grids Examples.no_image Examples.no_chat
              (Some "m1"%string) new_service svc1 "m1"
              [Ingest "s" "A" None;
               Resolve Examples.stub_analyze "s" "prediction" None
                 (Some "the button"%string) None None (Some "m2"%string)]
              eq_refl) as (_ & H1 & _ & H2).
  split; [exact H1|apply H2].
Defined.

Lemma step_touches_one_session_witness :
  _sessions (run_stub [Ingest "s" "A" None; Ingest "t" "B" None; OcrDone 1 None]
               new_service) !! "s"
  = _sessions (run_stub [Ingest "s" "A" None; Ingest "t" "B" None] new_service) !! "s".
Proof.
  apply (step_touches_one_session Examples.stub_sha256 true Examples.exact_ratio
           Examples.no_model grids Examples.no_image Examples.no_chat
           (OcrDone 1 None)
           (run_stub [Ingest "s" "A" None; Ingest "t" "B" None] new_service) "s").
  vm_compute. discriminate.
Defined.

Lemma on_demand_detection_cached_witness :
  let svc := run_stub [Ingest "s" "A" None] new_service in
  let first := resolve_stub "s" "ocr" (Some "Submit"%string) None None None None svc in
  resolve Examples.exact_ratio Examples.no_model grids Examples.no_image
    Examples.no_chat (fun _ => None) "s" "ocr" (Some "Submit"%string) None None None
    None (fst first)
  = (fst first,
     resolve_ocr_finish Examples.exact_ratio "s" (Some "Submit"%string) None (fst first)).
Proof.
  intros svc first.
  refine (proj2 (on_demand_detection_cached Examples.exact_ratio Examples.no_model
                   grids Examples.no_image Examples.no_chat Examples.stub_analyze
                   (fun _ => None) "s" (Some "Submit"%string) None None
                   (Some "Submit"%string) None None None None svc _)).
  left. eexists. vm_compute. reflexivity.
Defined.

Lemma stub_sha256_truthy s : truthy (Examples.stub_sha256 s) = true.
Proof. destruct s; reflexivity. Qed.

Lemma no_screenshot_iff_empty_image_witness :
  snd (resolve_stub "s" "ocr" (Some "Submit"%string) None None None None
         (run_stub [Ingest "s" "A" None; Ingest "s" "" None] new_service))
  = inl NoScreenshot.
Proof.
  apply (no_screenshot_iff_empty_image Examples.stub_sha256 true Examples.exact_ratio
           Examples.no_model grids Examples.no_image Examples.no_chat
           [Ingest "s" "A" None; Ingest "s" "" None] "s" Examples.stub_analyze "ocr"
           (Some "Submit"%string) None None None None stub_sha256_truthy).
  vm_compute. reflexivity.
Defined.

Lemma resolution_reports_current_identifier_witness :
  let svc := run_stub [Ingest "s" "A" (Some "a"%string)] new_service in
  let out := resolve_during Examples.stub_sha256 true Examples.exact_ratio
               Examples.no_model grids Examples.no_image Examples.no_chat
               Examples.stub_analyze [] [Ingest "s" "B" (Some "b"%string)]
               "s" "ocr" (Some "Submit"%string) None None None None svc in
  screenshot_b64 (cache_of "s" (fst out)) = Some "B"%string
  /\ ocr_results (cache_of "s" (fst out)) = Some Examples.regions_A
  /\ snd out = inr {| screenshotId := "b"; result_x := 30; result_y := 25 |}.
Proof.
  intros svc out.
  destruct (resolution_reports_current_identifier Examples.stub_sha256 true
              Examples.exact_ratio Examples.no_model grids Examples.no_image
              Examples.no_chat Examples.stub_analyze svc "s" "A" "a" "B"
              (Some "b"%string) (Some "Submit"%string) None Examples.regions_A false)
    as (H1 & _ & H3 & H4 & _); try reflexivity.
  split; [exact H1|]. split; [exact H3|]. unfold out. rewrite H4. vm_compute. reflexivity.
Defined.

Lemma without_ocr_no_text_resolution_witness :
  ocr_results
    (cache_of "s"
       (run Examples.stub_sha256 false Examples.exact_ratio Examples.no_model
          grids Examples.no_image Examples.no_chat
          [Ingest "s" "A" None; OcrDone 0 (Some Examples.regions_A)]
          new_service)) = None.
Proof.
  refine (proj1 (proj2 (proj2 (without_ocr_no_text_resolution Examples.stub_sha256
            Examples.exact_ratio Examples.no_model grids Examples.no_image
            Examples.no_chat Z unit Z.ltb Some (fun _ => None)
            [Ingest "s" "A" None; OcrDone 0 (Some Examples.regions_A)] "s"
            None None None None _))) "s").
  repeat constructor.
Defined.

End ScheduleFacts.

(* ================================================================= *)
(** ** The detection engine *)

Module OcrEngineFacts.
Import Float64 PyStr OcrText OcrEngine.

(** *** [strip] *)

Lemma drop_while_head p (s : list ascii) :
  match drop_while p s with
  | [] => True
  | c :: _ => p c = false
  end.
Proof.
  induction s as [|c s IH]; simpl; [exact I|].
  destruct (p c) eqn:E; [exact IH|exact E].
Qed.

Lemma drop_while_suffix p (s : list ascii) :
  exists pre, s = pre ++ drop_while p s.
Proof.
  induction s as [|c s [pre IH]]; simpl; [now exists []|].
  destruct (p c); [|now exists []]. exists (c :: pre). simpl. now f_equal.
Qed.

Lemma drop_while_id p (s : list ascii) :
  match s with [] => True | c :: _ => p c = false end -> drop_while p s = s.
Proof. destruct s as [|c s]; simpl; [reflexivity|]. now intros ->. Qed.

(** A stripped text starts and ends with a character that is no white
    space. *)
Lemma strip_ends (s : list ascii) :
  match strip s with [] => True | c :: _ => is_space c = false end
  /\ match rev (strip s) with [] => True | c :: _ => is_space c = false end.
Proof.
  unfold strip. rewrite rev_involutive.
  pose proof (drop_while_head is_space s) as Hd.
  set (d := drop_while is_space s) in *.
  pose proof (drop_while_head is_space (rev d)) as Hr.
  destruct (drop_while_suffix is_space (rev d)) as [pre Hpre].
  set (r := drop_while is_space (rev d)) in *.
  split; [|exact Hr].
  destruct r as [|c r]; [exact I|].
  assert (Hd' : d = rev (c :: r) ++ rev pre).
  { rewrite <- rev_app_distr, <- Hpre. now rewrite rev_involutive. }
  destruct (rev (c :: r)) as [|c' r'] eqn:E.
  - apply (f_equal (@length ascii)) in E. rewrite length_rev in E. discriminate.
  - rewrite Hd' in Hd. exact Hd.
Qed.

Lemma strip_idempotent (s : list ascii) : strip (strip s) = strip s.
Proof.
  destruct (strip_ends s) as [H1 H2]. set (t := strip s) in *.
  unfold strip. rewrite (drop_while_id _ t H1), (drop_while_id _ (rev t) H2).
  apply rev_involutive.
Qed.

(** *** The boxes *)

Section Analyze.
Variable num : Type.
Variable num_lt : num -> num -> bool.
Variable to_int : num -> option Z.

Local Abbreviation py_min := (py_min num num_lt).
Local Abbreviation py_max := (py_max num num_lt).
Local Abbreviation box_bbox := (box_bbox num num_lt to_int).
Local Abbreviation bbox_list := (bbox_list num num_lt to_int).
Local Abbreviation kept_boxes := (kept_boxes num).
Local Abbreviation _analyze_sync := (_analyze_sync num num_lt to_int).

Lemma bbox_list_kept boxes :
  bbox_list boxes = mapM box_bbox (kept_boxes boxes).
Proof.
  induction boxes as [|[box|] boxes IH]; simpl; [reflexivity| |exact IH].
  destruct (length box <? 4)%nat; [exact IH|].
  simpl. rewrite IH. reflexivity.
Qed.

Lemma kept_boxes_length box boxes :
  box ∈ kept_boxes boxes -> (4 <= length box)%nat.
Proof.
  unfold OcrEngine.kept_boxes. intros H. apply list_elem_of_omap in H as ([b|] & _ & Hb);
    [|discriminate].
  destruct (Nat.ltb_spec (length b) 4); [discriminate|]. injection Hb as <-. lia.
Qed.

Lemma analyze_items r items :
  _analyze_sync (Some r) = Some items ->
  exists l,
    mapM box_bbox (kept_boxes (default [] (boxes num r))) = Some l
    /\ items = imap (make_item (default [] (scores num r)))
                 (zip (default [] (txts num r)) l).
Proof.
  unfold OcrEngine._analyze_sync. rewrite bbox_list_kept.
  destruct (mapM _ _) as [l|]; [|discriminate].
  simpl. intros [= <-]. now exists l.
Qed.

Lemma analyze_item r items i item :
  _analyze_sync (Some r) = Some items -> items !! i = Some item ->
  exists text box x1 y1 x2 y2,
    default [] (txts num r) !! i = Some text
    /\ kept_boxes (default [] (boxes num r)) !! i = Some box
    /\ box_bbox box = Some (x1, y1, x2, y2)
    /\ item = make_item (default [] (scores num r)) i (text, (x1, y1, x2, y2)).
Proof.
  intros Ha Hi. apply analyze_items in Ha as (l & Hl & ->).
  apply list_lookup_imap_Some in Hi as ([text [[[x1 y1] x2] y2]] & Hz & ->).
  apply lookup_zip_Some in Hz as [Ht Hb].
  apply mapM_Some_1 in Hl.
  destruct (Forall2_lookup_r _ _ _ _ _ Hl Hb) as (box & Hbox & Hbb).
  exists text, box, x1, y1, x2, y2. auto.
Qed.

(** X11. When [_analyze_sync] returns, the regions are as many as the
    shorter of the texts and of the boxes that are kept, a box being kept
    when it is not [None] and has at least four points. The region at
    position [i] has the identifier [str(i)], the [i]-th text, stripped,
    and the [i]-th of the boxes kept: after a box that is passed over, the
    texts and the boxes of the detector are paired with a shift. Its
    confidence is the [i]-th score, 0.9 when that is missing or [None].
    The identifiers are pairwise distinct, and stripping a text again
    changes nothing. An engine that returns no result gives no region. *)
Theorem analyze_sync_regions :
  forall (r : RawResult num) (items : list OcrItem),
    _analyze_sync (Some r) = Some items ->
    let texts := default [] (txts num r) in
    let kept := kept_boxes (default [] (boxes num r)) in
    length items = Nat.min (length texts) (length kept)
    /\ (forall i item, items !! i = Some item ->
          item_id item = pretty i
          /\ (exists text, texts !! i = Some text
                /\ chars (item_text item) = strip (chars text))
          /\ strip (chars (item_text item)) = chars (item_text item)
          /\ (exists box x1 y1 x2 y2,
                kept !! i = Some box /\ (4 <= length box)%nat
                /\ box_bbox box = Some (x1, y1, x2, y2)
                /\ item_bbox item = {| bbox_x := x1; bbox_y := y1;
                                       bbox_width := x2 - x1;
                                       bbox_height := y2 - y1 |})
          /\ item_confidence item
             = match default [] (scores num r) !! i with
               | Some (Some s) => s
               | _ => f0_9
               end)
    /\ NoDup (map item_id items)
    /\ _analyze_sync None = Some [].
Proof.
  intros r items Ha texts kept. split; [|split; [|split]].
  - destruct (analyze_items r items Ha) as (l & Hl & ->).
    rewrite length_imap, length_zip. apply length_mapM in Hl.
    fold kept in Hl. rewrite Hl. reflexivity.
  - intros i item Hi.
    destruct (analyze_item r items i item Ha Hi)
      as (text & box & x1 & y1 & x2 & y2 & Ht & Hb & Hbb & ->).
    simpl. split; [reflexivity|]. split; [|split; [|split]].
    + exists text. split; [exact Ht|]. unfold chars at 1.
      apply list_ascii_of_string_of_list_ascii.
    + unfold chars at 1 3. rewrite list_ascii_of_string_of_list_ascii.
      apply strip_idempotent.
    + exists box, x1, y1, x2, y2. split; [exact Hb|]. split; [|auto].
      apply (kept_boxes_length box (default [] (boxes num r))).
      eapply list_elem_of_lookup_2. exact Hb.
    + reflexivity.
  - apply NoDup_alt. intros i j id Hi Hj.
    rewrite list_lookup_fmap in Hi, Hj.
    destruct (items !! i) as [a|] eqn:Ea; [|discriminate].
    destruct (items !! j) as [b|] eqn:Eb; [|discriminate].
    destruct (analyze_item r items i a Ha Ea)
      as (t1 & b1 & ? & ? & ? & ? & _ & _ & _ & ->).
    destruct (analyze_item r items j b Ha Eb)
      as (t2 & b2 & ? & ? & ? & ? & _ & _ & _ & ->).
    simpl in Hi, Hj. injection Hi as <-. injection Hj as Hj.
    apply (inj pretty). now symmetry.
  - reflexivity.
Qed.

(** *** The smallest and the largest coordinate *)

Hypothesis lt_irrefl : forall a, num_lt a a = false.
Hypothesis lt_trans :
  forall a b c, num_lt a b = true -> num_lt b c = true -> num_lt a c = true.
Hypothesis le_trans :
  forall a b c, num_lt b a = false -> num_lt c b = false -> num_lt c a = false.
Hypothesis to_int_mono :
  forall a b x y, num_lt b a = false -> to_int a = Some x -> to_int b = Some y ->
    x <= y.

Lemma lt_asym a b : num_lt a b = true -> num_lt b a = false.
Proof.
  intros H. destruct (num_lt b a) eqn:E; [|reflexivity].
  pose proof (lt_trans _ _ _ H E) as H'. now rewrite lt_irrefl in H'.
Qed.

Lemma fold_min_bound rest : forall m,
  let r := fold_left (fun m y => if num_lt y m then y else m) rest m in
  (r = m \/ r ∈ rest) /\ num_lt m r = false
  /\ forall x, x ∈ rest -> num_lt x r = false.
Proof.
  induction rest as [|y rest IH]; intros m; simpl.
  - split; [now left|]. split; [apply lt_irrefl|]. intros x Hx. inversion Hx.
  - destruct (IH (if num_lt y m then y else m)) as (Hin & Hm & Hall).
    set (r := fold_left _ rest _) in *.
    destruct (num_lt y m) eqn:E.
    + split; [|split].
      * right. destruct Hin as [->|Hin]; [left|now right].
      * apply (le_trans r y m); [exact Hm|now apply lt_asym].
      * intros x Hx. apply elem_of_cons in Hx as [->|Hx]; [exact Hm|now apply Hall].
    + split; [|split].
      * destruct Hin as [->|Hin]; [now left|right; now right].
      * exact Hm.
      * intros x Hx. apply elem_of_cons in Hx as [->|Hx]; [|now apply Hall].
        apply (le_trans r m y); [exact Hm|exact E].
Qed.

Lemma fold_max_bound rest : forall m,
  let r := fold_left (fun m y => if num_lt m y then y else m) rest m in
  (r = m \/ r ∈ rest) /\ num_lt r m = false
  /\ forall x, x ∈ rest -> num_lt r x = false.
Proof.
  induction rest as [|y rest IH]; intros m; simpl.
  - split; [now left|]. split; [apply lt_irrefl|]. intros x Hx. inversion Hx.
  - destruct (IH (if num_lt m y then y else m)) as (Hin & Hm & Hall).
    set (r := fold_left _ rest _) in *.
    destruct (num_lt m y) eqn:E.
    + split; [|split].
      * right. destruct Hin as [->|Hin]; [left|now right].
      * apply (le_trans m y r); [now apply lt_asym|exact Hm].
      * intros x Hx. apply elem_of_cons in Hx as [->|Hx]; [exact Hm|now apply Hall].
    + split; [|split].
      * destruct Hin as [->|Hin]; [now left|right; now right].
      * exact Hm.
      * intros x Hx. apply elem_of_cons in Hx as [->|Hx]; [|now apply Hall].
        apply (le_trans y m r); [exact E|exact Hm].
Qed.

Lemma py_min_bound xs m :
  py_min xs = Some m -> m ∈ xs /\ forall x, x ∈ xs -> num_lt x m = false.
Proof.
  destruct xs as [|a rest]; [discriminate|]. simpl. intros [= <-].
  destruct (fold_min_bound rest a) as (Hin & Hm & Hall). split.
  - destruct Hin as [->|Hin]; [left|now right].
  - intros x Hx. apply elem_of_cons in Hx as [->|Hx]; [exact Hm|now apply Hall].
Qed.

Lemma py_max_bound xs m :
  py_max xs = Some m -> m ∈ xs /\ forall x, x ∈ xs -> num_lt m x = false.
Proof.
  destruct xs as [|a rest]; [discriminate|]. simpl. intros [= <-].
  destruct (fold_max_bound rest a) as (Hin & Hm & Hall). split.
  - destruct Hin as [->|Hin]; [left|now right].
  - intros x Hx. apply elem_of_cons in Hx as [->|Hx]; [exact Hm|now apply Hall].
Qed.

Lemma axis_bounds xs lo hi :
  py_min xs ≫= to_int = Some lo -> py_max xs ≫= to_int = Some hi ->
  lo <= hi
  /\ forall x v, x ∈ xs -> to_int x = Some v -> lo <= v <= hi.
Proof.
  intros Hlo Hhi.
  destruct (py_min xs) as [m|] eqn:Em; [|discriminate].
  destruct (py_max xs) as [M|] eqn:EM; [|discriminate].
  simpl in Hlo, Hhi.
  destruct (py_min_bound xs m Em) as [Hm Hmin].
  destruct (py_max_bound xs M EM) as [HM Hmax].
  split.
  - apply (to_int_mono m M); auto.
  - intros x v Hx Hv. split.
    + apply (to_int_mono m x); auto.
    + apply (to_int_mono x M); auto.
Qed.

Lemma box_bbox_bounds box x1 y1 x2 y2 :
  box_bbox box = Some (x1, y1, x2, y2) ->
  x1 <= x2 /\ y1 <= y2
  /\ forall p px py, p ∈ box -> to_int (fst p) = Some px -> to_int (snd p) = Some py ->
       x1 <= px <= x2 /\ y1 <= py <= y2.
Proof.
  unfold OcrEngine.box_bbox. intros H.
  destruct (py_min (map fst box) ≫= to_int) as [a|] eqn:E1; [|discriminate].
  destruct (py_min (map snd box) ≫= to_int) as [b|] eqn:E2; [|discriminate].
  destruct (py_max (map fst box) ≫= to_int) as [c|] eqn:E3; [|discriminate].
  destruct (py_max (map snd box) ≫= to_int) as [d|] eqn:E4; [|discriminate].
  simpl in H. injection H as <- <- <- <-.
  destruct (axis_bounds _ _ _ E1 E3) as [Hx Hxs].
  destruct (axis_bounds _ _ _ E2 E4) as [Hy Hys].
  split; [exact Hx|]. split; [exact Hy|].
  intros p px py Hp Hpx Hpy. split.
  - apply (Hxs (fst p)); [|exact Hpx]. apply list_elem_of_fmap. now exists p.
  - apply (Hys (snd p)); [|exact Hpy]. apply list_elem_of_fmap. now exists p.
Qed.

(** X10. The numbers of the detector being ordered by [<] as a total
    order, up to equal numbers, and [int()] being monotone where it is
    defined: the width and the height of every region are not negative,
    the box of the region encloses every corner point the detector gave,
    coordinates converted by [int()], and the centre the text resolver
    computes from the box lies in the box. *)
Theorem analyze_sync_box_encloses :
  forall (r : RawResult num) (items : list OcrItem) (i : nat) (item : OcrItem),
    _analyze_sync (Some r) = Some items ->
    items !! i = Some item ->
    0 <= bbox_width (item_bbox item) /\ 0 <= bbox_height (item_bbox item)
    /\ (exists box, kept_boxes (default [] (boxes num r)) !! i = Some box
          /\ forall p px py, p ∈ box ->
               to_int (fst p) = Some px -> to_int (snd p) = Some py ->
               encloses (item_bbox item) px py)
    /\ encloses (item_bbox item) (fst (bbox_center (item_bbox item)))
         (snd (bbox_center (item_bbox item))).
Proof.
  intros r items i item Ha Hi.
  destruct (analyze_item r items i item Ha Hi)
    as (text & box & x1 & y1 & x2 & y2 & Ht & Hb & Hbb & ->).
  destruct (box_bbox_bounds box x1 y1 x2 y2 Hbb) as (Hx & Hy & Hp).
  unfold encloses, bbox_center. simpl.
  split; [lia|]. split; [lia|]. split.
  - exists box. split; [exact Hb|]. intros p px py Hin Hpx Hpy.
    destruct (Hp p px py Hin Hpx Hpy). lia.
  - assert (0 <= (x2 - x1) / 2 <= x2 - x1).
    { split; [apply Z.div_pos; lia|apply Z.div_le_upper_bound; lia]. }
    assert (0 <= (y2 - y1) / 2 <= y2 - y1).
    { split; [apply Z.div_pos; lia|apply Z.div_le_upper_bound; lia]. }
    lia.
Qed.

End Analyze.

(** The detector giving integers. *)
Lemma analyze_sync_box_encloses_witness :
  let r := {| txts := Some ["  OK "%string];
              scores := Some [];
              boxes := Some [None; Some [(10, 20); (50, 21); (49, 30); (11, 29)]] |} in
  _analyze_sync Z Z.ltb Some (Some r)
  = Some [ {| item_id := "0"; item_text := "OK"; item_confidence := f0_9;
              item_bbox := {| bbox_x := 10; bbox_y := 20;
                              bbox_width := 40; bbox_height := 10 |} |} ]
  /\ encloses {| bbox_x := 10; bbox_y := 20; bbox_width := 40; bbox_height := 10 |}
       30 25.
Proof.
  intros r.
  assert (Ha : _analyze_sync Z Z.ltb Some (Some r)
               = Some [ {| item_id := "0"; item_text := "OK"; item_confidence := f0_9;
                           item_bbox := {| bbox_x := 10; bbox_y := 20;
                                           bbox_width := 40; bbox_height := 10 |} |} ])
    by (vm_compute; reflexivity).
  split; [exact Ha|].
  refine (proj2 (proj2 (proj2 (analyze_sync_box_encloses Z Z.ltb Some _ _ _ _
                   r _ 0%nat _ Ha eq_refl)))).
  - intros a. apply Z.ltb_irrefl.
  - intros a b c H1 H2. apply Z.ltb_lt in H1, H2. apply Z.ltb_lt. lia.
  - intros a b c H1 H2. apply Z.ltb_ge in H1, H2. apply Z.ltb_ge. lia.
  - intros a b x y H [= <-] [= <-]. apply Z.ltb_ge in H. exact H.
Defined.

Lemma analyze_sync_regions_witness :
  let r := {| txts := Some ["  OK "%string; "Cancel"%string];
              scores := Some [];
              boxes := Some [None; Some [(10, 20); (50, 21); (49, 30); (11, 29)]] |} in
  let items := [ {| item_id := "0"; item_text := "OK"; item_confidence := f0_9;
                    item_bbox := {| bbox_x := 10; bbox_y := 20;
                                    bbox_width := 40; bbox_height := 10 |} |} ] in
  length items = Nat.min 2 1 /\ NoDup (map item_id items).
Proof.
  intros r items.
  assert (Ha : _analyze_sync Z Z.ltb Some (Some r) = Some items)
    by (vm_compute; reflexivity).
  destruct (analyze_sync_regions Z Z.ltb Some r items Ha) as (H1 & _ & H3 & _).
  split; [exact H1|exact H3].
Defined.

End OcrEngineFacts.

(* ================================================================= *)
(** ** The protocol and the main loop *)

Module JsonRpcFacts.
Import Float64 PyStr JsonRpc.

Section Protocol.
Variable State : Type.
Variable float_repr : float -> string.

Local Abbreviation handler := (handler State).
Local Abbreviation handle := (handle State float_repr).

(** [handle] raises exactly on the requests [raises] describes. *)
Lemma handle_raises (methods : gmap string handler) payload st :
  (exists f, snd (handle methods payload st) = inl f) <-> raises payload = true.
Proof.
  unfold JsonRpc.handle, raises.
  destruct payload as [| | | | | |kv];
    try (split; [reflexivity|intros _; now exists AttributeError]).
  destruct (is_version_2 (dict_get "jsonrpc" kv)); simpl;
    [|split; [intros [f H]; discriminate|discriminate]].
  destruct (dict_get "method" kv) as [|b|n|x|s|l|kv'] eqn:Em; simpl;
    try (split; [intros [f H]; discriminate|discriminate]).
  - destruct b; simpl; split; try discriminate; intros [f H]; discriminate.
  - destruct (negb (n =? 0)); simpl; split; try discriminate; intros [f H];
      discriminate.
  - destruct (negb (negb (feq x f0_0))); simpl; split; try discriminate;
      intros [f H]; discriminate.
  - destruct (negb (truthy s)); simpl; [split; [intros [f H]|]; discriminate|].
    destruct (methods !! s) as [h|]; [|split; [intros [f H]|]; discriminate].
    destruct (if truthy_json (dict_get "params" kv) then dict_get "params" kv
              else JObj []);
      try (split; [intros [f H]|]; discriminate).
    destruct (h _ st) as [st' [m|v]]; split; try discriminate; intros [f H];
      discriminate.
  - destruct l; simpl; [split; [intros [f H]|]; discriminate|].
    split; [reflexivity|]. intros _. now exists TypeError.
  - destruct kv'; simpl; [split; [intros [f H]|]; discriminate|].
    split; [reflexivity|]. intros _. now exists TypeError.
Qed.

(** X12. [handle] runs a handler only for a request that is a dictionary
    with the version ["2.0"], whose method is a registered name and whose
    parameters are a dictionary or a value that counts as false, which
    stands for no parameter; the state after the call is then the one the
    handler left, also when the handler raised, and the response carries
    the result of the handler, or the code -32603 with the message of its
    exception. In every other case the state is untouched. A response
    carries the ["id"] of the request, [None] when there is none. *)
Theorem handle_dispatch :
  forall (methods : gmap string handler) (payload : json) (st st' : State)
         (r : response),
    handle methods payload st = (st', inr r) ->
    exists kv,
      payload = JObj kv
      /\ resp_jsonrpc r = "2.0"%string
      /\ resp_id r = dict_get "id" kv
      /\ ((st' = st
           /\ exists message,
                (resp_body r = Error (-32600) message
                 /\ (is_version_2 (dict_get "jsonrpc" kv) = false
                     \/ truthy_json (dict_get "method" kv) = false))
                \/ (resp_body r = Error (-32601) message
                    /\ methods_get State methods (dict_get "method" kv) = inr None)
                \/ (resp_body r = Error (-32602) message
                    /\ truthy_json (dict_get "params" kv) = true
                    /\ forall args, dict_get "params" kv <> JObj args))
          \/ (exists name h args,
                is_version_2 (dict_get "jsonrpc" kv) = true
                /\ dict_get "method" kv = JStr name
                /\ methods !! name = Some h
                /\ (dict_get "params" kv = JObj args
                    \/ (truthy_json (dict_get "params" kv) = false /\ args = []))
                /\ st' = fst (h args st)
                /\ resp_body r = match snd (h args st) with
                                 | inr result => Result result
                                 | inl message => Error (-32603) message
                                 end)).
Proof.
  intros methods payload st st' r. unfold JsonRpc.handle.
  destruct payload as [| | | | | |kv]; try discriminate.
  intros H. exists kv. split; [reflexivity|]. revert H.
  destruct (is_version_2 (dict_get "jsonrpc" kv)) eqn:Ev; simpl.
  2:{ intros [= <- <-]. simpl. repeat split. left. split; [reflexivity|].
      eexists. left. split; [reflexivity|now left]. }
  destruct (truthy_json (dict_get "method" kv)) eqn:Et; simpl.
  2:{ intros [= <- <-]. simpl. repeat split. left. split; [reflexivity|].
      eexists. left. split; [reflexivity|now right]. }
  destruct (methods_get State methods (dict_get "method" kv)) as [f|[h|]] eqn:Eg;
    [discriminate| |].
  2:{ intros [= <- <-]. simpl. repeat split. left. split; [reflexivity|].
      eexists. right. left. split; reflexivity. }
  assert (Hname : exists name, dict_get "method" kv = JStr name
                               /\ methods !! name = Some h).
  { unfold methods_get in Eg. destruct (dict_get "method" kv); try discriminate.
    injection Eg as Eg. eauto. }
  destruct Hname as (name & Hm & Hh).
  destruct (truthy_json (dict_get "params" kv)) eqn:Ep.
  - destruct (dict_get "params" kv) as [| | | | | |args] eqn:Eparams;
      try (intros [= <- <-]; simpl; repeat split; left; split; [reflexivity|];
           eexists; right; right; split; [reflexivity|];
           split; [reflexivity|intros args; discriminate]).
    destruct (h args st) as [st2 [m|v]] eqn:Eh; intros [= <- <-]; simpl;
      repeat split; right; exists name, h, args; rewrite Eh; simpl;
      repeat split; auto.
  - destruct (h [] st) as [st2 [m|v]] eqn:Eh; intros [= <- <-]; simpl;
      repeat split; right; exists name, h, (@nil (string * json)); rewrite Eh; simpl;
      repeat split; auto.
Qed.

(** *** The main loop *)

Variable json_loads : string -> loaded.
Variable send : nat -> response -> bool.
Variable background : nat -> State -> State.

Local Abbreviation main_loop :=
  (main_loop State float_repr json_loads send background).
Local Abbreviation answers := (answers State float_repr json_loads).

(** What [json.loads] does with a line. *)
Local Abbreviation parsed line :=
  (json_loads (string_of_list_ascii (strip (chars line)))).

(** The lines read that hold more than white space. *)
Local Abbreviation requests lines := (List.filter is_request (lines_read lines)).

Lemma main_loop_answers (methods : gmap string handler) lines :
  forall n st st' out e,
    main_loop methods n lines st = (st', out, e) ->
    Forall2 (answers methods) (take (length out) (requests lines)) out
    /\ (length out <= length (requests lines))%nat
    /\ (e = EndOfInput -> length out = length (requests lines))
    /\ (e = ReadlineRaised -> readline_raises lines = true)
    /\ (e = LoadsRaised ->
        exists line, line ∈ requests lines /\ parsed line = OtherError)
    /\ (forall f, e = Raised f ->
        exists line payload,
          line ∈ requests lines
          /\ parsed line = Loaded payload /\ raises payload = true)
    /\ (e = SendRaised ->
        exists i line r,
          line ∈ requests lines /\ answers methods line r /\ send i r = false).
Proof.
  induction lines as [|[line|] rest IH]; intros n st st' out e H;
    cbn [JsonRpc.main_loop] in H.
  - injection H as <- <- <-. cbn. repeat split; try discriminate; auto.
  - destruct (truthy line) eqn:Tl; cbn [negb] in H.
    2:{ injection H as <- <- <-. cbn [lines_read readline_raises]. rewrite Tl. cbn.
        repeat split; try discriminate; auto. }
    cbn [lines_read readline_raises]. rewrite Tl. cbn [List.filter].
    assert (Hreq : is_request line
                   = match strip (chars line) with [] => false | _ => true end)
      by reflexivity.
    assert (Hans : forall r, answers methods line r
                   = match parsed line with
                     | JSONDecodeError => r = _error JNull (-32700) "Parse error"
                     | Loaded payload =>
                         exists st, snd (handle methods payload st) = inr r
                     | OtherError => False
                     end) by reflexivity.
    destruct (strip (chars line)) as [|c cs] eqn:Es; rewrite Hreq.
    + exact (IH _ _ _ _ _ H).
    + destruct (json_loads (string_of_list_ascii (c :: cs))) as [payload| |] eqn:Ej.
      * destruct (handle methods payload (background n st)) as [st2 [f|r]] eqn:Eh.
        -- injection H as <- <- <-. cbn [length take].
           repeat split; try discriminate; auto; [lia|].
           intros f' _. exists line, payload. split; [left|].
           split; [now rewrite Es|].
           apply (handle_raises methods payload (background n st)).
           exists f. now rewrite Eh.
        -- destruct (send n r) eqn:Esend.
           ++ destruct (main_loop methods (S n) rest st2) as [[st3 out'] e'] eqn:Er.
              injection H as <- <- <-.
              destruct (IH _ _ _ _ _ Er) as (H0 & H1 & H2 & H3 & H4 & H5 & H6).
              cbn [length take].
              split.
              { constructor; [|exact H0]. rewrite Hans.
                exists (background n st). now rewrite Eh. }
              split; [lia|]. split; [intros He; now rewrite (H2 He)|].
              split; [exact H3|]. split.
              { intros He. destruct (H4 He) as (l & Hin & Hl).
                exists l. split; [now right|exact Hl]. }
              split.
              { intros f Hf. destruct (H5 f Hf) as (l & p & Hin & Hl).
                exists l, p. split; [now right|exact Hl]. }
              intros He. destruct (H6 He) as (i & l & r' & Hin & Hl).
              exists i, l, r'. split; [now right|exact Hl].
           ++ injection H as <- <- <-. cbn [length take].
              repeat split; try discriminate; auto; [lia|].
              intros _. exists n, line, r. split; [left|]. split; [|exact Esend].
              rewrite Hans. exists (background n st). now rewrite Eh.
      * destruct (send n (_error JNull (-32700) "Parse error")) eqn:Esend.
        -- destruct (main_loop methods (S n) rest (background n st))
             as [[st3 out'] e'] eqn:Er.
           injection H as <- <- <-.
           destruct (IH _ _ _ _ _ Er) as (H0 & H1 & H2 & H3 & H4 & H5 & H6).
           cbn [length take].
           split.
           { constructor; [|exact H0]. now rewrite Hans. }
           split; [lia|]. split; [intros He; now rewrite (H2 He)|].
           split; [exact H3|]. split.
           { intros He. destruct (H4 He) as (l & Hin & Hl).
             exists l. split; [now right|exact Hl]. }
           split.
           { intros f Hf. destruct (H5 f Hf) as (l & p & Hin & Hl).
             exists l, p. split; [now right|exact Hl]. }
           intros He. destruct (H6 He) as (i & l & r' & Hin & Hl).
           exists i, l, r'. split; [now right|exact Hl].
        -- injection H as <- <- <-. cbn [length take].
           repeat split; try discriminate; auto; [lia|].
           intros _. exists n, line, (_error JNull (-32700) "Parse error").
           split; [left|]. split; [|exact Esend]. now rewrite Hans.
      * injection H as <- <- <-. cbn [length take].
        repeat split; try discriminate; auto; [lia|].
        intros _. exists line. split; [left|now rewrite Es].
  - injection H as <- <- <-. cbn. repeat split; try discriminate; auto.
Qed.

(** X13. The responses sent answer, one for one and in the order of the
    lines, the first lines read that hold more than white space: a line
    on which [json.loads] raises [JSONDecodeError] is answered with the
    parse error, another one with what [handle] returns for its request;
    the other lines get no response. When the loop ends with the input,
    every such line is answered. The loop ends by an exception only when
    [readline] raises, when [json.loads] raises another exception on a
    line, when a line holds a request that is not a dictionary or that
    gives a non-empty list or dictionary as its method, for which [handle]
    raises, or when [send] raises on a response; when none of the four
    happens it ends with the input. *)
Theorem main_loop_one_response_per_request :
  forall (methods : gmap string handler) (lines : list (option string)) (n : nat)
         (st st' : State) (out : list response) (e : exit),
    main_loop methods n lines st = (st', out, e) ->
    Forall2 (answers methods) (take (length out) (requests lines)) out
    /\ (length out <= length (requests lines))%nat
    /\ (e = EndOfInput -> length out = length (requests lines))
    /\ (e = ReadlineRaised -> readline_raises lines = true)
    /\ (e = LoadsRaised ->
        exists line, line ∈ requests lines /\ parsed line = OtherError)
    /\ (forall f, e = Raised f ->
        exists line payload,
          line ∈ requests lines
          /\ parsed line = Loaded payload /\ raises payload = true)
    /\ (e = SendRaised ->
        exists i line r,
          line ∈ requests lines /\ answers methods line r /\ send i r = false)
    /\ (readline_raises lines = false ->
        (forall line, line ∈ requests lines -> parsed line <> OtherError) ->
        (forall line payload, line ∈ requests lines ->
           parsed line = Loaded payload -> raises payload = false) ->
        (forall i line r, line ∈ requests lines -> answers methods line r ->
           send i r = true) ->
        e = EndOfInput).
Proof.
  intros methods lines n st st' out e H.
  destruct (main_loop_answers methods lines n st st' out e H)
    as (H0 & H1 & H2 & H3 & H4 & H5 & H6).
  repeat (split; [assumption|]).
  intros Hread Hloads Hraise Hsend. destruct e as [| | |f|]; [reflexivity| | | |].
  - rewrite (H3 eq_refl) in Hread. discriminate.
  - destruct (H4 eq_refl) as (line & Hin & Hl). now destruct (Hloads line Hin).
  - destruct (H5 f eq_refl) as (line & payload & Hin & Hp & Hr).
    rewrite (Hraise line payload Hin Hp) in Hr. discriminate.
  - destruct (H6 eq_refl) as (i & line & r & Hin & Ha & Hs).
    rewrite (Hsend i line r Hin Ha) in Hs. discriminate.
Qed.

(** X14. When [readline] never raises, [json.loads] raises
    [JSONDecodeError] on every line read that holds more than white space,
    and the parse error can always be sent, the loop answers each such
    line with the parse error, code -32700 and no identifier, calls no
    handler, and ends with the input: the final state is the one the other
    tasks left. *)
Theorem main_loop_parse_errors :
  forall (methods : gmap string handler) (lines : list (option string)) (n : nat)
         (st : State),
    readline_raises lines = false ->
    (forall line, line ∈ requests lines -> parsed line = JSONDecodeError) ->
    (forall i, send i (_error JNull (-32700) "Parse error") = true) ->
    main_loop methods n lines st
    = (fold_left (fun s i => background i s)
         (seq n (S (length (lines_read lines)))) st,
       replicate (length (requests lines)) (_error JNull (-32700) "Parse error"),
       EndOfInput).
Proof.
  intros methods lines. induction lines as [|[line|] rest IH]; intros n st Hr Hno Hs.
  - reflexivity.
  - cbn [JsonRpc.main_loop lines_read]. cbn [readline_raises] in Hr.
    destruct (truthy line) eqn:Tl; [|reflexivity].
    cbn [negb]. cbn [lines_read] in Hno. rewrite Tl in Hno.
    cbn [List.filter] in Hno |- *. unfold is_request at 1. unfold is_request at 1 in Hno.
    destruct (strip (chars line)) as [|c cs] eqn:Es.
    + rewrite (IH (S n) _ Hr Hno Hs). reflexivity.
    + pose proof (Hno line ltac:(left)) as Hline. rewrite Es in Hline.
      rewrite Hline, Hs.
      rewrite (IH (S n) _ Hr (fun l Hl => Hno l ltac:(now right)) Hs). reflexivity.
  - discriminate.
Qed.

(** *** The methods of [main] *)

(** X15. [main] registers three methods. A request of version ["2.0"] for
    any other method name is answered with the code -32601 and the name,
    and leaves the state as it is; a request for ["status"] without
    parameters is answered by the handler registered for it. A method
    registered later under the same name replaces the earlier one. *)
Theorem main_methods :
  forall (status ingest_screenshot resolve : handler) (kv : list (string * json))
         (name : string) (st : State),
    let methods :=
      register_method State "resolve" resolve
        (register_method State "ingest_screenshot" ingest_screenshot
           (register_method State "status" status ∅)) in
    is_version_2 (dict_get "jsonrpc" kv) = true ->
    dict_get "method" kv = JStr name ->
    truthy name = true ->
    (name <> "status"%string -> name <> "ingest_screenshot"%string ->
     name <> "resolve"%string ->
     handle methods (JObj kv) st
     = (st, inr (_error (dict_get "id" kv) (-32601) ("Method not found: " +:+ name))))
    /\ (name = "status"%string -> dict_get "params" kv = JNull ->
        handle methods (JObj kv) st
        = (fst (status [] st),
           inr match snd (status [] st) with
               | inr result => {| resp_jsonrpc := "2.0"; resp_id := dict_get "id" kv;
                                  resp_body := Result result |}
               | inl message => _error (dict_get "id" kv) (-32603) message
               end))
    /\ (forall (h1 h2 : handler) (ms : gmap string handler),
          register_method State name h2 (register_method State name h1 ms)
          = register_method State name h2 ms).
Proof.
  intros status ingest resolve kv name st methods Hv Hm Hn.
  split; [|split].
  - intros H1 H2 H3. unfold JsonRpc.handle. rewrite Hv, Hm. simpl. rewrite Hn. simpl.
    unfold methods, register_method.
    rewrite !lookup_insert_ne by congruence. rewrite lookup_empty. reflexivity.
  - intros -> Hp. unfold JsonRpc.handle. rewrite Hv, Hm, Hp. simpl.
    unfold methods, register_method.
    rewrite !lookup_insert_ne by discriminate. rewrite lookup_insert_eq.
    destruct (status [] st) as [st2 [m|v]]; reflexivity.
  - intros h1 h2 ms. unfold register_method. apply insert_insert_eq.
Qed.

End Protocol.

(** *** Examples *)

Lemma handle_dispatch_witness :
  let methods : gmap string (handler nat) :=
    register_method nat "bump" (fun _ n => (S n, inr JNull)) ∅ in
  let request := JObj [("jsonrpc"%string, JStr "2.0"); ("id"%string, JInt 7);
                       ("method"%string, JStr "bump")] in
  handle nat (fun _ => EmptyString) methods request 0%nat
  = (1%nat, inr {| resp_jsonrpc := "2.0"; resp_id := JInt 7; resp_body := Result JNull |})
  /\ exists kv, request = JObj kv /\ JInt 7 = dict_get "id" kv.
Proof.
  intros methods request.
  assert (H : handle nat (fun _ => EmptyString) methods request 0%nat
              = (1%nat, inr {| resp_jsonrpc := "2.0"; resp_id := JInt 7;
                               resp_body := Result JNull |}))
    by (vm_compute; reflexivity).
  split; [exact H|].
  destruct (handle_dispatch nat (fun _ => EmptyString) methods request 0%nat 1%nat _ H)
    as (kv & Hkv & _ & Hid & _).
  exists kv. split; [exact Hkv|exact Hid].
Defined.

(** A parser that knows two requests and fails, not by
    [JSONDecodeError], on a third line. *)
Local Abbreviation loads_one :=
  (fun s : string =>
     if String.eqb s "[]" then Loaded (JArr [])
     else if String.eqb s "{}" then Loaded (JObj [])
     else if String.eqb s "[[[[" then OtherError
     else JSONDecodeError).

Lemma main_loop_one_response_per_request_witness :
  let lines := [Some "{}"%string; Some "  "%string; Some "{oops"%string] in
  exists st' out,
    main_loop nat (fun _ => EmptyString) loads_one (fun _ _ => true) (fun _ s => s)
      ∅ 0 lines 0%nat
    = (st', out, EndOfInput)
    /\ length out = 2%nat.
Proof.
  intros lines.
  destruct (main_loop nat (fun _ => EmptyString) loads_one (fun _ _ => true)
              (fun _ s => s) ∅ 0 lines 0%nat)
    as [[st' out] e] eqn:E.
  destruct (main_loop_one_response_per_request nat (fun _ => EmptyString) loads_one
              (fun _ _ => true) (fun _ s => s) ∅ lines 0 0%nat st' out e E)
    as (_ & _ & H2 & _ & _ & _ & _ & H7).
  assert (He : e = EndOfInput).
  { apply H7.
    - reflexivity.
    - intros line Hin.
      repeat (apply elem_of_cons in Hin as [->|Hin]; [vm_compute; discriminate|]).
      inversion Hin.
    - intros line payload Hin Hp.
      repeat (apply elem_of_cons in Hin as [->|Hin]; [vm_compute in Hp|]);
        try discriminate; try (injection Hp as <-; reflexivity).
      inversion Hin.
    - reflexivity. }
  exists st', out. subst e. split; [reflexivity|]. now rewrite (H2 eq_refl).
Defined.

Lemma main_loop_parse_errors_witness :
  main_loop nat (fun _ => EmptyString) loads_one (fun _ _ => true) (fun _ s => S s)
    ∅ 0 [Some "{oops"%string; Some " "%string] 0%nat
  = (3%nat, [_error JNull (-32700) "Parse error"], EndOfInput).
Proof.
  refine (main_loop_parse_errors nat (fun _ => EmptyString) loads_one
            (fun _ _ => true) (fun _ s => S s) ∅
            [Some "{oops"%string; Some " "%string] 0 0%nat eq_refl _ (fun _ => eq_refl)).
  intros line Hin.
  repeat (apply elem_of_cons in Hin as [->|Hin]; [vm_compute; reflexivity|]).
  inversion Hin.
Defined.

Lemma main_methods_witness :
  let h : handler nat := fun _ n => (n, inr JNull) in
  handle nat (fun _ => EmptyString)
    (register_method nat "resolve" h
       (register_method nat "ingest_screenshot" h (register_method nat "status" h ∅)))
    (JObj [("jsonrpc"%string, JStr "2.0"); ("method"%string, JStr "stop")]) 0%nat
  = (0%nat, inr (_error JNull (-32601) "Method not found: stop")).
Proof.
  intros h.
  refine (proj1 (main_methods nat (fun _ => EmptyString) h h h
                   [("jsonrpc"%string, JStr "2.0"); ("method"%string, JStr "stop")]
                   "stop" 0%nat eq_refl eq_refl eq_refl) _ _ _); discriminate.
Defined.

End JsonRpcFacts.

(* ================================================================= *)
(** ** The tiles of an image *)

Module TileFacts.
Import Float64 PyStr Coordinates Tiling Vision VisionFull Pixels TilingFacts.

(** *** The grid chosen is one of the grids offered *)

Lemma ratio_step_mem ar area size st x st' :
  ratio_step ar area size st x = Some st' -> snd st' = snd st \/ snd st' = x.
Proof.
  unfold ratio_step. destruct (int_truediv (fst x) (snd x)) as [t|]; [|discriminate].
  simpl. destruct (flt _ _); [intros [= <-]; now right|].
  destruct (feq _ _); [|intros [= <-]; now left].
  destruct (half_tile_area size x) as [b|]; [|discriminate]. simpl.
  destruct (int_gt_float area b); intros [= <-]; auto.
Qed.

Lemma ratio_loop_mem ar area size l : forall st st',
  ratio_loop ar area size l st = Some st' -> snd st' = snd st \/ snd st' ∈ l.
Proof.
  induction l as [|x l IH]; intros st st' H; simpl in H.
  - injection H as <-. now left.
  - destruct (ratio_step ar area size st x) as [st1|] eqn:E; [|discriminate].
    simpl in H. apply ratio_step_mem in E.
    destruct (IH _ _ H) as [H1|H1].
    + rewrite H1. destruct E as [->| ->]; [now left|right; left].
    + right. now right.
Qed.

Lemma best_ratio_of_mem enum image size best :
  best_ratio_of enum image size = Some best -> best = (1, 1) \/ best ∈ enum.
Proof.
  unfold best_ratio_of.
  destruct (int_truediv _ _) as [ar|]; [|discriminate]. simpl.
  destruct (ratio_loop _ _ _ _ _) as [st|] eqn:E; [|discriminate].
  simpl. intros [= <-]. apply ratio_loop_mem in E as [E|E]; [now left|].
  right. now rewrite sorted_by_perm in E.
Qed.

Lemma best_ratio_of_grid enum image size best :
  enumerates enum (ratio_generator 1 12) ->
  best_ratio_of enum image size = Some best -> best ∈ grids.
Proof.
  intros Henum H. apply best_ratio_of_mem in H as [->|H].
  - apply grids_bounds. simpl. lia.
  - now apply (enumerates_grids enum).
Qed.

(** *** The shape of the result *)

Lemma dynamic_preprocess_shape enum image size thumb tiles :
  0 < size ->
  _dynamic_preprocess enum image size thumb = Some tiles ->
  exists cols rows,
    best_ratio_of enum image size = Some (cols, rows)
    /\ 1 <= cols /\ 1 <= rows
    /\ tiles = grid_crops size cols rows
               ++ (if thumb && negb (cols * rows =? 1)
                   then [Thumbnail (size, size)] else []).
Proof.
  intros Hs. unfold _dynamic_preprocess.
  destruct (best_ratio_of enum image size) as [[cols rows]|]; [|discriminate].
  cbn [mbind option_bind fst snd].
  destruct (0 <? size * cols) eqn:Ec; [|discriminate].
  destruct (0 <? size * rows) eqn:Er; [|discriminate].
  apply Z.ltb_lt in Ec, Er. cbn [andb negb].
  fold (grid_crops size cols rows). rewrite grid_crops_length.
  intros H. exists cols, rows. split; [reflexivity|].
  split; [nia|]. split; [nia|].
  assert (E : (Z.to_nat (cols * rows) =? 1)%nat = (cols * rows =? 1)).
  { destruct (Z.eqb_spec (cols * rows) 1) as [->|Hne]; [reflexivity|].
    apply Nat.eqb_neq. nia. }
  rewrite E in H. destruct (thumb && negb (cols * rows =? 1)).
  - now injection H as <-.
  - injection H as <-. now rewrite app_nil_r.
Qed.

Lemma grid_crops_lookup size cols rows i t :
  grid_crops size cols rows !! i = Some t
  <-> Z.of_nat i < cols * rows
      /\ t = Crop (size * cols, size * rows)
               (block_box (size * cols) size (Z.of_nat i)).
Proof.
  unfold grid_crops. rewrite list_lookup_fmap. split.
  - destruct (seqZ 0 (cols * rows) !! i) as [k|] eqn:E; [|discriminate].
    apply lookup_seqZ in E as [-> Hlt]. simpl. intros [= <-]. auto.
  - intros [Hlt ->]. now rewrite lookup_seqZ_lt.
Qed.

(** *** The boxes of a grid *)

Lemma div_interval s a p : 0 < s -> (a * s <= p < (a + 1) * s <-> p / s = a).
Proof.
  intros Hs. split.
  - intros H. symmetry. apply (Z.div_unique p s a (p - a * s)); lia.
  - intros <-. pose proof (Z.mul_div_le p s Hs).
    pose proof (Z.mul_succ_div_gt p s Hs). lia.
Qed.

Lemma inside_block_box size cols k px py :
  0 < size -> 0 < cols ->
  (inside (block_box (size * cols) size k) px py
   <-> px / size = k mod cols /\ py / size = k / cols).
Proof.
  intros Hs Hc. rewrite block_box_grid by assumption. unfold inside. simpl.
  now rewrite !div_interval by assumption.
Qed.

Lemma cell_index size cols rows px py :
  0 < size -> 0 < cols ->
  0 <= px < size * cols -> 0 <= py < size * rows ->
  let k := py / size * cols + px / size in
  0 <= k < cols * rows /\ k mod cols = px / size /\ k / cols = py / size.
Proof.
  intros Hs Hc Hx Hy k.
  assert (Hqx : 0 <= px / size < cols).
  { split; [apply Z.div_pos; lia|apply Z.div_lt_upper_bound; lia]. }
  assert (Hqy : 0 <= py / size < rows).
  { split; [apply Z.div_pos; lia|apply Z.div_lt_upper_bound; lia]. }
  split; [subst k; nia|]. split.
  - symmetry. apply (Z.mod_unique k cols (py / size) (px / size)); [lia|subst k; lia].
  - symmetry. apply (Z.div_unique k cols (py / size) (px / size)); [lia|subst k; lia].
Qed.

(** X16. The crops of the result cut the resized image into parts that do
    not overlap and leave nothing out: every crop lies in the resized
    image of [cols * tile_size] by [rows * tile_size] pixels, and every
    pixel of that image lies in exactly one crop. This holds for any order
    of the set of grids, with and without the thumbnail. *)
Theorem crops_partition_resized_image :
  forall (enum : list (Z * Z)) (image : Image) (image_size : Z)
         (use_thumbnail : bool) (tiles : list Tile),
    0 < image_size ->
    _dynamic_preprocess enum image image_size use_thumbnail = Some tiles ->
    exists cols rows,
      best_ratio_of enum image image_size = Some (cols, rows)
      /\ 1 <= cols /\ 1 <= rows
      /\ (forall i resized b, tiles !! i = Some (Crop resized b) ->
            resized = (image_size * cols, image_size * rows)
            /\ 0 <= box_left b /\ box_right b <= image_size * cols
            /\ 0 <= box_upper b /\ box_lower b <= image_size * rows)
      /\ (forall px py,
            0 <= px < image_size * cols -> 0 <= py < image_size * rows ->
            exists i b,
              tiles !! i = Some (Crop (image_size * cols, image_size * rows) b)
              /\ inside b px py
              /\ forall j resized b',
                   tiles !! j = Some (Crop resized b') -> inside b' px py -> j = i).
Proof.
  intros enum image size thumb tiles Hs H.
  destruct (dynamic_preprocess_shape enum image size thumb tiles Hs H)
    as (cols & rows & Hbest & Hc & Hr & ->).
  exists cols, rows. split; [exact Hbest|]. split; [exact Hc|]. split; [exact Hr|].
  assert (Hcrop : forall i resized b,
             (grid_crops size cols rows
              ++ (if thumb && negb (cols * rows =? 1)
                  then [Thumbnail (size, size)] else [])) !! i
             = Some (Crop resized b) ->
             grid_crops size cols rows !! i = Some (Crop resized b)).
  { intros i resized b Hi. apply lookup_app_Some in Hi as [Hi|[_ Hi]]; [exact Hi|].
    destruct (thumb && negb (cols * rows =? 1)).
    - apply list_lookup_singleton_Some in Hi as [_ Hi]. discriminate.
    - rewrite lookup_nil in Hi. discriminate. }
  split.
  - intros i resized b Hi. apply Hcrop, grid_crops_lookup in Hi as [Hlt [= -> ->]].
    split; [reflexivity|].
    apply (block_box_inside size cols rows (Z.of_nat i)); lia.
  - intros px py Hx Hy.
    destruct (cell_index size cols rows px py Hs ltac:(lia) Hx Hy) as (Hk & Hm & Hd).
    set (k := py / size * cols + px / size) in *.
    exists (Z.to_nat k), (block_box (size * cols) size k).
    split; [|split].
    + apply lookup_app_l_Some, grid_crops_lookup.
      rewrite Z2Nat.id by lia. split; [lia|reflexivity].
    + apply inside_block_box; [lia|lia|]. auto.
    + intros j resized b' Hj Hin.
      apply Hcrop, grid_crops_lookup in Hj as [Hlt [= -> ->]].
      apply inside_block_box in Hin as [H1 H2]; [|lia|lia].
      assert (Z.of_nat j = k).
      { rewrite (Z.div_mod (Z.of_nat j) cols), (Z.div_mod k cols) by lia.
        rewrite <- H1, <- H2, Hm, Hd. reflexivity. }
      lia.
Qed.

(** X17. The set of grids being the one of the source, in any order: the
    result holds between 1 and 13 tiles, each of [tile_size] by
    [tile_size]. With the thumbnail asked for, the result never holds
    exactly two tiles: it is one crop alone, or at least two crops with
    the thumbnail last. Without it, the result holds at most 12 tiles, all
    of them crops. *)
Theorem tile_count :
  forall (enum : list (Z * Z)) (image : Image) (image_size : Z)
         (use_thumbnail : bool) (tiles : list Tile),
    enumerates enum (ratio_generator 1 12) ->
    0 < image_size ->
    _dynamic_preprocess enum image image_size use_thumbnail = Some tiles ->
    (1 <= length tiles <= 13)%nat
    /\ (forall t, t ∈ tiles -> tile_size t = (image_size, image_size))
    /\ (use_thumbnail = true ->
        length tiles <> 2%nat
        /\ ((1 < length tiles)%nat ->
            last tiles = Some (Thumbnail (image_size, image_size)))
        /\ (length tiles = 1%nat -> forall t, t ∈ tiles -> is_thumbnail t = false))
    /\ (use_thumbnail = false ->
        (length tiles <= 12)%nat /\ forall t, t ∈ tiles -> is_thumbnail t = false).
Proof.
  intros enum image size thumb tiles Henum Hs H.
  destruct (dynamic_preprocess_shape enum image size thumb tiles Hs H)
    as (cols & rows & Hbest & Hc & Hr & ->).
  pose proof (proj1 (grids_bounds _) (best_ratio_of_grid _ _ _ _ Henum Hbest))
    as (_ & _ & Hcr). cbn [fst snd] in Hcr.
  assert (Hcrops : forall t, t ∈ grid_crops size cols rows -> is_thumbnail t = false).
  { intros t Ht. unfold grid_crops in Ht. apply list_elem_of_fmap in Ht as (k & -> & _).
    reflexivity. }
  rewrite length_app, grid_crops_length.
  destruct (Z.eqb_spec (cols * rows) 1) as [E1|E1].
  - rewrite E1, andb_false_r, app_nil_r. simpl length. rewrite Nat.add_0_r.
    split; [lia|]. split; [intros t; apply grid_crops_size|].
    split; intros _; (split; [lia|]); [split; [lia|]|]; intros; now apply Hcrops.
  - cbn [negb]. rewrite andb_true_r. destruct thumb; simpl length.
    + split; [nia|]. split.
      * intros t Ht. apply elem_of_app in Ht as [Ht|Ht];
          [now apply (grid_crops_size size cols rows)|].
        now apply list_elem_of_singleton in Ht as ->.
      * split; [|discriminate]. intros _. split; [nia|]. split; [|nia].
        intros _. apply last_snoc.
    + rewrite app_nil_r. split; [nia|]. split; [intros t; apply grid_crops_size|].
      split; [discriminate|]. intros _. split; [nia|exact Hcrops].
Qed.

(** *** From the images to the call of the model *)

Section Predict.
Variable enum : list (Z * Z).
Variable image_open : string -> option Image.
Variable model_chat : list Tile -> string -> option string.
Variable model_chat_patches : list Tile -> string -> list nat -> option string.

Local Abbreviation _images_to_pixel_values := (_images_to_pixel_values enum).

Lemma mapM_lengths (images : list Image) size per :
  mapM (fun img => _dynamic_preprocess enum img size true) images = Some per ->
  length per = length images
  /\ (enumerates enum (ratio_generator 1 12) -> 0 < size ->
      Forall (fun n => (1 <= n <= 13)%nat) (map length per)).
Proof.
  intros H. split; [symmetry; now apply length_mapM in H|].
  intros Henum Hs. apply mapM_Some_1 in H. apply Forall_fmap.
  induction H as [|img tiles images per Ht _ IH]; constructor; [|exact IH].
  simpl. apply (tile_count enum img size true tiles Henum Hs Ht).
Qed.

(** X18. [_images_to_pixel_values] returns one count for each image, the
    counts add up to the number of tiles handed to the model, and each
    count lies between 1 and 13; it returns no tiles exactly when there is
    no image. [_predict_sync] hands over one image, so the list of counts
    has one entry and the model is never called with it: the call with
    [num_patches_list] is dead code, and [_predict_sync] is the function
    of the one call. *)
Theorem predict_sync_single_call :
  forall (image_b64 instruction : string),
    _predict_sync_full enum image_open model_chat model_chat_patches
      image_b64 instruction
    = _predict_sync enum image_open model_chat image_b64 instruction
    /\ forall (images : list Image) (input_size : Z) (pixel_values : option (list Tile))
              (num_patches_list : list nat),
         _images_to_pixel_values images input_size
         = Some (pixel_values, num_patches_list) ->
         length num_patches_list = length images
         /\ (pixel_values = None <-> images = [])
         /\ (forall tiles, pixel_values = Some tiles ->
               length tiles = list_sum num_patches_list)
         /\ (enumerates enum (ratio_generator 1 12) -> 0 < input_size ->
             Forall (fun n => (1 <= n <= 13)%nat) num_patches_list).
Proof.
  intros image_b64 instruction. split.
  - unfold _predict_sync_full, _predict_sync, VisionFull._images_to_pixel_values.
    destruct (image_open image_b64) as [image|]; [|reflexivity].
    cbn [mbind option_bind mapM].
    destruct (_dynamic_preprocess enum image 448 true) as [tiles|]; [|reflexivity].
    cbn [mbind option_bind mret option_ret fmap option_fmap option_map fst snd
         concat map length Nat.ltb Nat.leb].
    now rewrite app_nil_r.
  - intros images size pv npl. unfold VisionFull._images_to_pixel_values.
    destruct (mapM _ images) as [per|] eqn:E; [|discriminate].
    destruct (mapM_lengths images size per E) as [Hlen Hall].
    cbn [mbind option_bind]. destruct per as [|t per].
    + intros [= <- <-]. split; [exact Hlen|]. split.
      * split; [|reflexivity]. intros _. destruct images; [reflexivity|discriminate].
      * split; [discriminate|]. intros _ _. constructor.
    + intros [= <- <-]. split; [cbn [map length]; rewrite length_map; exact Hlen|].
      split.
      * split; [discriminate|]. intros ->. discriminate.
      * split; [|exact Hall]. intros tiles [= <-]. exact (length_concat (t :: per)).
Qed.

End Predict.

(** *** Examples *)

Lemma crops_partition_resized_image_witness :
  exists i b,
    (grid_crops 448 3 1 ++ [Thumbnail (448, 448)]) !! i = Some (Crop (1344, 448) b)
    /\ inside b 1000 100.
Proof.
  destruct (crops_partition_resized_image grids image_1448_448 448 true
              (grid_crops 448 3 1 ++ [Thumbnail (448, 448)]))
    as (cols & rows & Hbest & _ & _ & _ & Hpix); [lia|vm_compute; reflexivity|].
  assert (E : best_ratio_of grids image_1448_448 448 = Some (3, 1))
    by (vm_compute; reflexivity).
  rewrite E in Hbest. injection Hbest as <- <-.
  destruct (Hpix 1000 100) as (i & b & Hi & Hin & _); [lia|lia|].
  exists i, b. split; [exact Hi|exact Hin].
Defined.

Lemma tile_count_witness :
  length (grid_crops 448 3 1 ++ [Thumbnail (448, 448)]) <> 2%nat.
Proof.
  refine (proj1 (proj1 (proj2 (proj2 (tile_count grids image_1448_448 448 true
                   (grid_crops 448 3 1 ++ [Thumbnail (448, 448)])
                   grids_enumerates _ _))) eq_refl)).
  - lia.
  - vm_compute. reflexivity.
Defined.

End TileFacts.

(* ================================================================= *)
(** ** The prediction, the scaling and the matcher at their edges *)

Module EdgeFacts.
Import Float64 Float64Facts PyStr Coordinates OcrText Tiling Vision Service.
Import OcrTextFacts OcrEngineFacts ServiceFacts.

(** *** Scaling *)

Lemma float_of_int_finite n d : float_of_int n = Some d -> is_finite d = true.
Proof.
  unfold float_of_int. destruct (is_finite _) eqn:E; [|discriminate].
  now intros [= <-].
Qed.

Lemma f1000_0_finite : exists m e, f1000_0 = S754_finite false m e.
Proof. eexists _, _. vm_compute. reflexivity. Qed.

Lemma scale_axis_non_finite norm dim :
  is_finite norm = false -> scale_axis norm dim = None.
Proof.
  intros Hn. unfold scale_axis.
  destruct (float_of_int dim) as [d|] eqn:Ed; [|reflexivity].
  apply float_of_int_finite in Ed.
  destruct f1000_0_finite as (m & e & ->).
  destruct norm as [s|s| |s m' e']; try discriminate.
  - destruct d as [sd|sd| |sd md ed]; try discriminate; reflexivity.
  - destruct d; reflexivity.
Qed.

Lemma scale_axis_range norm dim v :
  scale_axis norm dim = Some v ->
  0 <= v /\ (0 < dim -> v < dim) /\ (dim <= 1 -> v = 0).
Proof.
  unfold scale_axis. destruct (float_of_int dim) as [d|]; [|discriminate].
  destruct (floor _) as [px|]; [|discriminate]. intros [= <-]. lia.
Qed.

(** X20. A normalised coordinate that is a NaN or an infinity gives no
    pixel: [scale_norm_to_pixels] raises, whatever the other coordinate
    and the size of the image. When it returns, each pixel coordinate is
    at least 0 and, for a positive dimension, below the dimension; for a
    dimension of at most 1 it is 0. *)
Theorem scale_norm_to_pixels_edges :
  forall (x_norm y_norm : float) (width height : Z),
    (is_finite x_norm = false \/ is_finite y_norm = false ->
     scale_norm_to_pixels x_norm y_norm width height = None)
    /\ (forall x y, scale_norm_to_pixels x_norm y_norm width height = Some (x, y) ->
          is_finite x_norm = true /\ is_finite y_norm = true
          /\ 0 <= x /\ 0 <= y
          /\ (0 < width -> x < width) /\ (0 < height -> y < height)
          /\ (width <= 1 -> x = 0) /\ (height <= 1 -> y = 0)).
Proof.
  intros x_norm y_norm width height.
  assert (H1 : is_finite x_norm = false \/ is_finite y_norm = false ->
               scale_norm_to_pixels x_norm y_norm width height = None).
  { unfold scale_norm_to_pixels. intros [H|H]; rewrite (scale_axis_non_finite _ _ H).
    - reflexivity.
    - now destruct (scale_axis x_norm width). }
  split; [exact H1|].
  intros x y H.
  destruct (is_finite x_norm) eqn:Fx; [|rewrite H1 in H by auto; discriminate].
  destruct (is_finite y_norm) eqn:Fy; [|rewrite H1 in H by auto; discriminate].
  unfold scale_norm_to_pixels in H.
  destruct (scale_axis x_norm width) as [px|] eqn:Ex; [|discriminate].
  destruct (scale_axis y_norm height) as [py|] eqn:Ey; [|discriminate].
  injection H as <- <-.
  destruct (scale_axis_range _ _ _ Ex) as (? & ? & ?).
  destruct (scale_axis_range _ _ _ Ey) as (? & ? & ?). auto 10.
Qed.

(** *** The prediction *)

Section Predict.
Variable ratio : list ascii -> list ascii -> float.
Variable model_loads : string -> bool.
Variable enum : list (Z * Z).
Variable image_open : string -> option Image.
Variable model_chat : list Tile -> string -> option string.

Lemma predict_sync_inside image_b64 instruction x y :
  _predict_sync enum image_open model_chat image_b64 instruction = Some (x, y) ->
  exists image answer,
    image_open image_b64 = Some image
    /\ img_height image <> 0
    /\ is_Some (_dynamic_preprocess enum image 448 true)
    /\ truthy answer = true
    /\ 0 <= x /\ 0 <= y
    /\ (0 < img_width image -> x < img_width image)
    /\ (0 < img_height image -> y < img_height image).
Proof.
  unfold _predict_sync.
  destruct (image_open image_b64) as [image|]; [|discriminate]. cbn [mbind option_bind].
  destruct (_dynamic_preprocess enum image 448 true) as [tiles|] eqn:Et; [|discriminate].
  cbn [mbind option_bind].
  destruct (model_chat tiles _) as [answer|]; [|discriminate]. cbn [mbind option_bind].
  destruct (answer_point answer) as [point|] eqn:Ea; [|discriminate].
  cbn [mbind option_bind]. intros H.
  destruct (scale_norm_to_pixels_edges (fst point) (snd point) (img_width image)
              (img_height image)) as [_ Hr].
  destruct (Hr x y H) as (_ & _ & Hx & Hy & Hw & Hh & _).
  exists image, answer. split; [reflexivity|]. split.
  - intros E. unfold _dynamic_preprocess, best_ratio_of, int_truediv in Et.
    rewrite E in Et. discriminate.
  - split; [eauto|]. split; [|auto].
    unfold answer_point in Ea. destruct (truthy answer); [reflexivity|discriminate].
Qed.

(** X19. A resolution by prediction that succeeds returns a pixel of the
    stored image: the image has been opened, its height is not 0, and the
    coordinates are at least 0 and, for positive sizes, below the width
    and the height. The answer of the model was not empty, the
    description given was not empty, and the identifier reported is the
    one of the entry. *)
Theorem prediction_inside_image :
  forall (analyze : string -> option (list OcrItem)) (session_key : string)
         (text desc hint : option string) (thr : option float) (mn : option string)
         (svc : GroundingService) (r : GroundingResult),
    snd (resolve ratio model_loads enum image_open model_chat analyze session_key
           "prediction" text desc hint thr mn svc) = inr r ->
    exists b image,
      screenshot_b64 (cache_of session_key svc) = Some b
      /\ screenshot_id (cache_of session_key svc) = Some (screenshotId r)
      /\ truthy_opt desc = true
      /\ image_open b = Some image
      /\ img_height image <> 0
      /\ _predict_sync enum image_open model_chat b (default EmptyString desc)
         = Some (result_x r, result_y r)
      /\ 0 <= result_x r /\ 0 <= result_y r
      /\ (0 < img_width image -> result_x r < img_width image)
      /\ (0 < img_height image -> result_y r < img_height image).
Proof.
  intros analyze key text desc hint thr mn svc r. unfold Service.resolve, resolve_enter.
  pose proof (cache_of_get_session key key svc) as Hc.
  set (svc1 := _get_session key svc) in *. rewrite Hc.
  destruct (screenshot_b64 (cache_of key svc)) as [b|] eqn:Hb; [|discriminate].
  destruct (screenshot_id (cache_of key svc)) as [sid|] eqn:Hid;
    [|simpl; rewrite orb_true_r; discriminate].
  simpl. destruct (negb (truthy b) || negb (truthy sid)); [discriminate|].
  change (String.eqb "prediction" "ocr") with false.
  change (String.eqb "prediction" "prediction") with true. cbv iota.
  unfold Service.resolve_prediction.
  destruct (truthy_opt desc) eqn:Td; [|discriminate]. cbn [negb].
  destruct (_ensure_vision model_loads mn svc1) as [[svc2 m]|] eqn:Hv; [|discriminate].
  assert (Hc2 : cache_of key svc2 = cache_of key svc).
  { rewrite <- Hc. unfold _ensure_vision in Hv. destruct (_vision_model svc1).
    - now injection Hv as <- _.
    - destruct (model_loads _); [|discriminate]. now injection Hv as <- _. }
  rewrite Hc2, Hb, Hid. cbn [default from_option id].
  destruct (_predict_sync enum image_open model_chat b (default EmptyString desc))
    as [[x y]|] eqn:Hp; [|discriminate].
  cbn [snd]. intros [= <-]. cbn [result_x result_y screenshotId].
  destruct (predict_sync_inside _ _ _ _ Hp)
    as (image & answer & Ho & Hh & _ & _ & Hx & Hy & Hxw & Hyh).
  exists b, image. repeat (split; [first [reflexivity|assumption]|]). assumption.
Qed.

End Predict.

(** *** The threshold of the matcher *)

Lemma fle_flt_false a b c :
  fle a b = true -> flt b c = true -> fle c a = false.
Proof. float_cases; float_order. Qed.

Lemma fle_nan_l a x : is_nan a = true -> fle a x = false.
Proof. destruct a; try discriminate. reflexivity. Qed.

Lemma fle_flt_fle a b c : fle a b = true -> flt b c = true -> fle a c = true.
Proof. float_cases; float_order. Qed.

Section Threshold.
Variable ratio : list ascii -> list ascii -> float.
Hypothesis ratio_range :
  forall a b, fle f0_0 (ratio a b) = true /\ fle (ratio a b) Examples.f1_0 = true.

(** X21. The similarity lying between 0 and 1: with a threshold that is a
    NaN or exceeds 1 the matcher fails on every text and every list of
    regions. With a threshold of 0 or below, a text that is not empty is
    found exactly when some region has a similarity above 0: a region of
    similarity 0 is never returned, however low the threshold. *)
Theorem threshold_out_of_range :
  forall (text : string) (ocr_results : list OcrItem) (threshold : float),
    (is_nan threshold = true \/ flt Examples.f1_0 threshold = true ->
     exists e, resolve_ocr_text ratio text ocr_results threshold = inl e)
    /\ (fle threshold f0_0 = true -> text <> EmptyString ->
        ((exists item, item ∈ ocr_results
                       /\ flt f0_0 (score ratio (normalize text) item) = true)
         <-> exists p, resolve_ocr_text ratio text ocr_results threshold = inr p)).
Proof.
  intros text items thr.
  destruct (string_dec text EmptyString) as [->|Hne].
  { split; [intros _; now exists TextRequired|]. intros _ H. congruence. }
  rewrite (resolve_of_best_match ratio _ _ _ Hne).
  pose proof (best_match_inv ratio ratio_range (normalize text) items) as Hinv.
  destruct (best_match ratio (normalize text) items) as [[b|] bs];
    destruct Hinv as (Hnan & Hmax & Hbest); cbn [fst snd] in *.
  - destruct Hbest as (i & Hi & -> & H0 & _). unfold score in *. split.
    + intros [Hn|Hgt].
      * rewrite (fle_nan_l _ _ Hn). eauto.
      * rewrite (fle_flt_false _ _ _ (proj2 (ratio_range _ _)) Hgt). eauto.
    + intros Hle _. rewrite (fle_flt_fle _ _ _ Hle H0). split; [eauto|].
      intros _. exists b. split; [|exact H0]. eapply list_elem_of_lookup_2. exact Hi.
  - subst bs. split; [eauto|]. intros _ _. split.
    + intros (item & Hin & Hpos). rewrite (Hmax item Hin) in Hpos. discriminate.
    + intros [p Hp]. discriminate.
Qed.

End Threshold.

Lemma threshold_out_of_range_witness :
  exists e, resolve_ocr_text Examples.exact_ratio "Submit" Examples.regions_A
              (float_of_decimal 15 1) = inl e.
Proof.
  refine (proj1 (threshold_out_of_range Examples.exact_ratio exact_ratio_range
                   "Submit" Examples.regions_A (float_of_decimal 15 1)) _).
  right. vm_compute. reflexivity.
Defined.

Lemma scale_norm_to_pixels_edges_witness :
  scale_norm_to_pixels (S754_infinity false) (float_of_decimal 500 0) 1000 800 = None.
Proof.
  refine (proj1 (scale_norm_to_pixels_edges (S754_infinity false)
                   (float_of_decimal 500 0) 1000 800) _).
  left. reflexivity.
Defined.

(** A model that answers with the point in the middle of an image of 200
    by 100 pixels. *)
Local Abbreviation one_image := (fun _ : string => Some {| img_width := 200; img_height := 100 |}).
Local Abbreviation middle := (fun (_ : list Tile) (_ : string) => Some "[[500, 500]]"%string).

Lemma prediction_inside_image_witness :
  let svc := fst (ingest_screenshot Examples.stub_sha256 "s" "A" None new_service) in
  snd (resolve Examples.exact_ratio (fun _ => true) grids one_image middle
         Examples.stub_analyze "s" "prediction" None (Some "the button"%string)
         None None None svc)
  = inr {| screenshotId := "A000000000000000"; result_x := 100; result_y := 50 |}
  /\ 100 < 200 /\ 50 < 100.
Proof.
  intros svc.
  assert (H : snd (resolve Examples.exact_ratio (fun _ => true) grids one_image middle
                     Examples.stub_analyze "s" "prediction" None
                     (Some "the button"%string) None None None svc)
              = inr {| screenshotId := "A000000000000000";
                       result_x := 100; result_y := 50 |})
    by (vm_compute; reflexivity).
  split; [exact H|].
  destruct (prediction_inside_image Examples.exact_ratio (fun _ => true) grids
              one_image middle Examples.stub_analyze "s" None
              (Some "the button"%string) None None None svc _ H)
    as (b & image & _ & _ & _ & Ho & _ & _ & _ & _ & Hx & Hy).
  injection Ho as <-. split; [apply Hx|apply Hy]; reflexivity.
Defined.

(** *** White space and letter case in the target *)

Lemma lower_char_space c : is_space c = true -> lower_char c = c.
Proof. destruct c as [[] [] [] [] [] [] [] []]; vm_compute; congruence. Qed.

Lemma lower_char_idem c : lower_char (lower_char c) = lower_char c.
Proof. destruct c as [[] [] [] [] [] [] [] []]; vm_compute; reflexivity. Qed.

Lemma lower_idem s : lower (lower s) = lower s.
Proof.
  unfold lower. rewrite map_map. apply map_ext. intros c. apply lower_char_idem.
Qed.

Lemma lower_ws w : forallb is_space w = true -> lower w = w.
Proof.
  induction w as [|c w IH]; simpl; [reflexivity|].
  intros H. apply andb_true_iff in H as [Hc Hw].
  now rewrite (lower_char_space c Hc), IH.
Qed.

Lemma drop_while_app_all p w t :
  forallb p w = true -> drop_while p (w ++ t) = drop_while p t.
Proof.
  induction w as [|c w IH]; simpl; [reflexivity|].
  intros H. apply andb_true_iff in H as [-> Hw]. now apply IH.
Qed.

Lemma drop_while_all p w : forallb p w = true -> drop_while p w = [].
Proof.
  intros H. rewrite <- (app_nil_r w). now rewrite drop_while_app_all.
Qed.

Lemma drop_while_app_r p t w :
  forallb p w = true ->
  drop_while p (t ++ w) = if forallb p t then [] else drop_while p t ++ w.
Proof.
  intros Hw. induction t as [|c t IH]; simpl; [now apply drop_while_all|].
  destruct (p c); simpl; [exact IH|reflexivity].
Qed.

Lemma strip_pad w1 t w2 :
  forallb is_space w1 = true -> forallb is_space w2 = true ->
  strip (w1 ++ t ++ w2) = strip t.
Proof.
  intros H1 H2. unfold strip. rewrite (drop_while_app_all _ _ _ H1).
  rewrite (drop_while_app_r _ _ _ H2).
  destruct (forallb is_space t) eqn:Et.
  - now rewrite (drop_while_all _ _ Et).
  - rewrite rev_app_distr. rewrite drop_while_app_all; [reflexivity|].
    rewrite forallb_forall in *. intros c Hc. apply H2. now apply in_rev.
Qed.

(** X22. The matcher reads its target through [lower()] and [strip()]
    only: white space put before and after a target that is not empty,
    and the replacement of its capital letters by small ones, change
    neither the region found nor the score reported. *)
Theorem matcher_ignores_padding_and_case :
  forall (ratio : list ascii -> list ascii -> float) (text : string)
         (w1 w2 : list ascii) (ocr_results : list OcrItem) (threshold : float),
    is_ws w1 -> is_ws w2 -> text <> EmptyString ->
    resolve_ocr_text ratio (string_of_list_ascii (w1 ++ chars text ++ w2))
      ocr_results threshold
    = resolve_ocr_text ratio text ocr_results threshold
    /\ resolve_ocr_text ratio (string_of_list_ascii (lower (chars text)))
         ocr_results threshold
       = resolve_ocr_text ratio text ocr_results threshold.
Proof.
  intros ratio text w1 w2 items thr H1 H2 Hne.
  assert (Hc : exists c cs, chars text = c :: cs).
  { destruct text as [|c t]; [congruence|]. simpl. eauto. }
  destruct Hc as (c & cs & Hc).
  assert (Hn1 : normalize (string_of_list_ascii (w1 ++ chars text ++ w2))
                = normalize text).
  { unfold normalize, chars at 1. rewrite list_ascii_of_string_of_list_ascii.
    unfold lower. rewrite !map_app. fold (lower w1) (lower w2) (lower (chars text)).
    rewrite (lower_ws _ H1), (lower_ws _ H2). now apply strip_pad. }
  assert (Hn2 : normalize (string_of_list_ascii (lower (chars text))) = normalize text).
  { unfold normalize, chars at 1. rewrite list_ascii_of_string_of_list_ascii.
    now rewrite lower_idem. }
  assert (Ht : forall l, l <> [] -> string_of_list_ascii l <> EmptyString).
  { intros [|a l] H; [congruence|discriminate]. }
  split.
  - rewrite !resolve_of_best_match; [now rewrite Hn1|exact Hne|].
    apply Ht. rewrite Hc. now destruct w1.
  - rewrite !resolve_of_best_match; [now rewrite Hn2|exact Hne|].
    apply Ht. rewrite Hc. discriminate.
Qed.

Lemma matcher_ignores_padding_and_case_witness :
  resolve_ocr_text Examples.exact_ratio " SUBMIT  " Examples.regions_A Examples.f0_8
  = resolve_ocr_text Examples.exact_ratio "SUBMIT" Examples.regions_A Examples.f0_8.
Proof.
  refine (proj1 (matcher_ignores_padding_and_case Examples.exact_ratio "SUBMIT"
                   [" "%char] [" "%char; " "%char] Examples.regions_A Examples.f0_8
                   _ _ _)); [reflexivity|reflexivity|discriminate].
Defined.

End EdgeFacts.

(* ================================================================= *)
(** ** The sign of the coordinates read from an answer *)

Module SignFacts.
Import Float64 PyStr Regex Coordinates Vision Sign.

(** *** Rounding keeps the sign *)

Lemma shr_1_nonneg mrs : 0 <= shr_m mrs -> 0 <= shr_m (shr_1 mrs).
Proof.
  destruct mrs as [m r s]. destruct m as [|[p|p|]|p]; simpl; lia.
Qed.

Lemma iter_shr_nonneg p : forall mrs,
  0 <= shr_m mrs -> 0 <= shr_m (SpecFloat.iter_pos shr_1 p mrs).
Proof.
  induction p as [p IH|p IH|]; intros mrs H; simpl.
  - apply IH, IH, shr_1_nonneg, H.
  - apply IH, IH, H.
  - apply shr_1_nonneg, H.
Qed.

Lemma shr_nonneg mrs e n : 0 <= shr_m mrs -> 0 <= shr_m (fst (shr mrs e n)).
Proof.
  intros H. unfold shr. destruct n; simpl; [exact H| |exact H].
  now apply iter_shr_nonneg.
Qed.

Lemma shr_fexp_nonneg m e l :
  0 <= m -> 0 <= shr_m (fst (shr_fexp prec emax m e l)).
Proof.
  intros H. unfold shr_fexp. apply shr_nonneg.
  destruct l as [|[]]; exact H.
Qed.

Lemma round_nearest_even_nonneg m l : 0 <= m -> 0 <= round_nearest_even m l.
Proof.
  intros H. unfold round_nearest_even. destruct l as [|[]]; try lia.
  destruct (Z.even m); lia.
Qed.

Lemma binary_round_aux_nonneg m e l :
  0 <= m -> is_nonneg (binary_round_aux prec emax false m e l) = true.
Proof.
  intros H. unfold binary_round_aux.
  pose proof (shr_fexp_nonneg m e l H) as H1.
  destruct (shr_fexp prec emax m e l) as [mrs1 e1]. cbn [fst] in H1.
  pose proof (shr_fexp_nonneg _ e1 loc_Exact
                (round_nearest_even_nonneg _ (loc_of_shr_record mrs1) H1)) as H2.
  destruct (shr_fexp prec emax _ e1 loc_Exact) as [mrs2 e2]. cbn [fst] in H2.
  destruct (shr_m mrs2) as [|p|p]; [reflexivity| |lia].
  now destruct (e2 <=? emax - prec).
Qed.

Lemma div_core_nonneg m1 e1 m2 e2 :
  0 <= fst (fst (SFdiv_core_binary prec emax (Zpos m1) e1 (Zpos m2) e2)).
Proof.
  unfold SFdiv_core_binary.
  set (s := _ - _ - _).
  set (m' := match s with Z0 => Zpos m1 | Zpos _ => Z.shiftl (Zpos m1) s | Zneg _ => 0 end).
  assert (Hm : 0 <= m').
  { subst m'. destruct s; [lia| |lia]. apply Z.shiftl_nonneg. lia. }
  pose proof (Z.div_pos m' (Zpos m2) Hm ltac:(lia)) as Hq.
  unfold Z.div in Hq. destruct (Z.div_eucl m' (Zpos m2)) as [q r]. exact Hq.
Qed.

Lemma fdiv_nonneg x m e :
  is_nonneg x = true -> is_nonneg (fdiv x (S754_finite false m e)) = true.
Proof.
  destruct x as [[]|[]| |[] mx ex]; try discriminate; intros _; try reflexivity.
  unfold fdiv, SFdiv.
  pose proof (div_core_nonneg mx ex m e) as H.
  destruct (SFdiv_core_binary prec emax (Zpos mx) ex (Zpos m) e) as [[q e'] l].
  cbn [fst] in H. now apply binary_round_aux_nonneg.
Qed.

Lemma float_of_decimal_nonneg n k : is_nonneg (float_of_decimal n k) = true.
Proof.
  unfold float_of_decimal. destruct n as [|p]; [reflexivity|].
  now apply fdiv_nonneg.
Qed.

Lemma binary_round_nonneg m e : is_nonneg (binary_round prec emax false m e) = true.
Proof.
  unfold binary_round. destruct (shl_align _ _ _) as [mz ez].
  apply binary_round_aux_nonneg. lia.
Qed.

Lemma fadd_nonneg x y :
  is_nonneg x = true -> is_nonneg y = true -> is_nonneg (fadd x y) = true.
Proof.
  destruct x as [[]|[]| |[] mx ex]; try discriminate;
    destruct y as [[]|[]| |[] my ey]; try discriminate; intros _ _; try reflexivity.
  unfold fadd, SFadd, cond_Zopp, binary_normalize.
  destruct (shl_align mx ex _) as [a ea], (shl_align my ey _) as [b eb].
  cbn [fst]. apply binary_round_nonneg.
Qed.

Lemma fmul_nonneg x y :
  is_nonneg x = true -> is_nonneg y = true ->
  is_nonneg (fmul x y) = true \/ fmul x y = S754_nan.
Proof.
  destruct x as [[]|[]| |[] mx ex]; try discriminate;
    destruct y as [[]|[]| |[] my ey]; try discriminate; intros _ _;
    try (left; reflexivity); try (right; reflexivity).
  left. unfold fmul, SFmul. apply binary_round_aux_nonneg. lia.
Qed.

Lemma floor_nonneg x v : is_nonneg x = true -> floor x = Some v -> 0 <= v.
Proof.
  destruct x as [[]|[]| |[] m e]; try discriminate; intros _; simpl.
  - intros [= <-]. lia.
  - intros [= <-]. destruct (Z.leb_spec 0 e).
    + apply Z.mul_nonneg_nonneg; [lia|]. apply Z.pow_nonneg. lia.
    + apply Z.div_pos; [lia|]. apply Z.pow_pos_nonneg; lia.
Qed.

Lemma float_of_int_nonneg n d :
  0 <= n -> float_of_int n = Some d -> is_nonneg d = true.
Proof.
  intros Hn. unfold float_of_int. destruct (is_finite _); [|discriminate].
  intros [= <-]. unfold binary_normalize. destruct n as [|p|p]; [reflexivity| |lia].
  apply binary_round_nonneg.
Qed.

(** *** The extractors *)

Lemma float_of_str_nonneg u x : float_of_str u = Some x -> is_nonneg x = true.
Proof.
  unfold float_of_str. destruct (take_while is_digit u); [discriminate|].
  destruct (drop_while is_digit u) as [|c fp].
  - intros [= <-]. apply float_of_decimal_nonneg.
  - destruct (_ && _ && _); [|discriminate]. intros [= <-].
    apply float_of_decimal_nonneg.
Qed.

Lemma float_group_nonneg n caps x :
  float_group n caps = Some x -> is_nonneg x = true.
Proof.
  unfold float_group. destruct (group n caps); [|discriminate].
  apply float_of_str_nonneg.
Qed.

Lemma f2_0_finite : exists m e, f2_0 = S754_finite false m e.
Proof. eexists _, _. vm_compute. reflexivity. Qed.

Lemma f1000_0_positive : exists m e, f1000_0 = S754_finite false m e.
Proof. eexists _, _. vm_compute. reflexivity. Qed.

(** X23. The coordinates read from an answer, the point as well as the
    corners of a box and the centre computed from them, are never a NaN
    and never negative: each is [0.0], a positive number or the positive
    infinity. So for an image of positive width and height the product
    [(norm / 1000.0) * dimension] has a floor of at least 0 whenever it has
    one, and the clamping from below of [scale_norm_to_pixels] never acts
    on it. *)
Theorem answer_coordinates_not_negative :
  forall (output_text : string),
    (forall x y, extract_first_point output_text = Some (x, y) ->
       is_nonneg x = true /\ is_nonneg y = true)
    /\ (forall x1 y1 x2 y2, extract_last_bbox output_text = Some (x1, y1, x2, y2) ->
          is_nonneg x1 = true /\ is_nonneg y1 = true
          /\ is_nonneg x2 = true /\ is_nonneg y2 = true)
    /\ (forall x y, answer_point output_text = Some (x, y) ->
          is_nonneg x = true /\ is_nonneg y = true
          /\ forall dim d px, 0 <= dim -> float_of_int dim = Some d ->
               (floor (fmul (fdiv x f1000_0) d) = Some px -> 0 <= px)
               /\ (floor (fmul (fdiv y f1000_0) d) = Some px -> 0 <= px)).
Proof.
  intros text.
  assert (Hp : forall x y, extract_first_point text = Some (x, y) ->
                 is_nonneg x = true /\ is_nonneg y = true).
  { intros x y. unfold extract_first_point.
    destruct (search _ _) as [[i [caps rest]]|]; [|discriminate].
    destruct (float_group 1 caps) as [a|] eqn:E1; [|discriminate].
    destruct (float_group 2 caps) as [b|] eqn:E2; [|discriminate].
    intros [= <- <-]. split; eapply float_group_nonneg; eassumption. }
  assert (Hb : forall x1 y1 x2 y2, extract_last_bbox text = Some (x1, y1, x2, y2) ->
                 is_nonneg x1 = true /\ is_nonneg y1 = true
                 /\ is_nonneg x2 = true /\ is_nonneg y2 = true).
  { intros x1 y1 x2 y2. unfold extract_last_bbox.
    destruct (last _) as [[caps rest]|]; [|discriminate].
    destruct (float_group 1 caps) as [a|] eqn:E1; [|discriminate].
    destruct (float_group 2 caps) as [b|] eqn:E2; [|discriminate].
    destruct (float_group 3 caps) as [c|] eqn:E3; [|discriminate].
    destruct (float_group 4 caps) as [d|] eqn:E4; [|discriminate].
    intros [= <- <- <- <-]. repeat split; eapply float_group_nonneg; eassumption. }
  split; [exact Hp|]. split; [exact Hb|].
  intros x y Ha.
  assert (Hxy : is_nonneg x = true /\ is_nonneg y = true).
  { unfold answer_point in Ha. destruct (negb (truthy text)); [discriminate|].
    destruct (extract_first_point text) as [[a b]|] eqn:E1.
    - injection Ha as <- <-. now apply Hp.
    - destruct (extract_last_bbox text) as [[[[x1 y1] x2] y2]|] eqn:E2; [|discriminate].
      injection Ha as <- <-.
      destruct (Hb _ _ _ _ eq_refl) as (H1 & H2 & H3 & H4).
      destruct f2_0_finite as (m & e & ->).
      split; apply fdiv_nonneg, fadd_nonneg; assumption. }
  destruct Hxy as [Hx Hy]. split; [exact Hx|]. split; [exact Hy|].
  intros dim d px Hdim Hd.
  pose proof (float_of_int_nonneg dim d Hdim Hd) as Hdn.
  destruct f1000_0_positive as (m & e & ->).
  split; intros Hf.
  - destruct (fmul_nonneg _ d (fdiv_nonneg x m e Hx) Hdn) as [H|H].
    + exact (floor_nonneg _ _ H Hf).
    + rewrite H in Hf. discriminate.
  - destruct (fmul_nonneg _ d (fdiv_nonneg y m e Hy) Hdn) as [H|H].
    + exact (floor_nonneg _ _ H Hf).
    + rewrite H in Hf. discriminate.
Qed.

Lemma answer_coordinates_not_negative_witness :
  answer_point AnswerExamples.two_boxes
  = Some (float_of_decimal 200 0, float_of_decimal 30025 2)
  /\ is_nonneg (float_of_decimal 200 0) = true.
Proof.
  assert (H : answer_point AnswerExamples.two_boxes
              = Some (float_of_decimal 200 0, float_of_decimal 30025 2))
    by (vm_compute; reflexivity).
  split; [exact H|].
  exact (proj1 (proj2 (proj2 (answer_coordinates_not_negative
                                AnswerExamples.two_boxes)) _ _ H)).
Defined.

End SignFacts.

(* ================================================================= *)
(** ** The inference lock *)

Module InferenceFacts.
Import Inference.

(** *** The observations *)

Lemma called_snoc l t o :
  called (l ++ [(t, o)]) = called l ++ match o with Called c => [c] | _ => [] end.
Proof. unfold called. rewrite omap_app. now destruct o. Qed.

Lemma begun_snoc l t o :
  begun (l ++ [(t, o)]) = begun l ++ match o with Began c => [c] | _ => [] end.
Proof. unfold begun. rewrite omap_app. now destruct o. Qed.

Lemma elem_of_called c l : c ∈ called l <-> exists t, (t, Called c) ∈ l.
Proof.
  unfold called. rewrite list_elem_of_omap. split.
  - intros ([t o] & Hin & Hc). unfold called_of in Hc. simpl in Hc.
    destruct o; try discriminate. injection Hc as ->. eauto.
  - intros (t & Hin). exists (t, Called c). auto.
Qed.

Lemma elem_of_begun c l : c ∈ begun l <-> exists t, (t, Began c) ∈ l.
Proof.
  unfold begun. rewrite list_elem_of_omap. split.
  - intros ([t o] & Hin & Hc). unfold began_of in Hc. simpl in Hc.
    destruct o; try discriminate. injection Hc as ->. eauto.
  - intros (t & Hin). exists (t, Began c). auto.
Qed.

(** An entry of a log with one more observation. *)
Ltac inlog H :=
  apply elem_of_app in H as [H|H];
  [|apply list_elem_of_singleton in H; inversion H; subst; clear H].

Lemma holder_cases (E F : list call) (b : bool) (c : call) :
  length (E ++ F) = (if b then 1 else 0)%nat -> c ∈ E ++ F ->
  b = true /\ ((E = [c] /\ F = []) \/ (E = [] /\ F = [c])).
Proof.
  rewrite length_app. intros Hl Hc.
  destruct b.
  - split; [reflexivity|].
    destruct E as [|x [|y E]], F as [|z [|y' F]]; cbn in Hl; try lia.
    + right. apply list_elem_of_singleton in Hc as ->. auto.
    + left. apply list_elem_of_singleton in Hc as ->. auto.
  - destruct E, F; cbn in Hl; try lia. now apply not_elem_of_nil in Hc.
Qed.

(** *** The steps keep the invariant *)

Lemma inv_init : serial_inv init.
Proof.
  unfold serial_inv, init. cbn.
  repeat split; try (intros; exfalso; eapply not_elem_of_nil; eassumption).
  constructor.
Qed.

Lemma inv_tick d st : serial_inv st -> serial_inv (tick d st).
Proof.
  unfold serial_inv, tick. cbn [now _inference_lock executing finished log _locked _waiters].
  intros (A1 & A2 & B1 & B2 & B3 & B4 & B5 & C1 & C2 & C3 & C4 & C5 & C6).
  repeat (split; [assumption|]). split; [|auto].
  intros t o H. specialize (C1 t o H). lia.
Qed.

Lemma inv_enqueue n lk ws E F L c :
  serial_inv {| now := n; _inference_lock := {| _locked := lk; _waiters := ws |};
                executing := E; finished := F; log := L |} ->
  c ∉ called L ->
  serial_inv {| now := n;
                _inference_lock := {| _locked := lk; _waiters := ws ++ [(c, false)] |};
                executing := E; finished := F; log := L ++ [(n, Called c)] |}.
Proof.
  unfold serial_inv. cbn [now _inference_lock executing finished log _locked _waiters].
  intros (A1 & A2 & B1 & B2 & B3 & B4 & B5 & C1 & C2 & C3 & C4 & C5 & C6) Hc.
  rewrite called_snoc, begun_snoc, app_nil_r.
  assert (Hnb : forall t, (t, Began c) ∉ L).
  { intros t Ht. apply Hc. rewrite <- B2. apply elem_of_app. left.
    apply elem_of_begun. eauto. }
  split; [exact A1|]. split.
  { intros c' H. apply elem_of_app in H as [H|H].
    - destruct (A2 c' H) as (Hl & rest & -> & Hr). split; [exact Hl|].
      exists (rest ++ [(c, false)]). split; [reflexivity|].
      intros c'' H'. apply elem_of_app in H' as [H'|H']; [now apply (Hr c'')|].
      apply list_elem_of_singleton in H'. discriminate.
    - apply list_elem_of_singleton in H. discriminate. }
  split.
  { apply NoDup_app. split; [exact B1|]. split; [|apply NoDup_singleton].
    intros x Hx Hx'. apply list_elem_of_singleton in Hx'. now subst. }
  split.
  { rewrite List.map_app. cbn [List.map fst]. rewrite app_assoc. now rewrite B2. }
  split; [exact B3|]. split.
  { intros c' t H. inlog H. now apply (B4 c' t). }
  split.
  { intros c' t H. inlog H. now apply (B5 c' t). }
  split.
  { intros t o H. inlog H; [exact (C1 _ _ H)|lia]. }
  split.
  { intros c' a b Ha Hb. inlog Hb. inlog Ha; [now apply (C2 c')|].
    exfalso. now apply (Hnb b). }
  split.
  { intros c' b e Hb He. inlog Hb. inlog He. now apply (C3 c'). }
  split.
  { intros c' e r He Hr. inlog He. inlog Hr. now apply (C4 c'). }
  split.
  { intros c0 b c' e' Hc0 Hb He Hne. inlog Hb. inlog He. now apply (C5 c0 b c' e'). }
  intros c1 c2 b1 e1 b2 e2 Hne H1 H2 H3 H4.
  inlog H1. inlog H2. inlog H3. inlog H4. now apply (C6 c1 c2).
Qed.

Lemma inv_begin n c w rest E F L :
  serial_inv {| now := n;
                _inference_lock := {| _locked := false; _waiters := (c, w) :: rest |};
                executing := E; finished := F; log := L |} ->
  (forall c', (c', true) ∉ rest) ->
  serial_inv {| now := n;
                _inference_lock := {| _locked := true; _waiters := rest |};
                executing := E ++ [c]; finished := F; log := L ++ [(n, Began c)] |}.
Proof.
  unfold serial_inv. cbn [now _inference_lock executing finished log _locked _waiters].
  intros (A1 & A2 & B1 & B2 & B3 & B4 & B5 & C1 & C2 & C3 & C4 & C5 & C6) Hrest.
  rewrite called_snoc, begun_snoc, app_nil_r.
  assert (HE : E = [] /\ F = []).
  { destruct E, F; try discriminate. auto. }
  destruct HE as [-> ->]. cbn.
  assert (Hnb : forall t, (t, Began c) ∉ L).
  { intros t Ht. rewrite <- B2 in B1. apply NoDup_app in B1 as (_ & Hd & _).
    apply (Hd c); [apply elem_of_begun; eauto|left]. }
  assert (Hne : forall t, (t, Ended c) ∉ L).
  { intros t Ht. destruct (B4 c t Ht) as [Hb _]. apply elem_of_begun in Hb as [b Hb].
    now apply (Hnb b). }
  split; [reflexivity|]. split.
  { intros c' H. now destruct (Hrest c'). }
  split; [exact B1|]. split.
  { rewrite <- B2, <- app_assoc. reflexivity. }
  split.
  { intros c' H. apply list_elem_of_singleton in H as ->.
    apply elem_of_app. right. left. }
  split.
  { intros c' t H. inlog H. destruct (B4 c' t H) as [Hb _]. split.
    - apply elem_of_app. now left.
    - intros Hin. apply list_elem_of_singleton in Hin as ->. now apply (Hne t). }
  split.
  { intros c' t H. inlog H. destruct (B5 c' t H) as [Hb _]. split.
    - apply elem_of_app. now left.
    - intros Hin. apply list_elem_of_singleton in Hin as ->.
      apply elem_of_begun in Hb as [b Hb]. now apply (Hnb b). }
  split.
  { intros t o H. inlog H; [exact (C1 _ _ H)|lia]. }
  split.
  { intros c' a b Ha Hb. inlog Ha. inlog Hb; [now apply (C2 c')|now apply (C1 _ _ Ha)]. }
  split.
  { intros c' b e Hb He. inlog He. inlog Hb; [now apply (C3 c')|].
    exfalso. now apply (Hne e). }
  split.
  { intros c' e r He Hr. inlog He. inlog Hr. now apply (C4 c'). }
  split.
  { intros c0 b c' e' Hc0 Hb He Hne'. apply list_elem_of_singleton in Hc0 as ->.
    inlog He. inlog Hb; [exfalso; now apply (Hnb b)|]. now apply (C1 _ _ He). }
  intros c1 c2 b1 e1 b2 e2 Hne' H1 H2 H3 H4.
  inlog H2. inlog H4.
  inlog H1; [|exfalso; now apply (Hne e1)].
  inlog H3; [|exfalso; now apply (Hne e2)].
  now apply (C6 c1 c2).
Qed.

Lemma inv_job_done n lk E F L c :
  serial_inv {| now := n; _inference_lock := lk;
                executing := E; finished := F; log := L |} ->
  c ∈ E ->
  serial_inv {| now := n; _inference_lock := lk;
                executing := List.filter (fun c' => negb (Nat.eqb c' c)) E;
                finished := F ++ [c]; log := L ++ [(n, Ended c)] |}.
Proof.
  unfold serial_inv. cbn [now _inference_lock executing finished log _locked _waiters].
  intros (A1 & A2 & B1 & B2 & B3 & B4 & B5 & C1 & C2 & C3 & C4 & C5 & C6) Hc.
  rewrite called_snoc, begun_snoc, !app_nil_r.
  assert (HEF : E = [c] /\ F = [] /\ _locked lk = true).
  { destruct (holder_cases E F _ c A1 ltac:(apply elem_of_app; now left))
      as [Hl [[-> ->]|[-> ->]]]; [auto|].
    now apply not_elem_of_nil in Hc. }
  destruct HEF as (-> & -> & Hl). rewrite Hl in *. cbn. rewrite Nat.eqb_refl. cbn.
  assert (Hin : c ∈ [c] ++ []) by (left).
  assert (Hne : forall t, (t, Ended c) ∉ L).
  { intros t Ht. destruct (B4 c t Ht) as [_ H]. apply H. left. }
  assert (Hnr : forall t, (t, Returned c) ∉ L).
  { intros t Ht. destruct (B5 c t Ht) as [_ H]. apply H. left. }
  split; [reflexivity|]. split; [exact A2|]. split; [exact B1|]. split; [exact B2|].
  split.
  { intros c' H. apply list_elem_of_singleton in H as ->. now apply B3. }
  split.
  { intros c' t H. split; [|apply not_elem_of_nil].
    inlog H; [now destruct (B4 c' t H)|now apply B3]. }
  split.
  { intros c' t H. inlog H. destruct (B5 c' t H) as [Hb Hn]. split; [exact Hb|].
    exact Hn. }
  split.
  { intros t o H. inlog H; [exact (C1 _ _ H)|lia]. }
  split.
  { intros c' a b Ha Hb. inlog Ha. inlog Hb. now apply (C2 c'). }
  split.
  { intros c' b e Hb He. inlog Hb. inlog He; [now apply (C3 c')|now apply (C1 _ _ Hb)]. }
  split.
  { intros c' e r He Hr. inlog Hr. inlog He; [now apply (C4 c')|].
    exfalso. now apply (Hnr r). }
  split.
  { intros c0 b c' e' Hc0 Hb He Hne'. apply list_elem_of_singleton in Hc0 as ->.
    inlog Hb. inlog He; [|congruence]. now apply (C5 c b c' e'). }
  intros c1 c2 b1 e1 b2 e2 Hne' H1 H2 H3 H4.
  inlog H1. inlog H3.
  apply elem_of_app in H2 as [H2|H2]; apply elem_of_app in H4 as [H4|H4].
  - now apply (C6 c1 c2).
  - apply list_elem_of_singleton in H4. injection H4 as -> ->.
    left. now apply (C5 c b2 c1 e1).
  - apply list_elem_of_singleton in H2. injection H2 as -> ->.
    right. apply (C5 c b1 c2 e2); auto.
  - apply list_elem_of_singleton in H2, H4. congruence.
Qed.

Lemma inv_return n lk E F L c :
  serial_inv {| now := n; _inference_lock := lk;
                executing := E; finished := F; log := L |} ->
  c ∈ F ->
  serial_inv {| now := n; _inference_lock := release lk;
                executing := E;
                finished := List.filter (fun c' => negb (Nat.eqb c' c)) F;
                log := L ++ [(n, Returned c)] |}.
Proof.
  unfold serial_inv. cbn [now _inference_lock executing finished log _locked _waiters].
  intros (A1 & A2 & B1 & B2 & B3 & B4 & B5 & C1 & C2 & C3 & C4 & C5 & C6) Hc.
  rewrite called_snoc, begun_snoc, !app_nil_r.
  assert (HEF : E = [] /\ F = [c] /\ _locked lk = true).
  { destruct (holder_cases E F _ c A1 ltac:(apply elem_of_app; now right))
      as [Hl [[-> ->]|[-> ->]]]; [|auto].
    now apply not_elem_of_nil in Hc. }
  destruct HEF as (-> & -> & Hl). destruct lk as [lkd ws]. cbn in *. subst lkd.
  cbn. rewrite Nat.eqb_refl. cbn.
  assert (Hnt : forall c', (c', true) ∉ ws).
  { intros c' H. now destruct (A2 c' H). }
  assert (Hw : _locked (_wake_up_first {| _locked := false; _waiters := ws |}) = false
               /\ map fst (_waiters (_wake_up_first {| _locked := false; _waiters := ws |}))
                  = map fst ws
               /\ forall c', (c', true) ∈ _waiters (_wake_up_first
                                           {| _locked := false; _waiters := ws |}) ->
                    exists rest, _waiters (_wake_up_first
                                             {| _locked := false; _waiters := ws |})
                                 = (c', true) :: rest
                                 /\ forall c'', (c'', true) ∉ rest).
  { unfold _wake_up_first. cbn. destruct ws as [|[c0 d] rest]; cbn.
    - repeat split. intros c' H. now apply not_elem_of_nil in H.
    - repeat split. intros c' H. apply elem_of_cons in H as [H|H].
      + injection H as ->. exists rest. split; [reflexivity|].
        intros c'' H'. apply (Hnt c''). now right.
      + exfalso. apply (Hnt c'). now right. }
  destruct Hw as (Hw1 & Hw2 & Hw3).
  rewrite Hw1, Hw2.
  split; [reflexivity|]. split.
  { intros c' H. split; [reflexivity|]. now apply Hw3. }
  split; [exact B1|]. split; [exact B2|].
  split.
  { intros c' H. now apply not_elem_of_nil in H. }
  split.
  { intros c' t H. inlog H. now apply (B4 c' t). }
  split.
  { intros c' t H. split; [|apply not_elem_of_nil].
    inlog H; [now destruct (B5 c' t H)|]. apply B3. left. }
  split.
  { intros t o H. inlog H; [exact (C1 _ _ H)|lia]. }
  split.
  { intros c' a b Ha Hb. inlog Ha. inlog Hb. now apply (C2 c'). }
  split.
  { intros c' b e Hb He. inlog Hb. inlog He. now apply (C3 c'). }
  split.
  { intros c' e r He Hr. inlog He. inlog Hr; [now apply (C4 c')|now apply (C1 _ _ He)]. }
  split.
  { intros c0 b c' e' Hc0. now apply not_elem_of_nil in Hc0. }
  intros c1 c2 b1 e1 b2 e2 Hne' H1 H2 H3 H4.
  inlog H1. inlog H2. inlog H3. inlog H4. now apply (C6 c1 c2).
Qed.

Lemma inv_step st ev : serial_inv st -> serial_inv (step st ev).
Proof.
  intros H. destruct ev as [d ev]. unfold step. cbn [fst snd].
  apply (inv_tick d) in H. revert H. generalize (tick d st). clear st.
  intros [n [lk ws] E F L] H. destruct ev as [c|c|c|c]; cbn [log executing finished
    _inference_lock _waiters].
  - (* a call is made *)
    destruct (bool_decide (c ∈ called L)) eqn:Hd; [exact H|].
    apply bool_decide_eq_false in Hd.
    pose proof (inv_enqueue _ _ _ _ _ _ c H Hd) as H1.
    unfold predict_enter, acquire, observe, with_lock, run_in_executor. cbn.
    destruct lk; cbn; [exact H1|].
    destruct ws as [|w ws]; cbn; [|exact H1].
    apply (inv_begin n c false [] E F _ H1). intros c'. apply not_elem_of_nil.
  - (* a waiting call goes on *)
    destruct (bool_decide ((c, true) ∈ ws)) eqn:Hd; [|exact H].
    apply bool_decide_eq_true in Hd.
    pose proof H as (_ & A2 & _). cbn in A2.
    destruct (A2 c Hd) as (Hl & rest & -> & Hr). subst lk.
    unfold predict_resume, acquire_resume, with_lock, run_in_executor, observe. cbn.
    rewrite Nat.eqb_refl.
    now apply (inv_begin n c true rest E F L H).
  - (* a job ends *)
    destruct (bool_decide (c ∈ E)) eqn:Hd; [|exact H].
    apply bool_decide_eq_true in Hd.
    exact (inv_job_done _ _ _ _ _ c H Hd).
  - (* a call returns *)
    destruct (bool_decide (c ∈ F)) eqn:Hd; [|exact H].
    apply bool_decide_eq_true in Hd.
    exact (inv_return _ _ _ _ _ c H Hd).
Qed.

Lemma inv_fold schedule : forall st,
  serial_inv st -> serial_inv (fold_left step schedule st).
Proof.
  induction schedule as [|ev schedule IH]; intros st H; [exact H|].
  cbn. apply IH, inv_step, H.
Qed.

Lemma inv_run schedule : serial_inv (run schedule).
Proof. apply inv_fold, inv_init. Qed.

(** C7. Whatever the calls of [predict_click_coordinates] on the model and
    the order in which the event loop and the executor go on: at no moment
    do two jobs [_predict_sync] run, and a job runs only while the one
    lock of the model is held; the jobs begin in the order in which the
    calls were made, the calls that wait for the lock being those made
    last, in their order; a job that has begun and ended did so before
    the job of any other call began or after it ended, and a job that
    runs began after every other job ended, so that the executions of two
    calls do not overlap in time; and the time from the earlier of two
    calls to the later of their returns is at least the sum of the
    durations of their two jobs. *)
Theorem inference_serialized :
  forall (schedule : list (N * event)),
    let st := run schedule in
    (length (executing st) <= 1)%nat
    /\ (forall c, c ∈ executing st -> _locked (_inference_lock st) = true)
    /\ NoDup (called (log st))
    /\ begun (log st) ++ map fst (_waiters (_inference_lock st)) = called (log st)
    /\ (forall c1 c2 b1 e1 b2 e2, c1 <> c2 ->
          (b1, Began c1) ∈ log st -> (e1, Ended c1) ∈ log st ->
          (b2, Began c2) ∈ log st -> (e2, Ended c2) ∈ log st ->
          b1 <= e1 /\ b2 <= e2 /\ (e1 <= b2 \/ e2 <= b1))
    /\ (forall c1 c2 b1 b2 e2, c1 <> c2 ->
          (b1, Began c1) ∈ log st -> c1 ∈ executing st ->
          (b2, Began c2) ∈ log st -> (e2, Ended c2) ∈ log st ->
          e2 <= b1)
    /\ (forall c1 c2 a1 b1 e1 r1 a2 b2 e2 r2, c1 <> c2 ->
          (a1, Called c1) ∈ log st -> (b1, Began c1) ∈ log st ->
          (e1, Ended c1) ∈ log st -> (r1, Returned c1) ∈ log st ->
          (a2, Called c2) ∈ log st -> (b2, Began c2) ∈ log st ->
          (e2, Ended c2) ∈ log st -> (r2, Returned c2) ∈ log st ->
          (e1 - b1) + (e2 - b2) <= Z.max r1 r2 - Z.min a1 a2).
Proof.
  intros schedule st.
  destruct (inv_run schedule)
    as (A1 & A2 & B1 & B2 & B3 & B4 & B5 & C1 & C2 & C3 & C4 & C5 & C6).
  fold st in A1, A2, B1, B2, B3, B4, B5, C1, C2, C3, C4, C5, C6.
  split.
  { rewrite length_app in A1. destruct (_locked (_inference_lock st)); lia. }
  split.
  { intros c Hc.
    now destruct (holder_cases _ _ _ c A1 ltac:(apply elem_of_app; now left)). }
  split; [exact B1|]. split; [exact B2|]. split.
  { intros c1 c2 b1 e1 b2 e2 Hne H1 H2 H3 H4.
    split; [now apply (C3 c1)|]. split; [now apply (C3 c2)|].
    now apply (C6 c1 c2). }
  split.
  { intros c1 c2 b1 b2 e2 Hne H1 Hex H3 H4.
    apply (C5 c1 b1 c2 e2); auto. apply elem_of_app. now left. }
  intros c1 c2 a1 b1 e1 r1 a2 b2 e2 r2 Hne Ha1 Hb1 He1 Hr1 Ha2 Hb2 He2 Hr2.
  pose proof (C2 c1 a1 b1 Ha1 Hb1). pose proof (C2 c2 a2 b2 Ha2 Hb2).
  pose proof (C3 c1 b1 e1 Hb1 He1). pose proof (C3 c2 b2 e2 Hb2 He2).
  pose proof (C4 c1 e1 r1 He1 Hr1). pose proof (C4 c2 e2 r2 He2 Hr2).
  destruct (C6 c1 c2 b1 e1 b2 e2 Hne Hb1 He1 Hb2 He2); lia.
Qed.

(** Two calls, the second made while the job of the first runs: the first
    job runs from 0 to 6, the second from 7 to 14, and the two calls take
    15 in all, more than the 6 and the 7 of the two jobs. *)
Example two_calls_serialized :
  log (run two_calls)
  = [(0, Called 1%nat); (0, Began 1%nat); (1, Called 2%nat); (6, Ended 1%nat);
     (7, Returned 1%nat); (7, Began 2%nat); (14, Ended 2%nat);
     (15, Returned 2%nat)].
Proof. vm_compute. reflexivity. Qed.

Lemma inference_serialized_witness :
  log (run two_calls)
  = [(0, Called 1%nat); (0, Began 1%nat); (1, Called 2%nat); (6, Ended 1%nat);
     (7, Returned 1%nat); (7, Began 2%nat); (14, Ended 2%nat);
     (15, Returned 2%nat)]
  /\ (6 - 0) + (14 - 7) <= Z.max 7 15 - Z.min 0 1.
Proof.
  split; [vm_compute; reflexivity|].
  refine (proj2 (proj2 (proj2 (proj2 (proj2 (proj2
            (inference_serialized two_calls))))))
            1%nat 2%nat 0 0 6 7 1 7 14 15 _ _ _ _ _ _ _ _ _);
    [discriminate|..]; apply list_elem_of_In; vm_compute; tauto.
Defined.

End InferenceFacts.
